(** * baetyl-broker persistent queue: a shallow embedding of queue/persistence.go

    The queue sits between producers (Push), one consumer (Chan / Pop) and a
    durable bucket.  Three goroutines work on it: [writing] batches pushes
    and persists them ([add]), [reading] pumps persisted events to the
    output channel ([get]), and [deleting] turns acknowledgements into
    prefix deletions ([delete]) and sweeps expired data ([clean]).

    Unsigned 64-bit values are integers in [Z] reduced by [u64]; channels
    are lists bounded by their capacity; a Go [select] is a function of the
    case the runtime picks; what an operation does to the outside world
    (bucket calls, capabilities fired, errors logged, events sent) is
    appended to the [trace] of the queue.

    Module [session] embeds the callers of the queue in package session:
    the routing of a session to its two queues and its clients
    (session.go), and the publisher of an MQTT client, which records
    what it has sent under its packet id until the puback comes
    (client_mqtt_e.go). *)

From Stdlib Require Import ZArith List Lia Bool String Ascii Sorted.
From Stdlib.Strings Require Import Byte.
From stdpp Require Import base option list sorting gmap strings.

Local Open Scope Z_scope.

(** ** uint64 arithmetic *)

Definition u64 (x : Z) : Z := x mod 2 ^ 64.

(** Go's [error] interface: the values that can reach the queue. *)
Inductive error : Type :=
| ErrQueueClosed                  (* queue.ErrQueueClosed *)
| ErrDataNotFound                 (* store.ErrDataNotFound *)
| ErrOffsetExists (offset : Z)    (* put over a live offset *)
| ErrBackend (code : nat)         (* any failure of the storage engine *)
| ErrProto (code : nat).          (* proto.Marshal / proto.Unmarshal *)

Inductive result (A : Type) : Type :=
| Ok (a : A)
| Err (e : error).
Arguments Ok {A} a.
Arguments Err {A} e.

Definition is_ok {A} (r : result A) : bool :=
  match r with Ok _ => true | Err _ => false end.

(** ** mqtt.Message (baetyl-go) *)
Module mqtt.

Record MsgContext : Type := {
  ID : Z;          (* uint64 *)
  TS : Z;          (* uint64 *)
  QOS : Z;         (* uint32 *)
  Flags : Z;       (* uint32 *)
  Topic : string
}.

Record Message : Type := {
  Ctx : MsgContext;
  Content : list byte
}.

Definition with_ID (m : Message) (i : Z) : Message :=
  {| Ctx := {| ID := i; TS := TS (Ctx m); QOS := QOS (Ctx m);
               Flags := Flags (Ctx m); Topic := Topic (Ctx m) |};
     Content := Content m |}.

End mqtt.

(** ** proto.Marshal / proto.Unmarshal

    The protobuf codec is a library of its own; the queue only relies on
    the two calls, each of which may fail. *)
Module proto.

Class Codec : Type := {
  Marshal : mqtt.Message -> result (list byte);
  Unmarshal : list byte -> result mqtt.Message
}.

End proto.

(** ** common.Event *)
Module common.

(** Modelled from the spec: the one-shot capability of an event; the
    queue only sees package common through NewEvent and Done.  A
    producer's event carries the producer's [done] capability, identified
    by a token; an event built by the queue carries the queue's
    [acknowledge] method. *)
Inductive Capability : Type :=
| ProducerDone (token : nat)
| QueueAcknowledge.

Record Event : Type := {
  Message : mqtt.Message;
  Call : Capability
}.

(** [common.NewEvent(m, 1, call)] *)
Definition NewEvent (m : mqtt.Message) (call : Capability) : Event :=
  {| Message := m; Call := call |}.

Definition EventID (e : Event) : Z := mqtt.ID (mqtt.Ctx (Message e)).
Definition EventTS (e : Event) : Z := mqtt.TS (mqtt.Ctx (Message e)).

End common.

(** ** store.BatchBucket *)
Module store.

(** Modelled from the spec: the bucket of section 4.5, which the queue
    only sees through the interface store.BatchBucket (the interface and
    its backends are declared elsewhere in package store).  A row keeps
    the bytes and the timestamp of the secondary index.  Every operation
    takes [fault], the failure of the storage engine during this call if
    there is one; a failed call leaves the bucket as it was. *)
Record Row : Type := {
  data : list byte;
  stamp : Z
}.

(** Modelled from the spec: the ordered namespace of a queue, live offsets
    to rows. *)
Record BatchBucket : Type := {
  rows : gmap Z Row
}.

Definition live (b : BatchBucket) (k : Z) : bool :=
  bool_decide (is_Some (rows b !! k)).

(** Modelled from the spec: [max_offset()], the largest live offset, 0 if
    the bucket is empty. *)
Definition MaxOffset (fault : option error) (b : BatchBucket) : result Z :=
  match fault with
  | Some e => Err e
  | None => Ok (map_fold (fun k _ acc => Z.max k acc) 0 (rows b))
  end.

(** Modelled from the spec: [min_offset()], the smallest live offset, 0 if
    the bucket is empty. *)
Definition MinOffset (fault : option error) (b : BatchBucket) : result Z :=
  match fault with
  | Some e => Err e
  | None =>
      Ok (default 0
            (map_fold (fun k _ acc =>
                         Some (match acc with
                               | Some m => Z.min k m
                               | None => k
                               end)) None (rows b)))
  end.

Fixpoint put_rows (now : Z) (begin : Z) (records : list (list byte))
    (m : gmap Z Row) : gmap Z Row :=
  match records with
  | [] => m
  | d :: rest =>
      put_rows now (begin + 1) rest (<[begin := {| data := d; stamp := now |}]> m)
  end.

(** Modelled from the spec: [put(begin, records)], an atomic append under
    the offsets [begin, begin+n) that fails if any of them exists; [now]
    is the stamp the time index gives the rows. *)
Definition Put (fault : option error) (now : Z) (b : BatchBucket)
    (begin : Z) (records : list (list byte)) : result BatchBucket :=
  match fault with
  | Some e => Err e
  | None =>
      match List.find (live b) (seqZ begin (Z.of_nat (length records))) with
      | Some k => Err (ErrOffsetExists k)
      | None => Ok {| rows := put_rows now begin records (rows b) |}
      end
  end.

(** the live offsets of [begin, end) in ascending order, with their bytes *)
Definition scan (b : BatchBucket) (begin end_ : Z) : list (Z * list byte) :=
  omap (fun k => (fun r => (k, data r)) <$> rows b !! k)
       (seqZ begin (end_ - begin)).

Fixpoint iterate {A : Type} (cb : list byte -> Z -> A -> A * option error)
    (rs : list (Z * list byte)) (acc : A) : A * option error :=
  match rs with
  | [] => (acc, None)
  | (k, d) :: rest =>
      match cb d k acc with
      | (acc', None) => iterate cb rest acc'
      | (acc', Some e) => (acc', Some e)
      end
  end.

(** Modelled from the spec: [get(begin, end, cb)]; the callback runs on
    each live offset of the range in ascending order, and its first error
    ends the scan and is the error of the call.  The variables the Go
    closure captures are the accumulator. *)
Definition Get {A : Type} (fault : option error) (b : BatchBucket)
    (begin end_ : Z) (cb : list byte -> Z -> A -> A * option error) (acc : A)
    : A * option error :=
  match fault with
  | Some e => (acc, Some e)
  | None => iterate cb (scan b begin end_) acc
  end.

(** Modelled from the spec: [delete_before(id)] removes all offsets
    [< id]. *)
Definition DelBeforeID (fault : option error) (b : BatchBucket) (id : Z)
    : BatchBucket * option error :=
  match fault with
  | Some e => (b, Some e)
  | None => ({| rows := filter (fun kr => id <= kr.1) (rows b) |}, None)
  end.

(** Modelled from the spec: [delete_before_timestamp(ts)] removes all rows
    stamped [< ts]. *)
Definition DelBeforeTS (fault : option error) (b : BatchBucket) (ts : Z)
    : BatchBucket * option error :=
  match fault with
  | Some e => (b, Some e)
  | None => ({| rows := filter (fun kr => ts <= stamp kr.2) (rows b) |}, None)
  end.

(** Modelled from the spec: [close(clean)] destroys the namespace when
    [clean] is set. *)
Definition Close (b : BatchBucket) (clean : bool) : BatchBucket :=
  if clean then {| rows := ∅ |} else b.

(** offsets are unsigned *)
Definition valid (b : BatchBucket) : Prop :=
  forall k, is_Some (rows b !! k) -> 0 <= k.

(** the live offsets of [begin, end) *)
Definition offsets (b : BatchBucket) (begin end_ : Z) : list Z :=
  (scan b begin end_).*1.

End store.

(** ** queue.Persistence *)
Module queue.

Import common.

Record Config : Type := {
  Name : string;
  BatchSize : Z;
  MaxBatchCacheSize : Z;
  ExpireTime : Z;        (* time.Duration, nanoseconds *)
  CleanInterval : Z;
  WriteTimeout : Z;
  DeleteTimeout : Z
}.

Module batchMsgs.
Record t : Type := {
  offset : Z;
  data : list Event
}.
End batchMsgs.

(** What the queue does to its collaborators, in the order it happens. *)
Inductive obs : Type :=
| BucketPut (begin : Z) (ds : list (list byte))
| BucketGet (begin end_ : Z)
| BucketDelBeforeID (id : Z)
| BucketDelBeforeTS (ts : Z)
| BucketMinOffset
| BucketClose (clean : bool)
| Fired (c : Capability) (id : Z)       (* e.Done() *)
| LogError (msg : string) (e : error)   (* q.log.Error *)
| Sent (e : Event).                     (* q.output <- e *)

Record Persistence : Type := {
  id : string;
  cfg : Config;
  offset : Z;
  cache : list batchMsgs.t;
  bucket : store.BatchBucket;
  disable : bool;
  input : list Event;       (* chan, capacity BatchSize *)
  output : list Event;      (* chan, capacity BatchSize *)
  edel : list Z;            (* chan, capacity BatchSize *)
  eget : bool;              (* chan of capacity 1: a pump is pending *)
  dying : bool;             (* utils.Tomb *)
  trace : list obs
}.

Definition with_offset (q : Persistence) (v : Z) : Persistence :=
  {| id := id q; cfg := cfg q; offset := v; cache := cache q;
     bucket := bucket q; disable := disable q; input := input q;
     output := output q; edel := edel q; eget := eget q;
     dying := dying q; trace := trace q |}.

Definition with_cache (q : Persistence) (v : list batchMsgs.t) : Persistence :=
  {| id := id q; cfg := cfg q; offset := offset q; cache := v;
     bucket := bucket q; disable := disable q; input := input q;
     output := output q; edel := edel q; eget := eget q;
     dying := dying q; trace := trace q |}.

Definition with_bucket (q : Persistence) (v : store.BatchBucket) : Persistence :=
  {| id := id q; cfg := cfg q; offset := offset q; cache := cache q;
     bucket := v; disable := disable q; input := input q;
     output := output q; edel := edel q; eget := eget q;
     dying := dying q; trace := trace q |}.

Definition with_disable (q : Persistence) (v : bool) : Persistence :=
  {| id := id q; cfg := cfg q; offset := offset q; cache := cache q;
     bucket := bucket q; disable := v; input := input q;
     output := output q; edel := edel q; eget := eget q;
     dying := dying q; trace := trace q |}.

Definition with_input (q : Persistence) (v : list Event) : Persistence :=
  {| id := id q; cfg := cfg q; offset := offset q; cache := cache q;
     bucket := bucket q; disable := disable q; input := v;
     output := output q; edel := edel q; eget := eget q;
     dying := dying q; trace := trace q |}.

Definition with_output (q : Persistence) (v : list Event) : Persistence :=
  {| id := id q; cfg := cfg q; offset := offset q; cache := cache q;
     bucket := bucket q; disable := disable q; input := input q;
     output := v; edel := edel q; eget := eget q;
     dying := dying q; trace := trace q |}.

Definition with_edel (q : Persistence) (v : list Z) : Persistence :=
  {| id := id q; cfg := cfg q; offset := offset q; cache := cache q;
     bucket := bucket q; disable := disable q; input := input q;
     output := output q; edel := v; eget := eget q;
     dying := dying q; trace := trace q |}.

Definition with_eget (q : Persistence) (v : bool) : Persistence :=
  {| id := id q; cfg := cfg q; offset := offset q; cache := cache q;
     bucket := bucket q; disable := disable q; input := input q;
     output := output q; edel := edel q; eget := v;
     dying := dying q; trace := trace q |}.

Definition with_dying (q : Persistence) (v : bool) : Persistence :=
  {| id := id q; cfg := cfg q; offset := offset q; cache := cache q;
     bucket := bucket q; disable := disable q; input := input q;
     output := output q; edel := edel q; eget := eget q;
     dying := v; trace := trace q |}.

Definition with_trace (q : Persistence) (v : list obs) : Persistence :=
  {| id := id q; cfg := cfg q; offset := offset q; cache := cache q;
     bucket := bucket q; disable := disable q; input := input q;
     output := output q; edel := edel q; eget := eget q;
     dying := dying q; trace := v |}.

Definition emit (q : Persistence) (o : list obs) : Persistence :=
  with_trace q (trace q ++ o).

(** A buffered channel takes a value while it holds fewer than its
    capacity; with capacity 0 a value is handed over one at a time. *)
Definition room {A : Type} (ch : list A) (capacity : Z) : bool :=
  Z.of_nat (length ch) <? Z.max 1 capacity.

(** The case of a [select] the runtime takes: a receive, a send, a timer,
    the clean ticker, or the dying signal.  An operation returns [None]
    when the case cannot proceed in the state at hand (or is not one of
    its select), so that the runtime cannot have picked it. *)
Inductive pick : Type :=
| PickRecv
| PickSend
| PickTimer
| PickTicker
| PickDying.

(** triggers an event to get message from backend database *)
Definition trigger (q : Persistence) : Persistence :=
  with_eget q true.

(** Push pushes a message into queue *)
Definition Push (p : pick) (q : Persistence) (e : Event)
    : option (Persistence * option error) :=
  match p with
  | PickSend =>
      if room (input q) (BatchSize (cfg q))
      then Some (with_input q (input q ++ [e]), None)
      else None
  | PickDying =>
      if dying q then Some (q, Some ErrQueueClosed) else None
  | _ => None
  end.

(** Pop pops a message from queue *)
Definition Pop (p : pick) (q : Persistence)
    : option (Persistence * option Event * option error) :=
  match p with
  | PickRecv =>
      match output q with
      | e :: rest => Some (with_output q rest, Some e, None)
      | [] => None
      end
  | PickDying =>
      if dying q then Some (q, None, Some ErrQueueClosed) else None
  | _ => None
  end.

(** acknowledge all acknowledged message from db in batch mode *)
Definition acknowledge (p : pick) (q : Persistence) (i : Z)
    : option Persistence :=
  match p with
  | PickSend =>
      if room (edel q) (BatchSize (cfg q))
      then Some (with_edel q (edel q ++ [i]))
      else None
  | PickDying => if dying q then Some q else None
  | _ => None
  end.

(** ID return id *)
Definition ID (q : Persistence) : string := id q.

(** Chan returns message channel *)
Definition Chan (q : Persistence) : list Event := output q.

(** Disable disable *)
Definition Disable (q : Persistence) : Persistence :=
  with_disable q true.

(** [q.Kill(nil)], the first thing Close does; what Close does after
    Wait is the step [ACloseBucket] of the system below *)
Definition Kill (q : Persistence) : Persistence :=
  with_dying q true.

Definition fire_done (buf : list Event) : list obs :=
  List.map (fun e => Fired (Call e) (EventID e)) buf.

Definition sent_events (t : list obs) : list Event :=
  omap (fun o => match o with Sent e => Some e | _ => None end) t.

Definition sent_ids (t : list obs) : list Z :=
  EventID <$> sent_events t.

Definition is_bucket_call (o : obs) : bool :=
  match o with
  | BucketPut _ _ | BucketGet _ _ | BucketDelBeforeID _
  | BucketDelBeforeTS _ | BucketMinOffset | BucketClose _ => true
  | _ => false
  end.

Definition bucket_calls (t : list obs) : list obs :=
  List.filter is_bucket_call t.

Definition fired (t : list obs) : list obs :=
  List.filter (fun o => match o with Fired _ _ => true | _ => false end) t.

Section WithCodec.

Context `{codec : proto.Codec}.

(** the loop of [add]: stamp each event with the next offset and
    serialize it; the first failure ends it *)
Fixpoint encode (begin : Z) (buf : list Event)
    : result (list (list byte) * list Event) :=
  match buf with
  | [] => Ok ([], [])
  | e :: rest =>
      let begin := u64 (begin + 1) in
      let ee := NewEvent (mqtt.with_ID (Message e) begin) QueueAcknowledge in
      match proto.Marshal (Message ee) with
      | Err err => Err err
      | Ok data =>
          match encode begin rest with
          | Err err => Err err
          | Ok (ds, msgs) => Ok (data :: ds, ee :: msgs)
          end
      end
  end.

(** [add] up to the point where it takes the lock *)
Inductive stored : Type :=
| Stored (q : Persistence) (begin : Z) (msgs : list Event) (n : nat)
| Dropped (q : Persistence).

Definition add_store (fault : option error) (now : Z) (q : Persistence)
    (buf : list Event) : stored :=
  match buf with
  | [] => Dropped q
  | _ :: _ =>
      match encode (offset q) buf with
      | Err err =>
          Dropped (emit q [LogError "failed to add messages to backend database" err])
      | Ok (ds, msgs) =>
          let begin := u64 (offset q + 1) in
          let q := emit q [BucketPut begin ds] in
          match store.Put fault now (bucket q) begin ds with
          | Ok b =>
              Stored (emit (with_bucket q b) (fire_done buf)) begin msgs
                     (length buf)
          | Err err =>
              Dropped (emit q [LogError "failed to add messages to backend database" err])
          end
      end
  end.

(** [add] from Lock to the trigger *)
Definition add_commit (q : Persistence) (begin : Z) (msgs : list Event)
    (n : nat) : Persistence :=
  if disable q then q
  else
    let q :=
      if Z.of_nat (length (cache q)) <? MaxBatchCacheSize (cfg q)
      then with_cache q (cache q ++
             [{| batchMsgs.offset := begin; batchMsgs.data := msgs |}])
      else q in
    let q := with_offset q (u64 (offset q + Z.of_nat n)) in
    trigger q.

Definition add (fault : option error) (now : Z) (q : Persistence)
    (buf : list Event) : Persistence * list Event :=
  match add_store fault now q buf with
  | Stored q begin msgs n => (add_commit q begin msgs n, [])
  | Dropped q => (q, [])
  end.

(** the callback [get] hands to the bucket; the closure's [msgs] and
    what it logs are the accumulator *)
Definition get_callback (data : list byte) (offset : Z)
    (acc : list mqtt.Message * list obs)
    : (list mqtt.Message * list obs) * option error :=
  match data with
  | [] => ((acc.1, acc.2 ++ [LogError "data not found" ErrDataNotFound]),
           Some ErrDataNotFound)
  | _ :: _ =>
      match proto.Unmarshal data with
      | Err err => (acc, Some err)
      | Ok v => ((acc.1 ++ [mqtt.with_ID v offset], acc.2), None)
      end
  end.

(** get gets messages from db in batch mode *)
Definition get (fault : option error) (q : Persistence) (begin end_ : Z)
    : Persistence * result (list Event) :=
  let q := emit q [BucketGet begin end_] in
  match store.Get fault (bucket q) begin end_ get_callback ([], []) with
  | ((_, logs), Some err) => (emit q logs, Err err)
  | ((msgs, logs), None) =>
      (emit q logs,
       Ok (List.map (fun m => NewEvent m QueueAcknowledge) msgs))
  end.

(** deletes all acknowledged message from db in batch mode *)
Definition delete (fault : option error) (q : Persistence) (buf : list Z)
    : Persistence * list Z :=
  match last buf with
  | None => (q, buf)
  | Some i =>
      let q := emit q [BucketDelBeforeID i] in
      let '(b, err) := store.DelBeforeID fault (bucket q) i in
      let q := with_bucket q b in
      let q :=
        match err with
        | Some e => emit q [LogError "failed to delete messages from db" e]
        | None => q
        end in
      (q, [])
  end.

(** [uint64(time.Now().Add(-q.cfg.ExpireTime).Unix())], with [now] the
    clock in nanoseconds since the epoch *)
Definition expire_threshold (now : Z) (q : Persistence) : Z :=
  u64 ((now - ExpireTime (cfg q)) / 1000000000).

(** the loop of [clean]: the index of the first batch whose last event
    is not expired; [index] keeps its zero value when the loop runs
    out.  [None] is the index-out-of-range panic on a batch without
    events. *)
Fixpoint clean_index (threshold : Z) (cache : list batchMsgs.t) (i : nat)
    : option nat :=
  match cache with
  | [] => Some 0%nat
  | v :: rest =>
      match last (batchMsgs.data v) with
      | None => None
      | Some e =>
          if threshold <=? EventTS e then Some i
          else clean_index threshold rest (S i)
      end
  end.

(** [clean] under the lock *)
Definition clean_lock (now : Z) (q : Persistence) : option Persistence :=
  match clean_index (expire_threshold now q) (cache q) 0 with
  | None => None
  | Some index => Some (with_cache q (drop index (cache q)))
  end.

(** [clean] after Unlock *)
Definition clean_store (fault : option error) (now : Z) (q : Persistence)
    : Persistence :=
  let ts := expire_threshold now q in
  let q := emit q [BucketDelBeforeTS ts] in
  let '(b, err) := store.DelBeforeTS fault (bucket q) ts in
  let q := with_bucket q b in
  match err with
  | Some e => emit q [LogError "failed to clean expired messages from db" e]
  | None => q
  end.

(** clean expired messages, the clock standing still during the sweep *)
Definition clean (fault : option error) (now : Z) (q : Persistence)
    : option Persistence :=
  clean_store fault now <$> clean_lock now q.

(** NewPersistence creates a new persistent queue *)
Definition NewPersistence (fault : option error) (c : Config)
    (b : store.BatchBucket) : result Persistence :=
  match store.MaxOffset fault b with
  | Err e => Err e
  | Ok off =>
      Ok (trigger {| id := Name c; cfg := c; offset := off; cache := [];
                     bucket := b; disable := false; input := [];
                     output := []; edel := []; eget := false;
                     dying := false; trace := [] |})
  end.

(** *** The three goroutines

    Each is a machine over the points where the Go code can be
    overtaken by another goroutine: a select, a bucket call, a lock. *)

Inductive writer : Type :=
| WLoop (buf : list Event)
| WCommit (begin : Z) (msgs : list Event) (n : nat) (closing : bool)
| WExit.

Definition writing_add (fault : option error) (now : Z) (q : Persistence)
    (buf : list Event) (closing : bool) : Persistence * writer :=
  match add_store fault now q buf with
  | Stored q begin msgs n => (q, WCommit begin msgs n closing)
  | Dropped q => (q, if closing then WExit else WLoop [])
  end.

Definition writing (p : pick) (fault : option error) (now : Z)
    (q : Persistence) (w : writer) : option (Persistence * writer) :=
  match w with
  | WLoop buf =>
      match p with
      | PickRecv =>
          match input q with
          | e :: rest =>
              let q := with_input q rest in
              let buf := buf ++ [e] in
              if Z.of_nat (length buf) =? BatchSize (cfg q)
              then Some (writing_add fault now q buf false)
              else Some (q, WLoop buf)
          | [] => None
          end
      | PickTimer => Some (writing_add fault now q buf false)
      | PickDying =>
          if dying q then Some (writing_add fault now q buf true) else None
      | _ => None
      end
  | WCommit begin msgs n closing =>
      Some (add_commit q begin msgs n, if closing then WExit else WLoop [])
  | WExit => None
  end.

(** [reading] under the lock: the upper end of the round and the head
    batch when it starts at [begin] *)
Definition reading_lock (q : Persistence) (begin : Z)
    : Persistence * Z * list Event :=
  let '(q, end_, buf) :=
    match cache q with
    | c :: rest =>
        if begin =? batchMsgs.offset c
        then (with_cache q rest, batchMsgs.offset c, batchMsgs.data c)
        else (q, batchMsgs.offset c, [])
    | [] => (q, 0, [])
    end in
  let end_ := if end_ =? 0 then u64 (offset q + 1) else end_ in
  let t := u64 (begin + u64 (BatchSize (cfg q))) in
  let end_ := if t <? end_ then t else end_ in
  (q, end_, buf).

Inductive reader : Type :=
| RStart
| RWait (begin : Z)
| RFetch (begin end_ : Z) (buf : list Event)
| RSend (begin : Z) (buf : list Event) (i : nat)
| RExit (err : option error).

Definition reading (p : pick) (fault : option error) (q : Persistence)
    (r : reader) : option (Persistence * reader) :=
  match r with
  | RStart =>
      let q := emit q [BucketMinOffset] in
      match store.MinOffset fault (bucket q) with
      | Err err => Some (Kill q, RExit (Some err))
      | Ok begin => Some (q, RWait (if begin =? 0 then 1 else begin))
      end
  | RWait begin =>
      match p with
      | PickRecv =>
          if eget q
          then let '(q, end_, buf) := reading_lock (with_eget q false) begin in
               Some (q, RFetch begin end_ buf)
          else None
      | PickDying => if dying q then Some (q, RExit None) else None
      | _ => None
      end
  | RFetch begin end_ buf =>
      let '(q, got) :=
        if (length buf =? 0)%nat && negb (begin =? end_)
        then get fault q begin end_
        else (q, Ok buf) in
      match got with
      | Err err =>
          Some (emit q [LogError "failed to get message from backend database" err],
                RWait begin)
      | Ok [] => Some (q, RWait begin)
      | Ok (e :: rest) => Some (q, RSend begin (e :: rest) 0)
      end
  | RSend begin buf i =>
      match buf !! i with
      | Some e =>
          match p with
          | PickSend =>
              if room (output q) (BatchSize (cfg q))
              then Some (emit (with_output q (output q ++ [e])) [Sent e],
                         RSend begin buf (S i))
              else None
          | PickDying => if dying q then Some (q, RExit None) else None
          | _ => None
          end
      | None =>
          match last buf with
          | Some e => Some (trigger q, RWait (u64 (EventID e + 1)))
          | None => None
          end
      end
  | RExit _ => None
  end.

Inductive deleter : Type :=
| DLoop (buf : list Z)
| DClean (buf : list Z)
| DExit.

Definition deleting (p : pick) (fault : option error) (now : Z)
    (q : Persistence) (d : deleter) : option (Persistence * deleter) :=
  match d with
  | DLoop buf =>
      match p with
      | PickRecv =>
          match edel q with
          | e :: rest =>
              let q := with_edel q rest in
              let buf := buf ++ [e] in
              if Z.of_nat (length buf) =? BatchSize (cfg q)
              then let '(q, buf) := delete fault q buf in Some (q, DLoop buf)
              else Some (q, DLoop buf)
          | [] => None
          end
      | PickTimer =>
          let '(q, buf) := delete fault q buf in Some (q, DLoop buf)
      | PickTicker => (fun q => (q, DClean buf)) <$> clean_lock now q
      | PickDying =>
          if dying q
          then let '(q, _) := delete fault q buf in Some (q, DExit)
          else None
      | _ => None
      end
  | DClean buf => Some (clean_store fault now q, DLoop buf)
  | DExit => None
  end.

(** *** The queue and its goroutines together *)

Record System : Type := {
  q : Persistence;
  w : writer;
  r : reader;
  d : deleter
}.

Definition start (fault : option error) (c : Config) (b : store.BatchBucket)
    : result System :=
  match NewPersistence fault c b with
  | Err e => Err e
  | Ok q0 => Ok {| q := q0; w := WLoop []; r := RStart; d := DLoop [] |}
  end.

Inductive action : Type :=
| APush (p : pick) (e : Event)
| APop (p : pick)
| AAcknowledge (p : pick) (i : Z)
| ADisable
| AKill
| AWriting (p : pick) (fault : option error) (now : Z)
| AReading (p : pick) (fault : option error)
| ADeleting (p : pick) (fault : option error) (now : Z)
| ACloseBucket (clean : bool).

Definition exited (s : System) : bool :=
  match w s, r s, d s with
  | WExit, RExit _, DExit => true
  | _, _, _ => false
  end.

Definition step (a : action) (s : System) : option System :=
  match a with
  | APush p e =>
      (fun x => {| q := x.1; w := w s; r := r s; d := d s |}) <$> Push p (q s) e
  | APop p =>
      (fun x => {| q := x.1.1; w := w s; r := r s; d := d s |}) <$> Pop p (q s)
  | AAcknowledge p i =>
      (fun x => {| q := x; w := w s; r := r s; d := d s |})
        <$> acknowledge p (q s) i
  | ADisable => Some {| q := Disable (q s); w := w s; r := r s; d := d s |}
  | AKill => Some {| q := Kill (q s); w := w s; r := r s; d := d s |}
  | AWriting p fault now =>
      (fun x => {| q := x.1; w := x.2; r := r s; d := d s |})
        <$> writing p fault now (q s) (w s)
  | AReading p fault =>
      (fun x => {| q := x.1; w := w s; r := x.2; d := d s |})
        <$> reading p fault (q s) (r s)
  | ADeleting p fault now =>
      (fun x => {| q := x.1; w := w s; r := r s; d := x.2 |})
        <$> deleting p fault now (q s) (d s)
  | ACloseBucket clean =>
      if dying (q s) && exited s
      then Some {| q := emit (with_bucket (q s) (store.Close (bucket (q s)) clean))
                          [BucketClose clean];
                   w := w s; r := r s; d := d s |}
      else None
  end.

(** an action that cannot happen in a state leaves it as it is *)
Definition exec (s : System) (a : action) : System :=
  default s (step a s).

Definition run (s : System) (acts : list action) : System :=
  fold_left exec acts s.

Definition pushes (acts : list action) : nat :=
  length (List.filter (fun a => match a with APush _ _ => true | _ => false end) acts).

End WithCodec.

End queue.

(** ** A record encoding to run the queue with *)
Module wire.

Definition byte_of_Z (x : Z) : byte :=
  default x00 (Byte.of_N (Z.to_N (x mod 256))).

Definition Z_of_byte (b : byte) : Z := Z.of_N (Byte.to_N b).

(** store.U64ToByte: eight bytes, most significant first *)
Definition U64ToByte (v : Z) : list byte :=
  List.map (fun i => byte_of_Z (Z.shiftr v (8 * i))) [7; 6; 5; 4; 3; 2; 1; 0].

(** store.ByteToU64 *)
Definition ByteToU64 (bs : list byte) : Z :=
  fold_left (fun acc b => Z.lor (Z.shiftl acc 8) (Z_of_byte b)) bs 0.

(** Modelled from the spec: the record encoding of section 6, a
    length-delimited encoding of (offset, timestamp, qos, flags, topic,
    payload).  As with proto3 strings, a topic that is not UTF-8 (here:
    one holding a byte from 0xF8 on) is refused. *)
Definition encode_message (m : mqtt.Message) : result (list byte) :=
  let c := mqtt.Ctx m in
  let topic := list_byte_of_string (mqtt.Topic c) in
  if existsb (fun b => 248 <=? Z_of_byte b) topic then Err (ErrProto 1)
  else Ok (U64ToByte (mqtt.ID c) ++ U64ToByte (mqtt.TS c)
           ++ U64ToByte (mqtt.QOS c) ++ U64ToByte (mqtt.Flags c)
           ++ U64ToByte (Z.of_nat (length topic)) ++ topic
           ++ mqtt.Content m).

Definition decode_message (bs : list byte) : result mqtt.Message :=
  if (length bs <? 40)%nat then Err (ErrProto 2)
  else
    let field i := ByteToU64 (take 8 (drop (8 * i) bs)) in
    let n := Z.to_nat (field 4%nat) in
    let rest := drop 40 bs in
    if (length rest <? n)%nat then Err (ErrProto 3)
    else Ok {| mqtt.Ctx := {| mqtt.ID := field 0%nat; mqtt.TS := field 1%nat;
                              mqtt.QOS := field 2%nat; mqtt.Flags := field 3%nat;
                              mqtt.Topic := string_of_list_byte (take n rest) |};
               mqtt.Content := drop n rest |}.

#[global] Instance codec : proto.Codec :=
  {| proto.Marshal := encode_message; proto.Unmarshal := decode_message |}.

(** events and queues to run *)
Definition message (i ts : Z) (topic : string) : mqtt.Message :=
  {| mqtt.Ctx := {| mqtt.ID := i; mqtt.TS := ts; mqtt.QOS := 1;
                    mqtt.Flags := 0; mqtt.Topic := topic |};
     mqtt.Content := [x68; x69] |}.

Definition produced (token : nat) (ts : Z) : common.Event :=
  common.NewEvent (message 0 ts "t") (common.ProducerDone token).

Definition stamped (i ts : Z) : common.Event :=
  common.NewEvent (message i ts "t") common.QueueAcknowledge.

Definition record (i ts : Z) : list byte :=
  match encode_message (message i ts "t") with
  | Ok bs => bs
  | Err _ => []
  end.

Definition config (batch cached : Z) : queue.Config :=
  {| queue.Name := "q"; queue.BatchSize := batch;
     queue.MaxBatchCacheSize := cached;
     queue.ExpireTime := 100 * 1000000000;
     queue.CleanInterval := 10 * 1000000000;
     queue.WriteTimeout := 100000000;
     queue.DeleteTimeout := 500000000 |}.

Definition empty_bucket : store.BatchBucket := {| store.rows := ∅ |}.

Definition bucket_of (l : list (Z * list byte)) : store.BatchBucket :=
  {| store.rows :=
       list_to_map (List.map (fun kd => (kd.1, {| store.data := kd.2; store.stamp := 0 |})) l) |}.

Definition fresh (batch cached : Z) (b : store.BatchBucket) : queue.Persistence :=
  match queue.NewPersistence None (config batch cached) b with
  | Ok q => q
  | Err _ =>
      {| queue.id := "q"; queue.cfg := config batch cached; queue.offset := 0;
         queue.cache := []; queue.bucket := b; queue.disable := false;
         queue.input := []; queue.output := []; queue.edel := [];
         queue.eget := false; queue.dying := false; queue.trace := [] |}
  end.

End wire.

Import queue common.

(** * Vocabulary of the statements *)

(** the largest offset of a buffer *)
Definition max_offset (buf : list Z) : Z :=
  match buf with
  | [] => 0
  | x :: rest => fold_left Z.max rest x
  end.

(** six persisted records, offsets 1 to 6 *)
Definition six_records : store.BatchBucket :=
  wire.bucket_of [(1, wire.record 1 0); (2, wire.record 2 0); (3, wire.record 3 0);
                  (4, wire.record 4 0); (5, wire.record 5 0); (6, wire.record 6 0)].

(** a record stored under key 7 whose bytes encode offset 3 *)
Definition mismatched : store.BatchBucket := wire.bucket_of [(7, wire.record 3 0)].

(** a cached batch whose last event is older than the threshold, or not *)
Definition expired (threshold : Z) (v : batchMsgs.t) : Prop :=
  exists e, last (batchMsgs.data v) = Some e /\ EventTS e < threshold.

Definition unexpired (threshold : Z) (v : batchMsgs.t) : Prop :=
  exists e, last (batchMsgs.data v) = Some e /\ threshold <= EventTS e.

(** events the writer holds that have no offset in [q.offset] yet *)
Definition pending (w : writer) : nat :=
  match w with
  | WLoop buf => length buf
  | WCommit _ _ n _ => n
  | WExit => 0%nat
  end.

(** a batch as [add] builds it: events stamped with consecutive offsets
    from the batch's own, below the top of uint64 *)
Definition wf_batch (b : batchMsgs.t) : Prop :=
  batchMsgs.data b <> []
  /\ EventID <$> batchMsgs.data b
     = seqZ (batchMsgs.offset b) (Z.of_nat (length (batchMsgs.data b)))
  /\ 0 <= batchMsgs.offset b
  /\ batchMsgs.offset b + Z.of_nat (length (batchMsgs.data b)) < 2 ^ 64.

(** a slice the reader is about to send from cursor [begin] *)
Definition slice_ok (begin : Z) (buf : list Event) : Prop :=
  buf <> []
  /\ StronglySorted Z.lt (EventID <$> buf)
  /\ Forall (fun k => begin <= k < 2 ^ 64 - 1) (EventID <$> buf).

(** the cursor is past everything sent, and right after the last of it *)
Definition cursor_ok (ids : list Z) (begin : Z) : Prop :=
  0 <= begin
  /\ Forall (fun k => k < begin) ids
  /\ (ids = [] \/ last ids = Some (begin - 1)).

Definition reader_inv (ids : list Z) (r : reader) : Prop :=
  match r with
  | RStart => ids = []
  | RWait begin => cursor_ok ids begin
  | RFetch begin end_ buf =>
      cursor_ok ids begin /\ 0 <= end_ < 2 ^ 64 /\ (buf = [] \/ slice_ok begin buf)
  | RSend begin buf i =>
      0 <= begin /\ slice_ok begin buf
      /\ exists h, ids = h ++ take i (EventID <$> buf)
                   /\ Forall (fun k => k < begin) h
  | RExit _ => True
  end.

Definition writer_inv (w : writer) : Prop :=
  match w with
  | WCommit begin msgs n _ =>
      wf_batch {| batchMsgs.offset := begin; batchMsgs.data := msgs |}
  | _ => True
  end.

(** [rem] is the number of pushes still to come *)
Definition inv (rem : nat) (q : Persistence) (w : writer) (r : reader) : Prop :=
  0 <= offset q
  /\ offset q + Z.of_nat (pending w + length (input q) + rem) < 2 ^ 64 - 1
  /\ Forall wf_batch (cache q)
  /\ writer_inv w
  /\ store.valid (bucket q)
  /\ StronglySorted Z.lt (sent_ids (trace q))
  /\ reader_inv (sent_ids (trace q)) r.

(** a change of the queue that the invariant does not see *)
Definition quiet (q q' : Persistence) : Prop :=
  offset q' = offset q
  /\ input q' = input q
  /\ cache q' = cache q
  /\ sent_events (trace q') = sent_events (trace q)
  /\ cfg q' = cfg q
  /\ disable q' = disable q
  /\ (store.valid (bucket q) -> store.valid (bucket q')).

(** how one step may change the cache *)
Definition cache_step (q q' : Persistence) : Prop :=
  cfg q' = cfg q
  /\ (disable q = true -> disable q' = true)
  /\ (cache q' `suffix_of` cache q
      \/ (disable q = false
          /\ Z.of_nat (length (cache q)) < MaxBatchCacheSize (cfg q)
          /\ exists b, cache q' = cache q ++ [b])).

Definition sys_inv (rem : nat) (s : System) : Prop :=
  inv rem (q s) (w s) (r s).

Ltac inv_split := unfold inv; split_and!; try done.

(** a queue over an empty bucket, batches of two, one cached batch, and a
    run of it: two pushes, the flush, the pump that serves them from the
    cache, a pop and its acknowledgement *)
Definition demo_start : System :=
  {| q := wire.fresh 2 1 wire.empty_bucket; w := WLoop []; r := RStart;
     d := DLoop [] |}.

Definition demo_run : list action :=
  [AReading PickRecv None;
   APush PickSend (wire.produced 1 5); APush PickSend (wire.produced 2 6);
   AWriting PickRecv None 0; AWriting PickRecv None 0; AWriting PickTimer None 0;
   AReading PickRecv None; AReading PickRecv None;
   AReading PickSend None; AReading PickSend None; AReading PickSend None;
   APop PickRecv; AAcknowledge PickSend 1;
   ADeleting PickRecv None 0; ADeleting PickTimer None 0].

(** * Vocabulary of the further properties *)

(** the batch [add] builds from a buffer when the offset stands at [begin] *)
Definition stamp_from (begin : Z) (buf : list Event) : list Event :=
  imap (fun i e => NewEvent (mqtt.with_ID (Message e) (begin + 1 + Z.of_nat i))
                            QueueAcknowledge) buf.

(** a record the reader can take: not empty, and it decodes *)
Definition readable `{codec : proto.Codec} (kd : Z * list byte) : Prop :=
  kd.2 <> [] /\ is_ok (proto.Unmarshal kd.2) = true.

(** the reader sends from a slice that has events *)
Definition reader_ok (r : reader) : Prop :=
  match r with
  | RSend _ buf _ => buf <> []
  | _ => True
  end.

(** the steps Close waits for: each goroutine sees the dying signal *)
Definition shutdown (fw1 fw2 fr1 fr2 fd1 fd2 : option error) (now : Z)
    : list action :=
  [AWriting PickDying fw1 now; AWriting PickDying fw2 now;
   AReading PickDying fr1; AReading PickDying fr2;
   ADeleting PickDying fd1 now; ADeleting PickDying fd2 now].

(** how many steps on the dying signal a goroutine is from returning *)
Definition wsteps (w : writer) : nat :=
  match w with
  | WExit => 0
  | WLoop [] | WCommit _ _ _ true => 1
  | WLoop (_ :: _) | WCommit _ _ _ false => 2
  end.

Definition rsteps (r : reader) : nat :=
  match r with
  | RExit _ => 0
  | RWait _ => 1
  | RSend _ buf i => match buf !! i with Some _ => 1 | None => 2 end
  | RStart | RFetch _ _ _ => 2
  end.

Definition dsteps (d : deleter) : nat :=
  match d with
  | DExit => 0
  | DLoop _ => 1
  | DClean _ => 2
  end.

(** offsets the queue may still hand out: everything pushed and not yet
    committed is counted against [bound] *)
Definition budget (bound : Z) (s : System) : Prop :=
  0 <= offset (q s)
  /\ offset (q s) + Z.of_nat (pending (w s) + length (input (q s))) <= bound.

Definition push1 (a : action) : Z :=
  match a with APush _ _ => 1 | _ => 0 end.

(** everything cached, fetched or sent lies at or below [q.offset], and a
    batch waiting for the lock starts right above it *)
Definition committed (q : Persistence) (w : writer) (r : reader) : Prop :=
  Forall (fun b => batchMsgs.offset b + Z.of_nat (length (batchMsgs.data b))
                   <= offset q + 1) (cache q)
  /\ match w with
     | WCommit begin msgs n _ => begin = offset q + 1 /\ length msgs = n
     | _ => True
     end
  /\ Forall (fun k => k <= offset q) (sent_ids (trace q))
  /\ match r with
     | RFetch _ end_ buf =>
         end_ <= offset q + 1 /\ Forall (fun k => k <= offset q) (EventID <$> buf)
     | RSend _ buf _ => Forall (fun k => k <= offset q) (EventID <$> buf)
     | _ => True
     end.

(** a batch of between one and [n] events *)
Definition batch_sized (n : Z) (b : batchMsgs.t) : Prop :=
  1 <= Z.of_nat (length (batchMsgs.data b)) <= n.

(** what the queue holds in memory, against the batch size [n]: the three
    channels, the buffers of the writer and of the deleter, the batch
    waiting for the lock and the cached batches *)
Definition bounded (n : Z) (s : System) : Prop :=
  BatchSize (cfg (q s)) = n
  /\ Z.of_nat (length (input (q s))) <= n
  /\ Z.of_nat (length (output (q s))) <= n
  /\ Z.of_nat (length (edel (q s))) <= n
  /\ match w s with
     | WLoop buf => Z.of_nat (length buf) < n
     | WCommit _ msgs k _ => 1 <= Z.of_nat (length msgs) <= n
     | WExit => True
     end
  /\ match d s with
     | DLoop buf | DClean buf => Z.of_nat (length buf) < n
     | DExit => True
     end
  /\ Forall (batch_sized n) (cache (q s)).

(** ** The session of a client and its publisher (package session) *)
Module session.

Import queue common.

(** the [client] interface as the session uses it: [getID] and
    [setSession]; [addr] tells two client objects of one id apart *)
Record client : Type := {
  getID : string;
  addr : nat;
  attached : option string
}.

Definition setSession (c : client) (sid : string) : client :=
  {| getID := getID c; addr := addr c; attached := Some sid |}.

(** a value of the interface queue.Queue as the session uses it: some
    implementation, its state, and its Push, which like the one of
    Persistence may depend on the case its select takes *)
Record Queue : Type := {
  impl : Type;
  state : impl;
  push : pick -> impl -> Event -> option (impl * option error)
}.

(** [q.Push(e)] on an interface value: the method of the implementation
    runs on its state *)
Definition QPush (p : pick) (qu : Queue) (e : Event)
    : option (Queue * option error) :=
  (fun x => ({| impl := impl qu; state := x.1; push := push qu |}, x.2))
    <$> push qu p (state qu) e.

(** a Persistence as a queue.Queue *)
Definition of_persistence (q : Persistence) : Queue :=
  {| impl := Persistence; state := q; push := queue.Push |}.

(** Session session of a client; [subs] is the Match of the subscription
    trie, from a topic to the QoS of the subscriptions it matches *)
Record Session : Type := {
  SID : string;
  CleanSession : bool;
  qos0 : Queue;
  qos1 : Queue;
  subs : string -> list Z;
  clis : gmap string client
}.

Definition with_qos0 (s : Session) (v : Queue) : Session :=
  {| SID := SID s; CleanSession := CleanSession s; qos0 := v; qos1 := qos1 s;
     subs := subs s; clis := clis s |}.

Definition with_qos1 (s : Session) (v : Queue) : Session :=
  {| SID := SID s; CleanSession := CleanSession s; qos0 := qos0 s; qos1 := v;
     subs := subs s; clis := clis s |}.

Definition with_clis (s : Session) (v : gmap string client) : Session :=
  {| SID := SID s; CleanSession := CleanSession s; qos0 := qos0 s;
     qos1 := qos1 s; subs := subs s; clis := v |}.

Inductive pushed : Type :=
| Panic (msg : string)
| Pushed (s : Session) (err : option error).

(** the loop over the matched subscriptions: is there one above QoS 0 *)
Fixpoint any_qos1 (qs : list Z) : bool :=
  match qs with
  | [] => false
  | q :: rest => if 0 <? q then true else any_qos1 rest
  end.

(** Push pushes source message to session queue *)
Definition Push (p : pick) (s : Session) (e : Event) : option pushed :=
  if mqtt.QOS (mqtt.Ctx (Message e)) =? 0
  then (fun x => Pushed (with_qos0 s x.1) x.2) <$> QPush p (qos0 s) e
  else
    let qs := subs s (mqtt.Topic (mqtt.Ctx (Message e))) in
    match qs with
    | [] => Some (Panic "At least one subscription matched")
    | _ :: _ =>
        if any_qos1 qs
        then (fun x => Pushed (with_qos1 s x.1) x.2) <$> QPush p (qos1 s) e
        else (fun x => Pushed (with_qos0 s x.1) x.2) <$> QPush p (qos0 s) e
    end.

Definition clientCount (s : Session) : nat := size (clis s).

(** [addClient]; what it hands back is nil unless [exclusive] *)
Definition addClient (s : Session) (c : client) (exclusive : bool)
    : Session * option (gmap string client) :=
  let '(prev, cs) := if exclusive then (Some (clis s), ∅) else (None, clis s) in
  (with_clis s (<[getID c := setSession c (SID s)]> cs), prev).

(** returns true if session should be cleaned *)
Definition delClient (s : Session) (c : client) : Session * bool :=
  let s := with_clis s (base.delete (getID c) (clis s)) in
  (s, CleanSession s && (size (clis s) =? 0)%nat).

(** *** The publisher of an MQTT client (client_mqtt_e.go) *)

Inductive failure : Type :=
| ErrClientClosed
| ErrSend (code : nat).

(** the publish packet as the publisher touches it: its id and its Dup
    flag, with the event it was made from *)
Record Publish : Type := {
  PID : Z;
  Dup : bool;
  Of : Event
}.

Record pm : Type := {
  e : Event;
  p : Publish;
  l : Z
}.

Inductive obs : Type :=
| Done (ev : Event)
| Sent (pkt : Publish) (async : bool)
| Die (err : failure)
| LogError (msg : string)
| LogWarn (msg : string) (id : Z).

(** the publisher of a ClientMQTT with the client's tomb and what the
    client has done so far; [c] is the channel, [cap] its capacity *)
Record ClientMQTT : Type := {
  m : gmap Z pm;
  c : list pm;
  cap : Z;
  dying : bool;
  trace : list obs
}.

Definition with_m (cl : ClientMQTT) (v : gmap Z pm) : ClientMQTT :=
  {| m := v; c := c cl; cap := cap cl; dying := dying cl; trace := trace cl |}.

Definition with_c (cl : ClientMQTT) (v : list pm) : ClientMQTT :=
  {| m := m cl; c := v; cap := cap cl; dying := dying cl; trace := trace cl |}.

Definition emit (cl : ClientMQTT) (o : list obs) : ClientMQTT :=
  {| m := m cl; c := c cl; cap := cap cl; dying := dying cl;
     trace := trace cl ++ o |}.

(** the events acknowledged so far, in order *)
Definition dones (t : list obs) : list Event :=
  omap (fun o => match o with Done ev => Some ev | _ => None end) t.

(** [send]: [fault] is the error of connection.Send, if it fails *)
Definition send (fault : option failure) (cl : ClientMQTT) (pkt : Publish)
    (async : bool) : ClientMQTT * option failure :=
  match fault with
  | Some err => (emit cl [LogError "failed to send packet"; Die err], Some err)
  | None => (emit cl [Sent pkt async], None)
  end.

(** [publish]: [id] is what the counter's NextID returns, [now] the
    clock *)
Definition publish (id now : Z) (fault : option failure) (pk : pick)
    (cl : ClientMQTT) (ev : Event) : option (ClientMQTT * option failure) :=
  let m0 := {| e := ev; p := {| PID := id; Dup := false; Of := ev |}; l := now |} in
  let cl :=
    match m cl !! id with
    | Some o =>
        emit cl [LogError "packet id conflict, to acknowledge old one"; Done (e o)]
    | None => with_m cl (<[id := m0]> (m cl))
    end in
  match send fault cl (p m0) true with
  | (cl, Some err) => Some (cl, Some err)
  | (cl, None) =>
      match pk with
      | PickSend =>
          if room (c cl) (cap cl) then Some (with_c cl (c cl ++ [m0]), None)
          else None
      | PickDying => if dying cl then Some (cl, Some ErrClientClosed) else None
      | _ => None
      end
  end.

(** [acknowledge] of a puback with packet id [id] *)
Definition acknowledge (cl : ClientMQTT) (id : Z) : ClientMQTT :=
  match m cl !! id with
  | None => emit cl [LogWarn "puback not found" id]
  | Some o => emit (with_m cl (base.delete id (m cl))) [Done (e o)]
  end.

End session.

(** ** Inputs to run them on *)

(** two events as producers push them, and what a flush at offset 0
    makes of them *)
Definition two_pushed : list Event := [wire.produced 1 5; wire.produced 2 6].
Definition two_records : list (list byte) := [wire.record 1 5; wire.record 2 6].
Definition two_stamped : list Event := [wire.stamped 1 5; wire.stamped 2 6].
Definition two_stored : store.BatchBucket :=
  wire.bucket_of [(1, wire.record 1 5); (2, wire.record 2 6)].

(** a cache of an expired batch before a batch that is not (threshold
    100) *)
Definition aged_cache : list batchMsgs.t :=
  [{| batchMsgs.offset := 1; batchMsgs.data := [wire.stamped 1 10] |};
   {| batchMsgs.offset := 2; batchMsgs.data := [wire.stamped 2 150] |}].

(** a session over two fresh queues whose subscriptions all match at
    QoS 1, and a client with an event in flight under packet id 1 *)
Definition demo_session : session.Session :=
  {| session.SID := "s"; session.CleanSession := true;
     session.qos0 := session.of_persistence (wire.fresh 2 1 wire.empty_bucket);
     session.qos1 := session.of_persistence (wire.fresh 2 1 wire.empty_bucket);
     session.subs := fun _ => [1]; session.clis := ∅ |}.

Definition idle_client : session.ClientMQTT :=
  {| session.m := ∅; session.c := []; session.cap := 2;
     session.dying := false; session.trace := [] |}.

Definition in_flight : session.pm :=
  {| session.e := wire.stamped 1 5;
     session.p := {| session.PID := 1; session.Dup := false;
                     session.Of := wire.stamped 1 5 |};
     session.l := 0 |}.

Definition busy_client : session.ClientMQTT :=
  {| session.m := {[ 1 := in_flight ]}; session.c := [in_flight];
     session.cap := 2; session.dying := false; session.trace := [] |}.

(** * The record encoding *)

Example U64ToByte_1 :
  wire.U64ToByte 1 = [x00; x00; x00; x00; x00; x00; x00; x01]
  /\ wire.ByteToU64 [x00; x00; x00; x00; x00; x00; x00; x01] = 1.
Proof. split; reflexivity. Qed.

Example wire_roundtrip :
  proto.Unmarshal (wire.record 3 17) = Ok (wire.message 3 17 "t").
Proof. vm_compute. reflexivity. Qed.

(** * Flushing: [add] and [delete] *)

Section Flush.

Context `{codec : proto.Codec}.

Lemma fired_app (t1 t2 : list obs) : fired (t1 ++ t2) = fired t1 ++ fired t2.
Proof. apply List.filter_app. Qed.

Lemma bucket_calls_app (t1 t2 : list obs) :
  bucket_calls (t1 ++ t2) = bucket_calls t1 ++ bucket_calls t2.
Proof. apply List.filter_app. Qed.

Lemma sent_events_app (t1 t2 : list obs) :
  sent_events (t1 ++ t2) = sent_events t1 ++ sent_events t2.
Proof. apply omap_app. Qed.

Lemma fired_fire_done (buf : list Event) : fired (fire_done buf) = fire_done buf.
Proof. induction buf as [|e buf IH]; simpl; [done | by rewrite IH]. Qed.

Lemma sent_fire_done (buf : list Event) : sent_events (fire_done buf) = [].
Proof. induction buf as [|e buf IH]; simpl; done. Qed.

Lemma encode_length (buf : list Event) : forall begin ds msgs,
  encode begin buf = Ok (ds, msgs) ->
  length ds = length buf /\ length msgs = length buf.
Proof.
  induction buf as [|e buf IH]; simpl; intros begin ds msgs H.
  - by inversion H.
  - destruct (proto.Marshal _) as [data|]; [|done].
    destruct (encode _ buf) as [[ds' msgs']|] eqn:E; [|done].
    inversion H; subst; simpl. destruct (IH _ _ _ E) as [-> ->]. done.
Qed.

(** what [add] does when the batch is persisted *)
Lemma add_stored (fault : option error) (now : Z) (q : Persistence)
    (buf : list Event) ds msgs b :
  buf <> [] ->
  encode (offset q) buf = Ok (ds, msgs) ->
  store.Put fault now (bucket q) (u64 (offset q + 1)) ds = Ok b ->
  add fault now q buf =
    (add_commit
       (emit (with_bucket (emit q [BucketPut (u64 (offset q + 1)) ds]) b)
             (fire_done buf))
       (u64 (offset q + 1)) msgs (length buf), []).
Proof.
  intros Hne He Hp. unfold add, add_store.
  destruct buf as [|e buf]; [done|]. rewrite He. simpl bucket. by rewrite Hp.
Qed.

(** C10: flushing an empty buffer does nothing, in the batcher and in
    the acknowledgement collector alike: when the write timer or the
    delete timer fires on an empty buffer the queue is left exactly as it
    was (no bucket call in its trace, same offset, same cache, same
    bucket) and the goroutine is back at its select with an empty
    buffer. *)
Theorem empty_flush_is_noop (fault : option error) (now : Z) (q : Persistence) :
  add fault now q [] = (q, [])
  /\ delete fault q [] = (q, [])
  /\ writing PickTimer fault now q (WLoop []) = Some (q, WLoop [])
  /\ deleting PickTimer fault now q (DLoop []) = Some (q, DLoop []).
Proof. repeat split; reflexivity. Qed.

Lemma fold_left_max_snoc (l : list Z) : forall x i,
  Forall (fun k => k <= i) (x :: l) -> fold_left Z.max (l ++ [i]) x = i.
Proof.
  induction l as [|y l IH]; simpl; intros x i H.
  - inversion H; subst. lia.
  - inversion H as [|? ? Hx Hl]; subst. inversion Hl as [|? ? Hy Hl']; subst.
    apply IH. constructor; [lia | done].
Qed.

(** acknowledgements that arrive in ascending order end with the largest *)
Lemma last_of_ascending (buf : list Z) (i : Z) :
  Forall (fun k => k <= i) buf -> max_offset (buf ++ [i]) = i.
Proof.
  destruct buf as [|x l]; simpl; [done|]. apply fold_left_max_snoc.
Qed.

(** the largest offset of a buffer is at least each of them *)
Lemma fold_left_max_ge (l : list Z) : forall x,
  x <= fold_left Z.max l x /\ Forall (fun k => k <= fold_left Z.max l x) l.
Proof.
  induction l as [|y l IH]; intros x; simpl; [split; [lia | constructor]|].
  destruct (IH (Z.max x y)) as [H1 H2]. split; [lia|].
  constructor; [lia | done].
Qed.

Lemma max_offset_ge (buf : list Z) : Forall (fun k => k <= max_offset buf) buf.
Proof.
  destruct buf as [|x l]; simpl; [constructor|].
  destruct (fold_left_max_ge l x) as [H1 H2]. by constructor.
Qed.

(** C1, amended: for every non-empty buffer of acknowledged offsets, a
    flush of the collector takes the last offset [i] of the buffer, the
    acknowledgement that arrived last, which is the maximum exactly when
    no acknowledgement before it in the buffer is larger, and makes one
    bucket call, DelBeforeID(i), with the offset itself as argument.
    After a successful call no offset below [i] is left in the bucket
    and every offset above [i] is as it was; a failed call leaves the
    bucket as it was.  The buffer is cleared whether or not the call
    fails; offset and cache are left alone. *)
Theorem delete_calls_DelBeforeID_last (fault : option error)
    (q : Persistence) (buf : list Z) :
  buf <> [] ->
  exists i, last buf = Some i /\
    let q' := (delete fault q buf).1 in
    (delete fault q buf).2 = []
    /\ bucket_calls (trace q') = bucket_calls (trace q) ++ [BucketDelBeforeID i]
    /\ (max_offset buf = i <-> Forall (fun k => k <= i) buf)
    /\ bucket q' = (store.DelBeforeID fault (bucket q) i).1
    /\ (fault = None ->
        forall k, (k < i -> store.rows (bucket q') !! k = None)
                  /\ (i < k -> store.rows (bucket q') !! k
                                = store.rows (bucket q) !! k))
    /\ (fault <> None -> bucket q' = bucket q)
    /\ offset q' = offset q /\ cache q' = cache q.
Proof.
  intros Hne. destruct (last buf) as [i|] eqn:Hl;
    [|by apply last_None in Hl].
  exists i. split; [done|].
  assert (Hmax : max_offset buf = i <-> Forall (fun k => k <= i) buf).
  { split.
    - intros <-. apply max_offset_ge.
    - intros Hall. apply last_Some in Hl as [l' ->].
      apply last_of_ascending. by apply Forall_app in Hall as [Hall _]. }
  unfold delete. rewrite Hl.
  destruct fault as [e|]; simpl.
  - split_and!; try done.
    rewrite !bucket_calls_app. simpl. by rewrite app_nil_r.
  - split_and!; try done.
    + by rewrite bucket_calls_app.
    + intros _ k. rewrite map_lookup_filter. split.
      * intros Hk. destruct (store.rows (bucket q) !! k) as [r|]; simpl;
          [|done]. case_guard; [simpl in *; lia | done].
      * intros Hk. destruct (store.rows (bucket q) !! k) as [r|]; simpl;
          [|done]. case_guard; [done | simpl in *; lia].
Qed.

End Flush.

Lemma delete_calls_DelBeforeID_last_witness :
  [1; 2; 3] <> [] /\
  exists i, last [1; 2; 3] = Some i /\
    bucket_calls (trace (delete None (wire.fresh 10 5 wire.empty_bucket) [1; 2; 3]).1)
    = [BucketDelBeforeID i].
Proof.
  assert (H : [1; 2; 3] <> ([] : list Z)) by discriminate.
  split; [exact H|].
  destruct (delete_calls_DelBeforeID_last None (wire.fresh 10 5 wire.empty_bucket)
              [1; 2; 3] H) as (i & Hl & _ & Hc & _).
  exists i. split; [exact Hl | exact Hc].
Defined.

(** C1 as stated fails when acknowledgements arrive out of order: with 5
    acknowledged before 2, the maximum is 5, yet the one bucket call of
    the flush is DelBeforeID(2), a call neither with the maximum nor with
    its successor, and the offsets 3, 4 and 5, all at or below the
    maximum, stay in the bucket. *)
Lemma delete_out_of_order_keeps_acknowledged :
  let q := wire.fresh 10 5 six_records in
  let buf := [5; 2] in
  let q' := (delete None q buf).1 in
  max_offset buf = 5
  /\ bucket_calls (trace q') = [BucketDelBeforeID 2]
  /\ bucket_calls (trace q') <> [BucketDelBeforeID (max_offset buf)]
  /\ bucket_calls (trace q') <> [BucketDelBeforeID (max_offset buf + 1)]
  /\ store.offsets (bucket q) 3 6 = [3; 4; 5]
  /\ store.offsets (bucket q') 3 6 = [3; 4; 5].
Proof. vm_compute. repeat split; discriminate. Qed.

Section FlushOutcome.

Context `{codec : proto.Codec}.

Lemma add_commit_disabled (q : Persistence) (begin : Z) (msgs : list Event)
    (n : nat) :
  disable q = true -> add_commit q begin msgs n = q.
Proof. intros H. unfold add_commit. by rewrite H. Qed.

(** the path of [add] that the early return on [disable] leaves out *)
Lemma add_commit_enabled (q : Persistence) (begin : Z) (msgs : list Event)
    (n : nat) :
  disable q = false ->
  let q' := add_commit q begin msgs n in
  offset q' = u64 (offset q + Z.of_nat n)
  /\ eget q' = true
  /\ cache q' =
       (if Z.of_nat (length (cache q)) <? MaxBatchCacheSize (cfg q)
        then cache q ++ [{| batchMsgs.offset := begin; batchMsgs.data := msgs |}]
        else cache q)
  /\ bucket q' = bucket q /\ trace q' = trace q.
Proof.
  intros H. unfold add_commit. rewrite H.
  destruct (Z.of_nat (length (cache q)) <? MaxBatchCacheSize (cfg q)); simpl; done.
Qed.

(** C6: when a non-empty buffer is flushed and either the serialization
    of one of its events or the bucket's put fails, the buffer is
    dropped (the flush returns an empty one), no done capability is
    fired, offset, cache and pending pump are as before, the bucket is
    untouched, the failure is the last thing logged, and the writer is
    back at its select with an empty buffer, the queue not dying any
    more than it was. *)
Theorem add_failure_drops_batch (fault : option error) (now : Z)
    (q : Persistence) (buf : list Event) :
  buf <> [] ->
  ((exists e, encode (offset q) buf = Err e)
   \/ (exists ds msgs e,
         encode (offset q) buf = Ok (ds, msgs)
         /\ store.Put fault now (bucket q) (u64 (offset q + 1)) ds = Err e)) ->
  let q' := (add fault now q buf).1 in
  (add fault now q buf).2 = []
  /\ fired (trace q') = fired (trace q)
  /\ sent_events (trace q') = sent_events (trace q)
  /\ offset q' = offset q
  /\ cache q' = cache q
  /\ bucket q' = bucket q
  /\ eget q' = eget q
  /\ dying q' = dying q
  /\ (exists e, last (trace q') =
                Some (LogError "failed to add messages to backend database" e))
  /\ writing PickTimer fault now q (WLoop buf) = Some (q', WLoop []).
Proof.
  intros Hne H. unfold writing, writing_add, add, add_store.
  destruct buf as [|e0 buf]; [done|].
  destruct H as [[e He] | (ds & msgs & e & He & Hp)]; rewrite He.
  - simpl. rewrite fired_app, sent_events_app. simpl. rewrite !app_nil_r.
    repeat split; try done. exists e. by rewrite last_snoc.
  - simpl bucket. rewrite Hp. simpl.
    rewrite !fired_app, !sent_events_app. simpl. rewrite !app_nil_r.
    repeat split; try done. exists e. by rewrite last_snoc.
Qed.

End FlushOutcome.

Lemma add_failure_drops_batch_witness :
  let q := wire.fresh 10 5 wire.empty_bucket in
  let buf := [wire.produced 1 5; wire.produced 2 6] in
  (add (Some (ErrBackend 7)) 0 q buf).2 = []
  /\ fired (trace (add (Some (ErrBackend 7)) 0 q buf).1) = fired (trace q).
Proof.
  intros q buf.
  assert (Hne : buf <> []) by discriminate.
  assert (Hf : (exists e, encode (offset q) buf = Err e)
     \/ (exists ds msgs e,
           encode (offset q) buf = Ok (ds, msgs)
           /\ store.Put (Some (ErrBackend 7)) 0 (bucket q) (u64 (offset q + 1)) ds = Err e)).
  { right. eexists _, _, _. split; vm_compute; reflexivity. }
  destruct (add_failure_drops_batch (Some (ErrBackend 7)) 0 q buf Hne Hf)
    as (H1 & H2 & _).
  split; [exact H1 | exact H2].
Defined.

(** a topic that is not UTF-8 makes the serialization fail: the batch is
    dropped before the bucket is called *)
Example add_marshal_failure :
  let q := wire.fresh 10 5 wire.empty_bucket in
  let bad := NewEvent (wire.message 0 5 (String (ascii_of_nat 255) EmptyString))
                      (ProducerDone 1) in
  add None 0 q [wire.produced 0 4; bad]
  = (emit q [LogError "failed to add messages to backend database" (ErrProto 1)], []).
Proof. vm_compute. reflexivity. Qed.

(** C2 fails on the code when [disable] is set: the flush of two events
    into an empty bucket persists offsets 1 and 2 and fires both done
    capabilities, but returns before [q.offset += 2]; the offset is still
    0.  The next flush is therefore stamped 1 again and its put is
    refused. *)
Lemma add_disabled_offset_not_advanced :
  let q := Disable (wire.fresh 10 5 wire.empty_bucket) in
  let q1 := (add None 0 q [wire.produced 1 5; wire.produced 2 6]).1 in
  let q2 := (add None 0 q1 [wire.produced 3 7]).1 in
  store.offsets (bucket q1) 0 10 = [1; 2]
  /\ fired (trace q1) = [Fired (ProducerDone 1) 0; Fired (ProducerDone 2) 0]
  /\ offset q = 0 /\ offset q1 = 0 /\ offset q1 <> offset q + 2
  /\ store.offsets (bucket q2) 0 10 = [1; 2]
  /\ fired (trace q2) = fired (trace q1)
  /\ last (trace q2) =
       Some (LogError "failed to add messages to backend database" (ErrOffsetExists 1)).
Proof. vm_compute. repeat split; discriminate. Qed.

(** the same flush with [disable] unset advances the offset to 2 *)
Example add_enabled_offset_advanced :
  let q := wire.fresh 10 5 wire.empty_bucket in
  let q1 := (add None 0 q [wire.produced 1 5; wire.produced 2 6]).1 in
  offset q1 = 2 /\ store.offsets (bucket q1) 0 10 = [1; 2]
  /\ List.map batchMsgs.offset (cache q1) = [1].
Proof. vm_compute. repeat split. Qed.

(** * Expiry: [clean] *)

(** when some batch is not expired the sweep stops at the first such one *)
Lemma clean_index_found (threshold : Z) (pre : list batchMsgs.t) :
  forall (v : batchMsgs.t) (post : list batchMsgs.t) (i : nat),
  Forall (expired threshold) pre -> unexpired threshold v ->
  clean_index threshold (pre ++ v :: post) i = Some (i + length pre)%nat.
Proof.
  induction pre as [|u pre IH]; simpl; intros v post i Hpre (e & Hl & Hts).
  - rewrite Hl. replace (threshold <=? EventTS e) with true by lia.
    f_equal. lia.
  - inversion Hpre as [|? ? (e' & Hl' & Hts') Hrest]; subst.
    rewrite Hl'. replace (threshold <=? EventTS e') with false by lia.
    rewrite (IH v post (S i) Hrest); [f_equal; lia|]. by exists e.
Qed.

(** when every batch is expired the loop runs out and the index stays 0 *)
Lemma clean_index_all_expired (threshold : Z) (cache : list batchMsgs.t) :
  forall i : nat,
  Forall (expired threshold) cache -> clean_index threshold cache i = Some 0%nat.
Proof.
  induction cache as [|u cache IH]; simpl; intros i H; [done|].
  inversion H as [|? ? (e & Hl & Hts) Hrest]; subst.
  rewrite Hl. replace (threshold <=? EventTS e) with false by lia. by apply IH.
Qed.

(** with a live batch in the cache the sweep drops exactly the expired
    batches in front of the first live one *)
Lemma clean_lock_found (now : Z) (q : Persistence) (pre : list batchMsgs.t)
    (v : batchMsgs.t) (post : list batchMsgs.t) :
  cache q = pre ++ v :: post ->
  Forall (expired (expire_threshold now q)) pre ->
  unexpired (expire_threshold now q) v ->
  clean_lock now q = Some (with_cache q (v :: post)).
Proof.
  intros Hc Hpre Hv. unfold clean_lock.
  rewrite Hc, (clean_index_found _ pre v post 0%nat Hpre Hv). simpl.
  by rewrite drop_app_length.
Qed.

Lemma clean_lock_all_expired (now : Z) (q : Persistence) :
  Forall (expired (expire_threshold now q)) (cache q) ->
  clean_lock now q = Some (with_cache q (cache q)).
Proof.
  intros H. unfold clean_lock. by rewrite (clean_index_all_expired _ _ _ H).
Qed.

(** C3 fails on the code when every cached batch is expired: with the
    threshold at 100 and one cached batch whose last event is stamped 20,
    the sweep leaves the cache as it is, so that afterwards the cache is
    not empty and its first batch ends before the threshold.  The bucket
    call that follows is the one the claim names. *)
Lemma clean_keeps_fully_expired_cache :
  let batch := {| batchMsgs.offset := 1;
                  batchMsgs.data := [wire.stamped 1 10; wire.stamped 2 20] |} in
  let q := with_cache (wire.fresh 10 5 wire.empty_bucket) [batch] in
  let now := 200 * 1000000000 in
  expire_threshold now q = 100
  /\ exists q', clean None now q = Some q'
       /\ cache q' = [batch]
       /\ (EventTS <$> last (batchMsgs.data batch)) = Some 20
       /\ bucket_calls (trace q') = [BucketDelBeforeTS 100].
Proof. vm_compute. split; [reflexivity|]. eexists. repeat split. Qed.

(** with a live batch behind them the expired ones are dropped *)
Example clean_drops_leading_expired :
  let old := {| batchMsgs.offset := 1; batchMsgs.data := [wire.stamped 1 10] |} in
  let new := {| batchMsgs.offset := 2; batchMsgs.data := [wire.stamped 2 150] |} in
  let q := with_cache (wire.fresh 10 5 wire.empty_bucket) [old; new] in
  cache <$> clean None (200 * 1000000000) q = Some [new].
Proof. vm_compute. reflexivity. Qed.

(** * Reading: [get] and the pump *)

Section Reading.

Context `{codec : proto.Codec}.

(** the callback refuses a record only when it is empty or does not
    decode *)
Lemma get_callback_error (data : list byte) (k : Z)
    (acc : list mqtt.Message * list obs) (e : error) :
  (get_callback data k acc).2 = Some e ->
  (data = [] /\ e = ErrDataNotFound)
  \/ (data <> [] /\ proto.Unmarshal data = Err e).
Proof.
  unfold get_callback. destruct data as [|b data]; simpl.
  - intros [= <-]. by left.
  - destruct (proto.Unmarshal (b :: data)) as [m|e'] eqn:E; simpl; [done|].
    intros [= <-]. by right.
Qed.

Lemma get_callback_accepts (data : list byte) (k : Z)
    (acc : list mqtt.Message * list obs) (m : mqtt.Message) :
  data <> [] -> proto.Unmarshal data = Ok m ->
  get_callback data k acc = ((acc.1 ++ [mqtt.with_ID m k], acc.2), None).
Proof.
  intros Hne Hm. unfold get_callback. destruct data; [done|]. by rewrite Hm.
Qed.

(** a scan that ends without error has stamped every row with its key *)
Lemma iterate_ok_ids (rs : list (Z * list byte)) :
  forall acc acc',
  store.iterate get_callback rs acc = (acc', None) ->
  List.map (fun m => mqtt.ID (mqtt.Ctx m)) acc'.1
  = List.map (fun m => mqtt.ID (mqtt.Ctx m)) acc.1 ++ rs.*1
  /\ acc'.2 = acc.2.
Proof.
  induction rs as [|[k d] rs IH]; simpl; intros acc acc' H.
  - inversion H; subst. by rewrite app_nil_r.
  - destruct (get_callback d k acc) as [acc1 [e|]] eqn:E; [done|].
    destruct (IH _ _ H) as [-> ->].
    unfold get_callback in E. destruct d as [|b d]; [done|].
    destruct (proto.Unmarshal (b :: d)) as [m|]; [|done].
    inversion E; subst; simpl. rewrite List.map_app. simpl.
    by rewrite <- app_assoc.
Qed.

Lemma iterate_accepts (rs : list (Z * list byte)) :
  forall acc,
  Forall (fun kd => kd.2 <> [] /\ is_ok (proto.Unmarshal kd.2) = true) rs ->
  exists ms,
    store.iterate get_callback rs acc = ((acc.1 ++ ms, acc.2), None)
    /\ Forall2 (fun m kd => exists m0, proto.Unmarshal kd.2 = Ok m0
                                       /\ m = mqtt.with_ID m0 kd.1) ms rs.
Proof.
  induction rs as [|[k d] rs IH]; simpl; intros acc H.
  - exists []. rewrite app_nil_r. by destruct acc.
  - inversion H as [|? ? [Hne Hok] Hrest]; subst. simpl in *.
    destruct (proto.Unmarshal d) as [m|] eqn:E; [|done].
    rewrite (get_callback_accepts d k acc m Hne E).
    destruct (IH (acc.1 ++ [mqtt.with_ID m k], acc.2) Hrest) as (ms & -> & HF).
    exists (mqtt.with_ID m k :: ms). simpl. rewrite <- app_assoc. split; [done|].
    constructor; [|done]. by exists m.
Qed.

Lemma get_ok_ids (fault : option error) (q : Persistence) (begin end_ : Z)
    (evs : list Event) :
  (get fault q begin end_).2 = Ok evs ->
  List.map EventID evs = store.offsets (bucket q) begin end_.
Proof.
  unfold get, store.Get. simpl bucket. destruct fault as [e|]; [done|].
  destruct (store.iterate _ _ _) as [[ms logs] [e|]] eqn:E; [done|].
  simpl. intros [= <-]. apply iterate_ok_ids in E as [E _]. simpl in E.
  rewrite List.map_map. exact E.
Qed.

Lemma get_frame (fault : option error) (q : Persistence) (begin end_ : Z) :
  let q' := (get fault q begin end_).1 in
  sent_events (trace q') = sent_events (trace q)
  /\ fired (trace q') = fired (trace q)
  /\ with_trace q' (trace q) = q.
Proof.
  unfold get, store.Get. simpl bucket. destruct fault as [e|]; simpl.
  - rewrite !sent_events_app, !fired_app. simpl. rewrite !app_nil_r.
    by destruct q.
  - assert (Hlogs : forall rs acc,
              sent_events (store.iterate get_callback rs acc).1.2 = sent_events acc.2
              /\ fired (store.iterate get_callback rs acc).1.2 = fired acc.2).
    { induction rs as [|[k d] rs IH]; simpl; intros acc; [done|].
      destruct (get_callback d k acc) as [acc1 [e|]] eqn:E.
      - unfold get_callback in E. destruct d as [|b d].
        + inversion E; subst; simpl.
          rewrite sent_events_app, fired_app. simpl. by rewrite !app_nil_r.
        + destruct (proto.Unmarshal (b :: d)); by inversion E.
      - destruct (IH acc1) as [-> ->].
        unfold get_callback in E. destruct d as [|b d]; [done|].
        destruct (proto.Unmarshal (b :: d)); by inversion E. }
    destruct (Hlogs (store.scan (bucket q) begin end_) ([], [])) as [Hs Hf].
    destruct (store.iterate _ _ _) as [[ms logs] [e|]]; simpl in *;
      rewrite !sent_events_app, !fired_app, Hs, Hf; simpl;
      rewrite !app_nil_r; by destruct q.
Qed.

(** C5, amended: when the reader deserializes persisted records during a
    pump, the offset encoded in a record is not compared with the key it
    is stored under.  If the records of the range are non-empty and
    decode, the read succeeds and logs nothing, and every event carries
    the storage key as its offset, whatever offset its bytes encode;
    the callback refuses a record only when it is empty
    (ErrDataNotFound) or does not decode. *)
Theorem get_stamps_storage_key (q : Persistence) (begin end_ : Z) :
  Forall (fun kd => kd.2 <> [] /\ is_ok (proto.Unmarshal kd.2) = true)
         (store.scan (bucket q) begin end_) ->
  (exists evs,
     get None q begin end_ = (emit q [BucketGet begin end_], Ok evs)
     /\ List.map EventID evs = store.offsets (bucket q) begin end_
     /\ Forall2 (fun ev kd => exists m0, proto.Unmarshal kd.2 = Ok m0
                    /\ ev = NewEvent (mqtt.with_ID m0 kd.1) QueueAcknowledge)
                evs (store.scan (bucket q) begin end_))
  /\ (forall data k acc e,
        (get_callback data k acc).2 = Some e ->
        (data = [] /\ e = ErrDataNotFound)
        \/ (data <> [] /\ proto.Unmarshal data = Err e)).
Proof.
  intros H. split; [|apply get_callback_error].
  destruct (iterate_accepts _ ([], []) H) as (ms & Hit & HF).
  exists (List.map (fun m => NewEvent m QueueAcknowledge) ms).
  assert (Hg : get None q begin end_ =
               (emit q [BucketGet begin end_],
                Ok (List.map (fun m => NewEvent m QueueAcknowledge) ms))).
  { unfold get, store.Get. simpl bucket. rewrite Hit. simpl.
    unfold emit. simpl. by rewrite app_nil_r. }
  split; [exact Hg|]. split.
  - apply (get_ok_ids None q). by rewrite Hg.
  - clear -HF. induction HF as [|m kd ms rs (m0 & Hm & ->) _ IH]; simpl;
      constructor; [by exists m0 | done].
Qed.

(** C9: a pump that went to the bucket and whose read failed, or found
    no live offset in the range, sends nothing, leaves the cursor where
    it was and goes back to wait for the next pump signal without
    posting one itself; offset, cache and bucket are untouched. *)
Theorem failed_or_empty_pump_keeps_cursor (p : pick) (fault : option error)
    (q : Persistence) (begin end_ : Z) :
  ((exists e, (get fault q begin end_).2 = Err e)
   \/ (fault = None /\ store.scan (bucket q) begin end_ = [])) ->
  exists q',
    reading p fault q (RFetch begin end_ []) = Some (q', RWait begin)
    /\ sent_events (trace q') = sent_events (trace q)
    /\ output q' = output q
    /\ eget q' = eget q
    /\ offset q' = offset q /\ cache q' = cache q /\ bucket q' = bucket q.
Proof.
  intros H. unfold reading. simpl length. simpl andb.
  destruct (begin =? end_) eqn:Hbe; simpl negb; cbv iota.
  - exists q. done.
  - pose proof (get_frame fault q begin end_) as (Hs & _ & Hq).
    destruct (get fault q begin end_) as [q1 got] eqn:Hg. simpl in *.
    assert (Hfields : output q1 = output q /\ eget q1 = eget q
                      /\ offset q1 = offset q /\ cache q1 = cache q
                      /\ bucket q1 = bucket q).
    { rewrite <- Hq. done. }
    destruct Hfields as (Ho & He & Hof & Hc & Hb).
    destruct H as [[e He'] | [-> Hscan]].
    + subst got. eexists. split; [reflexivity|]. simpl.
      rewrite sent_events_app. simpl. rewrite app_nil_r. done.
    + assert (got = Ok []) as ->.
      { unfold get, store.Get in Hg. simpl bucket in Hg. rewrite Hscan in Hg.
        simpl in Hg. by inversion Hg. }
      exists q1. done.
Qed.

End Reading.

Lemma get_stamps_storage_key_witness :
  exists evs,
    get None (wire.fresh 10 5 mismatched) 7 8
    = (emit (wire.fresh 10 5 mismatched) [BucketGet 7 8], Ok evs)
    /\ List.map EventID evs = [7].
Proof.
  assert (H : Forall (fun kd => kd.2 <> [] /\ is_ok (proto.Unmarshal kd.2) = true)
                     (store.scan (bucket (wire.fresh 10 5 mismatched)) 7 8)).
  { vm_compute. constructor; [|constructor]. split; [discriminate | reflexivity]. }
  destruct (get_stamps_storage_key (wire.fresh 10 5 mismatched) 7 8 H)
    as [(evs & Hg & Hids & _) _].
  exists evs. split; [exact Hg | exact Hids].
Defined.

(** C5 as stated fails: the record under key 7 encodes offset 3, and the
    pump accepts it, logs nothing and goes on to send it as offset 7. *)
Lemma get_accepts_offset_mismatch :
  let q := wire.fresh 10 5 mismatched in
  ((store.data <$> store.rows (bucket q) !! 7) = Some (wire.record 3 0)
   /\ proto.Unmarshal (wire.record 3 0) = Ok (wire.message 3 0 "t"))
  /\ get None q 7 8 = (emit q [BucketGet 7 8], Ok [wire.stamped 7 0])
  /\ reading PickRecv None q (RFetch 7 8 [])
     = Some (emit q [BucketGet 7 8], RSend 7 [wire.stamped 7 0] 0).
Proof. vm_compute. repeat split. Qed.

Lemma failed_or_empty_pump_keeps_cursor_witness :
  exists q',
    reading PickRecv (Some (ErrBackend 3)) (wire.fresh 10 5 six_records)
            (RFetch 1 7 []) = Some (q', RWait 1)
    /\ sent_events (trace q') = [].
Proof.
  assert (H : (exists e, (get (Some (ErrBackend 3)) (wire.fresh 10 5 six_records) 1 7).2 = Err e)
     \/ (Some (ErrBackend 3) = None
         /\ store.scan (bucket (wire.fresh 10 5 six_records)) 1 7 = [])).
  { left. eexists. vm_compute. reflexivity. }
  destruct (failed_or_empty_pump_keeps_cursor PickRecv (Some (ErrBackend 3))
              (wire.fresh 10 5 six_records) 1 7 H) as (q' & Hr & Hs & _).
  exists q'. split; [exact Hr | exact Hs].
Defined.

(** * Push and Pop *)

Lemma Push_dying_can_fail (q : Persistence) (e : Event) :
  dying q = true -> Push PickDying q e = Some (q, Some ErrQueueClosed).
Proof. intros H. unfold Push. by rewrite H. Qed.

Lemma Pop_dying_can_fail (q : Persistence) :
  dying q = true -> Pop PickDying q = Some (q, None, Some ErrQueueClosed).
Proof. intros H. unfold Pop. by rewrite H. Qed.

Lemma Push_alive_never_fails (p : pick) (q : Persistence) (e : Event) q' err :
  dying q = false -> Push p q e = Some (q', err) -> err = None.
Proof.
  intros H. unfold Push. rewrite H.
  destruct p; try done. destruct (room _ _); [|done]. by intros [= _ <-].
Qed.

(** C7, amended: Push can return nil exactly when the ingress channel
    has room (its select takes the send case and the event is appended
    to the channel), and can return an error exactly when the queue is
    dying (its select takes the dying case, the error is the closed-queue
    error and the queue is left as it is); likewise Pop can return an
    event exactly when the egress channel is not empty (its head) and an
    error exactly when the queue is dying (the closed-queue error).
    Neither returns in any other way, and with neither condition they
    block.  Being dying does not force the error: on a dying queue whose
    channel operation can proceed both outcomes are possible. *)
Theorem Push_Pop_outcomes (q : Persistence) (e : Event) :
  (forall p q' err,
     Push p q e = Some (q', err) <->
     (p = PickSend /\ room (input q) (BatchSize (cfg q)) = true
      /\ q' = with_input q (input q ++ [e]) /\ err = None)
     \/ (p = PickDying /\ dying q = true /\ q' = q
         /\ err = Some ErrQueueClosed))
  /\ (forall p q' got err,
     Pop p q = Some (q', got, err) <->
     (p = PickRecv /\ err = None
      /\ exists e' rest, output q = e' :: rest /\ got = Some e'
                         /\ q' = with_output q rest)
     \/ (p = PickDying /\ dying q = true /\ q' = q /\ got = None
         /\ err = Some ErrQueueClosed))
  /\ ((exists p q', Push p q e = Some (q', None))
      <-> room (input q) (BatchSize (cfg q)) = true)
  /\ ((exists p q' err, Push p q e = Some (q', Some err)) <-> dying q = true)
  /\ ((exists p q' got, Pop p q = Some (q', got, None)) <-> output q <> [])
  /\ ((exists p q' got err, Pop p q = Some (q', got, Some err))
      <-> dying q = true)
  /\ (dying q = true -> room (input q) (BatchSize (cfg q)) = true ->
      Push PickSend q e = Some (with_input q (input q ++ [e]), None)
      /\ Push PickDying q e = Some (q, Some ErrQueueClosed))
  /\ (dying q = true -> forall e' rest, output q = e' :: rest ->
      Pop PickRecv q = Some (with_output q rest, Some e', None)
      /\ Pop PickDying q = Some (q, None, Some ErrQueueClosed)).
Proof.
  assert (HP : forall p q' err,
     Push p q e = Some (q', err) <->
     (p = PickSend /\ room (input q) (BatchSize (cfg q)) = true
      /\ q' = with_input q (input q ++ [e]) /\ err = None)
     \/ (p = PickDying /\ dying q = true /\ q' = q
         /\ err = Some ErrQueueClosed)).
  { intros p q' err. unfold Push. split.
    - destruct p; try done.
      + destruct (room _ _) eqn:Hr; [|done]. intros [= <- <-]. by left.
      + destruct (dying q) eqn:Hd; [|done]. intros [= <- <-]. by right.
    - intros [(-> & Hr & -> & ->) | (-> & Hd & -> & ->)].
      + by rewrite Hr.
      + by rewrite Hd. }
  assert (HO : forall p q' got err,
     Pop p q = Some (q', got, err) <->
     (p = PickRecv /\ err = None
      /\ exists e' rest, output q = e' :: rest /\ got = Some e'
                         /\ q' = with_output q rest)
     \/ (p = PickDying /\ dying q = true /\ q' = q /\ got = None
         /\ err = Some ErrQueueClosed)).
  { intros p q' got err. unfold Pop. split.
    - destruct p; try done.
      + destruct (output q) as [|e' rest] eqn:Ho; [done|].
        intros [= <- <- <-]. left. split_and!; try done. by exists e', rest.
      + destruct (dying q) eqn:Hd; [|done]. intros [= <- <- <-]. by right.
    - intros [(-> & -> & e' & rest & Ho & -> & ->) | (-> & Hd & -> & -> & ->)].
      + by rewrite Ho.
      + by rewrite Hd. }
  split; [exact HP|]. split; [exact HO|]. split_and!.
  - split.
    + intros (p & q' & H). apply HP in H as [(_ & Hr & _) | (_ & _ & _ & ?)]; done.
    + intros Hr. exists PickSend, (with_input q (input q ++ [e])).
      apply HP. by left.
  - split.
    + intros (p & q' & err & H).
      apply HP in H as [(_ & _ & _ & ?) | (_ & Hd & _)]; done.
    + intros Hd. exists PickDying, q, ErrQueueClosed. apply HP. by right.
  - split.
    + intros (p & q' & got & H).
      apply HO in H as [(_ & _ & e' & rest & Ho & _) | (_ & _ & _ & _ & ?)];
        [by rewrite Ho | done].
    + intros Hne. destruct (output q) as [|e' rest] eqn:Ho; [done|].
      exists PickRecv, (with_output q rest), (Some e'). apply HO. left.
      split_and!; try done. by exists e', rest.
  - split.
    + intros (p & q' & got & err & H).
      apply HO in H as [(_ & ? & _) | (_ & Hd & _)]; done.
    + intros Hd. exists PickDying, q, None, ErrQueueClosed. apply HO. by right.
  - intros Hd Hr. split; apply HP; [by left | by right].
  - intros Hd e' rest Ho. split; apply HO; [|by right].
    left. split_and!; try done. by exists e', rest.
Qed.

Lemma Push_Pop_outcomes_witness :
  let q := Kill (with_output (wire.fresh 10 5 wire.empty_bucket) [wire.stamped 1 0]) in
  let e := wire.produced 1 5 in
  (Push PickSend q e = Some (with_input q (input q ++ [e]), None)
   /\ Push PickDying q e = Some (q, Some ErrQueueClosed))
  /\ (Pop PickRecv q = Some (with_output q [], Some (wire.stamped 1 0), None)
      /\ Pop PickDying q = Some (q, None, Some ErrQueueClosed)).
Proof.
  intros q e.
  destruct (Push_Pop_outcomes q e) as (_ & _ & _ & _ & _ & _ & H1 & H2).
  split.
  - apply H1; reflexivity.
  - apply (H2 eq_refl (wire.stamped 1 0) []). reflexivity.
Defined.

(** C7 as stated fails on a closing queue: Close has killed the queue,
    the ingress channel has room and the egress channel holds an event;
    the select of Push may take the send and return nil, and the select
    of Pop may take the receive and return the event. *)
Lemma closing_queue_accepts_Push_and_Pop :
  let q := Kill (with_output (wire.fresh 10 5 wire.empty_bucket) [wire.stamped 1 0]) in
  let e := wire.produced 1 5 in
  dying q = true
  /\ Push PickSend q e = Some (with_input q [e], None)
  /\ Pop PickRecv q = Some (with_output q [], Some (wire.stamped 1 0), None).
Proof. vm_compute. repeat split. Qed.

(** * The queue over its lifetime *)

Section Lifetime.

Context `{codec : proto.Codec}.

Lemma u64_small (x : Z) : 0 <= x < 2 ^ 64 -> u64 x = x.
Proof. intros H. unfold u64. by apply Z.mod_small. Qed.

Lemma u64_range (x : Z) : 0 <= u64 x < 2 ^ 64.
Proof. unfold u64. apply Z.mod_pos_bound. lia. Qed.

Lemma sorted_snoc (l : list Z) (x : Z) :
  StronglySorted Z.lt l -> Forall (fun k => k < x) l ->
  StronglySorted Z.lt (l ++ [x]).
Proof.
  intros Hs Hf. apply StronglySorted_app_2; [|done|repeat constructor].
  intros x1 x2 H1 H2. apply list_elem_of_singleton in H2 as ->.
  by apply (proj1 (Forall_forall _ _) Hf).
Qed.

Lemma seqZ_sorted (n : nat) : forall m, StronglySorted Z.lt (seqZ m (Z.of_nat n)).
Proof.
  induction n as [|n IH]; intros m.
  - rewrite seqZ_nil by lia. constructor.
  - rewrite seqZ_S. apply sorted_snoc; [apply IH|].
    apply Forall_forall. intros k Hk. apply elem_of_seqZ in Hk. lia.
Qed.

Lemma sorted_before (l : list Z) : forall (i : nat) (x : Z),
  StronglySorted Z.lt l -> l !! i = Some x -> Forall (fun k => k < x) (take i l).
Proof.
  induction l as [|y l IH]; intros i x Hs Hl; [done|].
  apply StronglySorted_cons in Hs as [Hy Hs].
  destruct i as [|i]; simpl in *; [constructor|].
  constructor.
  - apply (proj1 (Forall_forall _ _) Hy). by eapply list_elem_of_lookup_2.
  - by apply IH.
Qed.

Lemma sorted_last_max (l : list Z) (x : Z) :
  StronglySorted Z.lt l -> last l = Some x -> Forall (fun k => k <= x) l.
Proof.
  intros Hs Hl. apply last_Some in Hl as [l' ->].
  apply StronglySorted_app in Hs as (H & _ & _).
  apply Forall_app. split; [|repeat constructor; lia].
  apply Forall_forall. intros k Hk.
  assert (k < x); [|lia]. apply H; [done|]. apply list_elem_of_singleton. done.
Qed.

(** what a scan returns: live offsets of the range, ascending *)
Lemma scan_keys (b : store.BatchBucket) (begin end_ : Z) :
  StronglySorted Z.lt (store.offsets b begin end_)
  /\ Forall (fun k => begin <= k < end_) (store.offsets b begin end_).
Proof.
  unfold store.offsets, store.scan.
  set (f := fun k : Z => (fun r => (k, store.data r)) <$> store.rows b !! k).
  assert (H : forall l, StronglySorted Z.lt l ->
              StronglySorted Z.lt (omap f l).*1
              /\ forall k, k ∈ (omap f l).*1 -> k ∈ l).
  { induction l as [|x l IH]; intros Hs; simpl.
    - split; [constructor | done].
    - apply StronglySorted_cons in Hs as [Hx Hs].
      destruct (IH Hs) as [IH1 IH2].
      destruct (f x) as [[k0 d0]|] eqn:Hf; simpl.
      + assert (k0 = x) as ->.
        { unfold f in Hf. destruct (store.rows b !! x); by inversion Hf. }
        split.
        * constructor; [done|]. apply Forall_forall. intros k Hk.
          apply (proj1 (Forall_forall _ _) Hx). by apply IH2.
        * intros k Hk. apply elem_of_cons in Hk as [->|Hk];
            [left | right; by apply IH2].
      + split; [done|]. intros k Hk. right. by apply IH2. }
  destruct (H (seqZ begin (end_ - begin))) as [H1 H2].
  { destruct (decide (0 <= end_ - begin)) as [Hle|Hgt].
    - rewrite <- (Z2Nat.id (end_ - begin)) by done. apply seqZ_sorted.
    - rewrite seqZ_nil by lia. constructor. }
  split; [done|]. apply Forall_forall. intros k Hk.
  apply H2, elem_of_seqZ in Hk. lia.
Qed.

(** offsets stamped by [encode] *)
Lemma encode_ids (buf : list Event) : forall begin ds msgs,
  0 <= begin -> begin + Z.of_nat (length buf) < 2 ^ 64 ->
  encode begin buf = Ok (ds, msgs) ->
  List.map EventID msgs = seqZ (begin + 1) (Z.of_nat (length buf)).
Proof.
  induction buf as [|e buf IH]; simpl length; intros begin ds msgs H0 Hb He.
  - simpl in He. by inversion He.
  - simpl in He. rewrite (u64_small (begin + 1)) in He by lia.
    destruct (proto.Marshal _) as [data|]; [|done].
    destruct (encode (begin + 1) buf) as [[ds' msgs']|] eqn:E; [|done].
    inversion He; subst. simpl.
    rewrite (IH (begin + 1) ds' msgs' ltac:(lia) ltac:(lia) E).
    rewrite (seqZ_cons (begin + 1)) by lia. unfold EventID at 1. simpl.
    do 2 f_equal; lia.
Qed.

Lemma wf_batch_slice (b : batchMsgs.t) :
  wf_batch b -> slice_ok (batchMsgs.offset b) (batchMsgs.data b).
Proof.
  intros (Hne & Hids & H0 & Hb). repeat split; [done| |].
  - rewrite Hids. apply seqZ_sorted.
  - rewrite Hids. apply Forall_forall. intros k Hk.
    apply elem_of_seqZ in Hk. lia.
Qed.

Lemma put_rows_lookup (now : Z) (records : list (list byte)) :
  forall begin (m : gmap Z store.Row) k,
  is_Some (store.put_rows now begin records m !! k) ->
  begin <= k \/ is_Some (m !! k).
Proof.
  induction records as [|d rest IH]; simpl; intros begin m k H; [by right|].
  apply IH in H as [H|H]; [left; lia|].
  destruct (decide (begin = k)) as [->|Hne]; [left; lia|].
  rewrite lookup_insert_ne in H by done. by right.
Qed.

Lemma Put_valid (fault : option error) (now : Z) (b b' : store.BatchBucket)
    (begin : Z) (records : list (list byte)) :
  0 <= begin -> store.valid b ->
  store.Put fault now b begin records = Ok b' -> store.valid b'.
Proof.
  intros H0 Hv. unfold store.Put. destruct fault; [done|].
  destruct (List.find _ _); [done|]. intros [= <-] k Hk. simpl in Hk.
  apply put_rows_lookup in Hk as [Hk|Hk]; [lia | by apply Hv].
Qed.

Lemma filter_valid (P : Z * store.Row -> Prop) `{!forall x, Decision (P x)}
    (b : store.BatchBucket) :
  store.valid b -> store.valid {| store.rows := filter P (store.rows b) |}.
Proof.
  intros Hv k [r Hk]. simpl in Hk.
  apply map_lookup_filter_Some in Hk as [Hk _]. apply Hv. by exists r.
Qed.

Lemma MaxOffset_nonneg (b : store.BatchBucket) (off : Z) :
  store.MaxOffset None b = Ok off -> 0 <= off.
Proof.
  unfold store.MaxOffset. intros [= <-].
  apply (map_fold_weak_ind (fun r (_ : gmap Z store.Row) => 0 <= r)); [done|].
  intros; lia.
Qed.

Lemma MinOffset_nonneg (fault : option error) (b : store.BatchBucket) (m : Z) :
  store.valid b -> store.MinOffset fault b = Ok m -> 0 <= m.
Proof.
  unfold store.MinOffset. intros Hv. destruct fault; [done|]. intros [= <-].
  assert (H : forall o, (map_fold (fun (k : Z) (_ : store.Row) (acc : option Z) =>
                Some (match acc with Some m => Z.min k m | None => k end))
                None (store.rows b)) = Some o -> 0 <= o).
  { revert Hv. unfold store.valid. generalize (store.rows b). intros m0 Hv.
    revert Hv.
    apply (map_fold_weak_ind
             (fun (r : option Z) (m1 : gmap Z store.Row) =>
                (forall k, is_Some (m1 !! k) -> 0 <= k) -> forall o, r = Some o -> 0 <= o)).
    - done.
    - intros i x m1 r Hi IH Hv o [= <-].
      assert (0 <= i) by (apply Hv; rewrite lookup_insert_eq; by eexists).
      destruct r as [m2|]; [|done].
      assert (0 <= m2); [|lia]. apply IH; [|done].
      intros k Hk. apply Hv. destruct (decide (i = k)) as [->|Hne].
      + rewrite lookup_insert_eq. by eexists.
      + by rewrite lookup_insert_ne. }
  destruct (map_fold _ _ _) as [o|]; simpl; [by apply H | done].
Qed.

(** ** Changes the invariant does not see *)

Lemma quiet_refl (q : Persistence) : quiet q q.
Proof. by repeat split. Qed.

Lemma quiet_trans (q1 q2 q3 : Persistence) :
  quiet q1 q2 -> quiet q2 q3 -> quiet q1 q3.
Proof.
  intros (A1 & A2 & A3 & A4 & A5 & A6 & A7) (B1 & B2 & B3 & B4 & B5 & B6 & B7).
  repeat split; try congruence. auto.
Qed.

Lemma quiet_emit (q : Persistence) (o : list obs) :
  sent_events o = [] -> quiet q (emit q o).
Proof.
  intros H. repeat split; simpl; try done.
  by rewrite sent_events_app, H, app_nil_r.
Qed.

Lemma quiet_bucket (q : Persistence) (b : store.BatchBucket) :
  (store.valid (bucket q) -> store.valid b) -> quiet q (with_bucket q b).
Proof. intros H. by repeat split. Qed.

Lemma inv_quiet (rem : nat) (q q' : Persistence) (w : writer) (r : reader) :
  quiet q q' -> inv rem q w r -> inv rem q' w r.
Proof.
  intros (A1 & A2 & A3 & A4 & _ & _ & A5) (B1 & B2 & B3 & B4 & B5 & B6 & B7).
  unfold inv, sent_ids in *. rewrite A1, A2, A3, A4. auto 10.
Qed.

Lemma inv_writer_idle (rem : nat) (q : Persistence) (w w' : writer) (r : reader) :
  (pending w' <= pending w)%nat -> writer_inv w' ->
  inv rem q w r -> inv rem q w' r.
Proof.
  intros Hp Hw (B1 & B2 & B3 & B4 & B5 & B6 & B7).
  repeat split; try done; lia.
Qed.

Lemma add_store_quiet (fault : option error) (now : Z) (q : Persistence)
    (buf : list Event) :
  match add_store fault now q buf with
  | Stored q' _ _ _ | Dropped q' => quiet q q'
  end.
Proof.
  unfold add_store. destruct buf as [|e0 buf]; [apply quiet_refl|].
  destruct (encode _ _) as [[ds msgs]|err]; [|by apply quiet_emit].
  simpl bucket.
  destruct (store.Put _ _ _ _ _) as [b|err] eqn:Hp.
  - apply (quiet_trans _ (emit q [BucketPut (u64 (offset q + 1)) ds]));
      [by apply quiet_emit|].
    apply (quiet_trans _ (with_bucket (emit q [BucketPut (u64 (offset q + 1)) ds]) b));
      [|apply quiet_emit, sent_fire_done].
    apply quiet_bucket. simpl. intros Hv.
    eapply Put_valid; [|exact Hv|exact Hp]. apply u64_range.
  - apply (quiet_trans _ (emit q [BucketPut (u64 (offset q + 1)) ds]));
      by apply quiet_emit.
Qed.

Lemma get_quiet (fault : option error) (q : Persistence) (begin end_ : Z) :
  quiet q (get fault q begin end_).1.
Proof.
  destruct (get_frame fault q begin end_) as (Hs & _ & Hq).
  set (q1 := (get fault q begin end_).1) in *.
  assert (Hf : offset q1 = offset q /\ input q1 = input q /\ cache q1 = cache q
               /\ cfg q1 = cfg q /\ disable q1 = disable q /\ bucket q1 = bucket q)
    by (rewrite <- Hq; done).
  destruct Hf as (F1 & F2 & F3 & F4 & F5 & F6).
  repeat split; try done. by rewrite F6.
Qed.

Lemma delete_quiet (fault : option error) (q : Persistence) (buf : list Z) :
  quiet q (delete fault q buf).1.
Proof.
  unfold delete. destruct (last buf) as [i|]; [|apply quiet_refl].
  destruct fault as [e|]; simpl.
  - repeat split; simpl; try done.
    rewrite !sent_events_app. simpl. by rewrite !app_nil_r.
  - repeat split; simpl; try done.
    + rewrite !sent_events_app. simpl. by rewrite !app_nil_r.
    + apply filter_valid.
Qed.

Lemma clean_store_quiet (fault : option error) (now : Z) (q : Persistence) :
  quiet q (clean_store fault now q).
Proof.
  unfold clean_store. destruct fault as [e|]; simpl.
  - repeat split; simpl; try done.
    rewrite !sent_events_app. simpl. by rewrite !app_nil_r.
  - repeat split; simpl; try done.
    + rewrite !sent_events_app. simpl. by rewrite !app_nil_r.
    + apply filter_valid.
Qed.

(** ** The writer keeps the invariant *)

Lemma writing_add_inv (rem : nat) (fault : option error) (now : Z)
    (q : Persistence) (buf : list Event) (closing : bool) (r : reader) :
  inv rem q (WLoop buf) r ->
  inv rem (writing_add fault now q buf closing).1
          (writing_add fault now q buf closing).2 r.
Proof.
  intros Hinv. unfold writing_add.
  pose proof (add_store_quiet fault now q buf) as Hq.
  destruct (add_store fault now q buf) as [q' begin msgs n|q'] eqn:Ha; simpl.
  - apply (inv_quiet _ _ _ _ _ Hq) in Hinv as Hinv'.
    destruct Hinv as (B1 & B2 & _). simpl in B2.
    unfold add_store in Ha. destruct buf as [|e0 buf]; [done|].
    destruct (encode _ _) as [[ds ms]|err] eqn:He; [|done].
    simpl bucket in Ha. destruct (store.Put _ _ _ _ _) as [b|err]; [|done].
    inversion Ha; subst. clear Ha.
    destruct (encode_length _ _ _ _ He) as [_ Hlen].
    destruct Hinv' as (C1 & C2 & C3 & _ & C5 & C6 & C7).
    assert (Hb : offset q + Z.of_nat (length (e0 :: buf)) < 2 ^ 64 - 1)
      by (simpl length in *; lia).
    repeat split; try done; cbn [batchMsgs.data batchMsgs.offset].
    + intros ->. done.
    + rewrite Hlen, (u64_small (offset q + 1)) by lia.
      apply (encode_ids (e0 :: buf) (offset q) ds msgs B1); [lia | exact He].
    + apply u64_range.
    + rewrite Hlen, u64_small by lia. lia.
  - apply (inv_quiet _ _ _ _ _ Hq) in Hinv.
    eapply inv_writer_idle; [| |exact Hinv]; destruct closing; simpl; try done; lia.
Qed.

Lemma add_commit_inv (rem : nat) (q : Persistence) (begin : Z)
    (msgs : list Event) (n : nat) (closing : bool) (w' : writer) (r : reader) :
  pending w' = 0%nat -> writer_inv w' ->
  inv rem q (WCommit begin msgs n closing) r ->
  inv rem (add_commit q begin msgs n) w' r.
Proof.
  intros Hp Hw Hinv. unfold add_commit. destruct (disable q).
  - eapply inv_writer_idle; [| |exact Hinv]; [lia | done].
  - destruct Hinv as (B1 & B2 & B3 & B4 & B5 & B6 & B7). simpl in B2, B4.
    assert (Hoff : forall c, offset (if Z.of_nat (length (cache q)) <? MaxBatchCacheSize (cfg q)
                     then with_cache q c else q) = offset q)
      by (intros c; by destruct (_ <? _)).
    repeat split; simpl; rewrite ?Hoff, ?Hp.
    + apply u64_range.
    + rewrite u64_small by lia.
      destruct (_ <? _); simpl; lia.
    + destruct (_ <? _); simpl; [|done].
      apply Forall_app. split; [done|]. by constructor.
    + done.
    + by destruct (_ <? _).
    + by destruct (_ <? _).
    + by destruct (_ <? _).
Qed.

Lemma writing_inv (rem : nat) (p : pick) (fault : option error) (now : Z)
    (q q' : Persistence) (w w' : writer) (r : reader) :
  inv rem q w r -> writing p fault now q w = Some (q', w') -> inv rem q' w' r.
Proof.
  intros Hinv. unfold writing. destruct w as [buf|begin msgs n closing|].
  - assert (Hadd : forall closing,
              Some (writing_add fault now q buf closing) = Some (q', w') ->
              inv rem q' w' r).
    { intros closing [= H].
      pose proof (writing_add_inv rem fault now q buf closing r Hinv) as H'.
      by rewrite H in H'. }
    destruct p; try done.
    + destruct (input q) as [|e rest] eqn:Hin; [done|].
      assert (Hinv1 : inv rem (with_input q rest) (WLoop (buf ++ [e])) r).
      { destruct Hinv as (B1 & B2 & B3 & B4 & B5 & B6 & B7).
        repeat split; try done. simpl in *. rewrite Hin in B2.
        rewrite length_app. simpl in *. lia. }
      simpl cfg. destruct (_ =? _).
      * intros [= H].
        pose proof (writing_add_inv rem fault now _ _ false r Hinv1) as H'.
        by rewrite H in H'.
      * by intros [= <- <-].
    + apply Hadd.
    + destruct (dying q); [apply Hadd | done].
  - intros [= <- <-]. eapply add_commit_inv; [| |exact Hinv];
      by destruct closing.
  - done.
Qed.

(** ** The reader keeps the invariant *)

Lemma sent_ids_snoc (t : list obs) (e : Event) :
  sent_ids (t ++ [Sent e]) = sent_ids t ++ [EventID e].
Proof. unfold sent_ids. rewrite sent_events_app. simpl. by rewrite fmap_app. Qed.

Lemma reading_lock_spec (q : Persistence) (begin : Z) :
  let q' := (reading_lock q begin).1.1 in
  let end_ := (reading_lock q begin).1.2 in
  let buf := (reading_lock q begin).2 in
  offset q' = offset q /\ input q' = input q /\ trace q' = trace q
  /\ bucket q' = bucket q /\ cfg q' = cfg q /\ disable q' = disable q
  /\ cache q' `suffix_of` cache q
  /\ (Forall wf_batch (cache q) ->
      0 <= end_ < 2 ^ 64 /\ (buf = [] \/ slice_ok begin buf)).
Proof.
  unfold reading_lock.
  pose proof (u64_range (begin + u64 (BatchSize (cfg q)))) as Ht.
  pose proof (u64_range (offset q + 1)) as Ho.
  destruct (cache q) as [|c rest] eqn:Hc.
  - simpl. rewrite Hc. split_and!; try done.
    intros _. split; [|by left]. destruct (_ <? _); lia.
  - destruct (begin =? batchMsgs.offset c) eqn:Hb; simpl.
    + apply Z.eqb_eq in Hb as ->. split_and!; try done.
      * by apply suffix_cons_r.
      * intros H. inversion H as [|? ? Hwf _]; subst. split.
        -- destruct Hwf as (_ & _ & H0 & Hlt).
           destruct (_ =? 0); destruct (_ <? _); lia.
        -- right. by apply wf_batch_slice.
    + rewrite Hc. split_and!; try done.
      intros H. inversion H as [|? ? (_ & _ & H0 & Hlt) _]; subst.
      split; [|by left]. destruct (_ =? 0); destruct (_ <? _); lia.
Qed.

Lemma reading_inv (rem : nat) (p : pick) (fault : option error)
    (q q' : Persistence) (w : writer) (r r' : reader) :
  inv rem q w r -> reading p fault q r = Some (q', r') -> inv rem q' w r'.
Proof.
  intros Hinv. unfold reading.
  destruct r as [|begin|begin end_ buf|begin buf i|err].
  - (* the first cursor *)
    simpl bucket.
    assert (Hq : quiet q (emit q [BucketMinOffset])) by by apply quiet_emit.
    apply (inv_quiet _ _ _ _ _ Hq) in Hinv.
    destruct Hinv as (B1 & B2 & B3 & B4 & B5 & B6 & B7).
    destruct (store.MinOffset fault (bucket q)) as [m|err] eqn:Hm; intros [= <- <-];
      inv_split.
    red in B7. red. rewrite B7.
    pose proof (MinOffset_nonneg _ _ _ B5 Hm).
    split_and!; [destruct (m =? 0); lia | done | by left].
  - (* a pump signal: the critical section *)
    destruct p; try done.
    + destruct (eget q); [|done].
      pose proof (reading_lock_spec (with_eget q false) begin) as Hl.
      destruct (reading_lock (with_eget q false) begin) as [[q1 e1] b1].
      intros [= <- <-]. simpl in Hl.
      destruct Hl as (L1 & L2 & L3 & L4 & L5 & L6 & [k L7] & L8).
      destruct Hinv as (B1 & B2 & B3 & B4 & B5 & B6 & B7).
      destruct (L8 B3) as [L9 L10].
      unfold inv. rewrite L1, L2, L3, L4. split_and!; try done.
      rewrite L7 in B3. by apply Forall_app in B3 as [_ B3].
    + destruct (dying q); [|done]. intros [= <- <-].
      destruct Hinv as (B1 & B2 & B3 & B4 & B5 & B6 & B7). by inv_split.
  - (* the read and the choice of what to send *)
    destruct buf as [|e0 buf]; simpl length; simpl andb; cbv iota.
    + destruct (begin =? end_) eqn:Hbe; simpl negb; cbv iota.
      * intros [= <- <-]. destruct Hinv as (B1 & B2 & B3 & B4 & B5 & B6 & B7 & _).
        by inv_split.
      * pose proof (get_quiet fault q begin end_) as Hq.
        pose proof (get_ok_ids fault q begin end_) as Hids.
        destruct (get fault q begin end_) as [q1 got]. simpl in Hq, Hids.
        apply (inv_quiet _ _ _ _ _ Hq) in Hinv.
        destruct Hinv as (B1 & B2 & B3 & B4 & B5 & B6 & B7 & B8 & B9).
        destruct got as [[|e1 evs]|err]; intros [= <- <-].
        -- by inv_split.
        -- specialize (Hids _ eq_refl).
           destruct (scan_keys (bucket q) begin end_) as [S1 S2].
           rewrite <- Hids in S1, S2.
           inv_split. red. unfold slice_ok. split_and!; try done.
           ++ by destruct B7.
           ++ eapply Forall_impl; [exact S2|]. simpl. intros; lia.
           ++ exists (sent_ids (trace q1)). rewrite take_0, app_nil_r.
              split; [done | by destruct B7 as (_ & ? & _)].
        -- assert (Hq' : quiet q1 (emit q1
                    [LogError "failed to get message from backend database" err]))
             by by apply quiet_emit.
           apply (inv_quiet _ _ _ _ _ Hq'). by inv_split.
    + intros [= <- <-].
      destruct Hinv as (B1 & B2 & B3 & B4 & B5 & B6 & B7 & B8 & [B9|B9]); [done|].
      inv_split. red. split_and!; try done; [by destruct B7|].
      exists (sent_ids (trace q)). rewrite take_0, app_nil_r.
      split; [done | by destruct B7 as (_ & ? & _)].
  - (* sending the slice *)
    destruct Hinv as (B1 & B2 & B3 & B4 & B5 & B6 & B7 & (Hne & Hs & Hr) & h & Hh & Hlt).
    destruct (buf !! i) as [e|] eqn:Hi.
    + assert (Hi' : (EventID <$> buf) !! i = Some (EventID e))
        by by rewrite list_lookup_fmap, Hi.
      assert (Hbe : begin <= EventID e < 2 ^ 64 - 1).
      { apply (proj1 (Forall_forall _ _) Hr). by eapply list_elem_of_lookup_2. }
      destruct p; try done.
      * simpl cfg. destruct (room _ _); [|done]. intros [= <- <-].
        unfold inv. simpl offset. simpl input. simpl cache. simpl bucket.
        simpl trace. rewrite sent_ids_snoc.
        split_and!; try done.
        -- apply sorted_snoc; [done|]. rewrite Hh. apply Forall_app. split.
           ++ eapply Forall_impl; [exact Hlt|]. simpl. intros; lia.
           ++ by apply sorted_before.
        -- red. split_and!; try done. exists h. split; [|done].
           rewrite (take_S_r _ _ _ Hi'), Hh. by rewrite app_assoc.
      * destruct (dying q); [|done]. intros [= <- <-]. by inv_split.
    + destruct (last buf) as [e|] eqn:Hl; [|done]. intros [= <- <-].
      assert (Hl' : last (EventID <$> buf) = Some (EventID e))
        by by rewrite fmap_last, Hl.
      assert (Hbe : begin <= EventID e < 2 ^ 64 - 1).
      { apply (proj1 (Forall_forall _ _) Hr). by apply last_Some_elem_of. }
      apply lookup_ge_None in Hi.
      rewrite take_ge in Hh by (by rewrite length_fmap).
      inv_split. red. simpl trace. rewrite (u64_small (EventID e + 1)) by lia.
      split_and!; [lia | | ].
      * rewrite Hh. apply Forall_app. split.
        -- eapply Forall_impl; [exact Hlt|]. simpl. intros; lia.
        -- eapply Forall_impl; [exact (sorted_last_max _ _ Hs Hl')|].
           simpl. intros; lia.
      * right. rewrite Hh.
        destruct (proj1 (last_Some _ _) Hl') as [l' Hl2].
        rewrite Hl2, app_assoc, last_snoc. f_equal. lia.
  - done.
Qed.
(** ** The deleter keeps the invariant *)

Lemma clean_lock_drop (now : Z) (q q' : Persistence) :
  clean_lock now q = Some q' ->
  exists index : nat, q' = with_cache q (drop index (cache q)).
Proof.
  unfold clean_lock. destruct (clean_index _ _ _) as [index|]; [|done].
  intros [= <-]. by exists index.
Qed.

Lemma deleting_quiet_or_drop (p : pick) (fault : option error) (now : Z)
    (q q' : Persistence) (d d' : deleter) :
  deleting p fault now q d = Some (q', d') ->
  quiet q q' \/ exists (index : nat) q1, quiet q q1
                  /\ q' = with_cache q1 (drop index (cache q1)).
Proof.
  unfold deleting. destruct d as [buf|buf|]; [| |done].
  - destruct p; try done.
    + destruct (edel q) as [|e rest]; [done|]. simpl cfg.
      assert (Hq : quiet q (with_edel q rest)) by by repeat split.
      destruct (_ =? _).
      * pose proof (delete_quiet fault (with_edel q rest) (buf ++ [e])) as Hd.
        destruct (delete _ _ _) as [q1 b1]. intros [= <- <-]. left.
        by eapply quiet_trans.
      * intros [= <- <-]. by left.
    + pose proof (delete_quiet fault q buf) as Hd.
      destruct (delete _ _ _) as [q1 b1]. intros [= <- <-]. by left.
    + destruct (clean_lock now q) as [q1|] eqn:Hc; [|done]. intros [= <- <-].
      apply clean_lock_drop in Hc as [index ->]. right.
      exists index, q. split; [apply quiet_refl | done].
    + destruct (dying q); [|done].
      pose proof (delete_quiet fault q buf) as Hd.
      destruct (delete _ _ _) as [q1 b1]. intros [= <- <-]. by left.
  - intros [= <- <-]. left. apply clean_store_quiet.
Qed.

Lemma inv_drop (rem : nat) (q : Persistence) (w : writer) (r : reader) (n : nat) :
  inv rem q w r -> inv rem (with_cache q (drop n (cache q))) w r.
Proof.
  intros (B1 & B2 & B3 & B4 & B5 & B6 & B7). inv_split. by apply Forall_drop.
Qed.

Lemma deleting_inv (rem : nat) (p : pick) (fault : option error) (now : Z)
    (q q' : Persistence) (w : writer) (r : reader) (d d' : deleter) :
  inv rem q w r -> deleting p fault now q d = Some (q', d') -> inv rem q' w r.
Proof.
  intros Hinv Hd.
  apply deleting_quiet_or_drop in Hd as [Hq | (index & q1 & Hq & ->)].
  - by eapply inv_quiet.
  - apply inv_drop. by eapply inv_quiet.
Qed.

(** ** Every step keeps the invariant *)

Lemma inv_weaken (rem : nat) (q : Persistence) (w : writer) (r : reader) :
  inv (S rem) q w r -> inv rem q w r.
Proof. intros (B1 & B2 & B3 & B4 & B5 & B6 & B7). inv_split. lia. Qed.

Lemma inv_weaken_le (rem rem' : nat) (q : Persistence) (w : writer) (r : reader) :
  (rem <= rem')%nat -> inv rem' q w r -> inv rem q w r.
Proof. intros Hle (B1 & B2 & B3 & B4 & B5 & B6 & B7). inv_split. lia. Qed.

Lemma Push_inv (rem : nat) (p : pick) (q q' : Persistence) (e : Event)
    (err : option error) (w : writer) (r : reader) :
  inv (S rem) q w r -> Push p q e = Some (q', err) -> inv rem q' w r.
Proof.
  intros Hinv. unfold Push. destruct p; try done.
  - destruct (room _ _); [|done]. intros [= <- <-].
    destruct Hinv as (B1 & B2 & B3 & B4 & B5 & B6 & B7). inv_split.
    simpl. rewrite length_app. simpl. lia.
  - destruct (dying q); [|done]. intros [= <- <-]. by apply inv_weaken.
Qed.

Lemma step_quiet_cases (a : action) (s s' : System) :
  match a with
  | APop _ | AAcknowledge _ _ | ADisable | AKill | ACloseBucket _ =>
      step a s = Some s' ->
      w s' = w s /\ r s' = r s
      /\ offset (q s') = offset (q s) /\ input (q s') = input (q s)
      /\ cache (q s') = cache (q s)
      /\ sent_events (trace (q s')) = sent_events (trace (q s))
      /\ cfg (q s') = cfg (q s)
      /\ (disable (q s) = true -> disable (q s') = true)
      /\ (store.valid (bucket (q s)) -> store.valid (bucket (q s')))
  | _ => True
  end.
Proof.
  destruct a as [p e|p|p i| | |p f now|p f|p f now|clean]; try done; simpl.
  - unfold Pop. destruct p; try done.
    + destruct (output (q s)); [done|]. intros [= <-]. by repeat split.
    + destruct (dying (q s)); [|done]. intros [= <-]. by repeat split.
  - unfold acknowledge. destruct p; try done.
    + destruct (room _ _); [|done]. intros [= <-]. by repeat split.
    + destruct (dying (q s)); [|done]. intros [= <-]. by repeat split.
  - intros [= <-]. by repeat split.
  - intros [= <-]. by repeat split.
  - destruct (_ && _); [|done]. intros [= <-]. simpl.
    rewrite sent_events_app. simpl. rewrite app_nil_r.
    repeat split; try done.
    intros Hv. destruct clean; [|done]. intros k [x Hk]. simpl in Hk.
    by rewrite lookup_empty in Hk.
Qed.

Lemma pushes_cons_le (a : action) (acts : list action) :
  (pushes acts <= pushes (a :: acts))%nat.
Proof. unfold pushes. simpl. destruct a; simpl; lia. Qed.

Lemma step_inv (a : action) (acts : list action) (s s' : System) :
  sys_inv (pushes (a :: acts)) s -> step a s = Some s' ->
  sys_inv (pushes acts) s'.
Proof.
  unfold sys_inv. intros Hinv Hs.
  pose proof (step_quiet_cases a s s') as Hq.
  pose proof (inv_weaken_le _ _ _ _ _ (pushes_cons_le a acts) Hinv) as Hinv'.
  destruct a as [p e|p|p i| | |p f now|p f|p f now|clean];
    try (destruct (Hq Hs) as (-> & -> & Q1 & Q2 & Q3 & Q4 & Q5 & Q6 & Q7);
         destruct Hinv' as (B1 & B2 & B3 & B4 & B5 & B6 & B7);
         unfold inv, sent_ids in *; rewrite Q1, Q2, Q3, Q4;
         by split_and!; auto).
  - simpl in Hs. destruct (Push p (q s) e) as [[q1 err]|] eqn:Hp; [|done].
    inversion Hs; subst; simpl. by eapply Push_inv.
  - simpl in Hs. destruct (writing p f now (q s) (w s)) as [[q1 w1]|] eqn:Hw; [|done].
    inversion Hs; subst; simpl. by eapply writing_inv.
  - simpl in Hs. destruct (reading p f (q s) (r s)) as [[q1 r1]|] eqn:Hr; [|done].
    inversion Hs; subst; simpl. by eapply reading_inv.
  - simpl in Hs. destruct (deleting p f now (q s) (d s)) as [[q1 d1]|] eqn:Hd; [|done].
    inversion Hs; subst; simpl. by eapply deleting_inv.
Qed.

Lemma exec_inv (a : action) (acts : list action) (s : System) :
  sys_inv (pushes (a :: acts)) s -> sys_inv (pushes acts) (exec s a).
Proof.
  intros Hinv. unfold exec. destruct (step a s) as [s'|] eqn:Hs; simpl.
  - by eapply step_inv.
  - eapply inv_weaken_le; [apply pushes_cons_le | exact Hinv].
Qed.

Lemma run_inv (acts : list action) : forall s : System,
  sys_inv (pushes acts) s -> sys_inv 0 (run s acts).
Proof.
  induction acts as [|a acts IH]; intros s Hinv; [done|].
  simpl. apply IH. by apply exec_inv.
Qed.

Lemma start_inv (fault : option error) (c : Config) (b : store.BatchBucket)
    (s0 : System) (rem : nat) :
  start fault c b = Ok s0 -> store.valid b ->
  offset (q s0) + Z.of_nat rem < 2 ^ 64 - 1 ->
  sys_inv rem s0.
Proof.
  unfold start, NewPersistence. destruct fault as [e|]; [done|].
  destruct (store.MaxOffset None b) as [off|] eqn:Hm; [|done].
  intros [= <-] Hv Hb. simpl in *. unfold sys_inv. simpl. inv_split.
  - by eapply MaxOffset_nonneg.
  - simpl. constructor.
Qed.

(** ** The cache *)

Lemma cache_step_refl (q : Persistence) : cache_step q q.
Proof. split_and!; try done. by left. Qed.

Lemma cache_step_same (q q1 q' : Persistence) :
  cfg q1 = cfg q -> disable q1 = disable q -> cache q1 = cache q ->
  cache_step q1 q' -> cache_step q q'.
Proof. intros A1 A2 A3 (C1 & C2 & C3). rewrite A1, A2, A3 in *. by split_and!. Qed.

Lemma quiet_cache_step (q q1 q' : Persistence) :
  quiet q q1 -> cache_step q1 q' -> cache_step q q'.
Proof.
  intros (A1 & A2 & A3 & A4 & A5 & A6 & A7). by apply cache_step_same.
Qed.

Lemma add_commit_cache_step (q : Persistence) (begin : Z) (msgs : list Event)
    (n : nat) : cache_step q (add_commit q begin msgs n).
Proof.
  unfold add_commit. destruct (disable q) eqn:Hd.
  - split_and!; try done. by left.
  - destruct (_ <? _) eqn:Hlt; simpl; split_and!; try done.
    + right. split_and!; [done | lia | by eexists].
    + by left.
Qed.

Lemma writing_cache_step (p : pick) (fault : option error) (now : Z)
    (q q' : Persistence) (w w' : writer) :
  writing p fault now q w = Some (q', w') -> cache_step q q'.
Proof.
  unfold writing.
  assert (Hadd : forall q0 buf closing,
            writing_add fault now q0 buf closing = (q', w') ->
            cache_step q0 q').
  { intros q0 buf closing H. unfold writing_add in H.
    pose proof (add_store_quiet fault now q0 buf) as Hq.
    destruct (add_store fault now q0 buf); inversion H; subst;
      eapply quiet_cache_step; try exact Hq; apply cache_step_refl. }
  destruct w as [buf|begin msgs n closing|]; [| |done].
  - destruct p; try done.
    + destruct (input q) as [|e rest]; [done|]. simpl cfg.
      destruct (_ =? _).
      * intros [= H]. apply Hadd in H. revert H. by apply cache_step_same.
      * intros [= <- <-]. split_and!; try done. by left.
    + intros [= H]. by apply Hadd in H.
    + destruct (dying q); [|done]. intros [= H]. by apply Hadd in H.
  - intros [= <- <-]. apply add_commit_cache_step.
Qed.

Lemma reading_cache_step (p : pick) (fault : option error)
    (q q' : Persistence) (r r' : reader) :
  reading p fault q r = Some (q', r') -> cache_step q q'.
Proof.
  unfold reading. destruct r as [|begin|begin end_ buf|begin buf i|err]; [| | | |done].
  - simpl bucket. destruct (store.MinOffset _ _); intros [= <- <-];
      split_and!; try done; by left.
  - destruct p; try done.
    + destruct (eget q); [|done].
      pose proof (reading_lock_spec (with_eget q false) begin) as Hl.
      destruct (reading_lock _ _) as [[q1 e1] b1]. intros [= <- <-].
      simpl in Hl. destruct Hl as (L1 & L2 & L3 & L4 & L5 & L6 & L7 & L8).
      split_and!; [done | congruence | by left].
    + destruct (dying q); [|done]. intros [= <- <-]. apply cache_step_refl.
  - pose proof (get_quiet fault q begin end_) as Hq.
    destruct ((length buf =? 0)%nat && negb (begin =? end_)).
    + destruct (get fault q begin end_) as [q1 got]. simpl in Hq.
      destruct got as [[|e1 evs]|err]; intros [= <- <-];
        eapply quiet_cache_step; try exact Hq; try apply cache_step_refl.
      split_and!; try done. by left.
    + destruct buf; intros [= <- <-]; apply cache_step_refl.
  - destruct (buf !! i).
    + destruct p; try done.
      * simpl cfg. destruct (room _ _); [|done]. intros [= <- <-].
        split_and!; try done. by left.
      * destruct (dying q); [|done]. intros [= <- <-]. apply cache_step_refl.
    + destruct (last buf); [|done]. intros [= <- <-].
      split_and!; try done. by left.
Qed.

Lemma deleting_cache_step (p : pick) (fault : option error) (now : Z)
    (q q' : Persistence) (d d' : deleter) :
  deleting p fault now q d = Some (q', d') -> cache_step q q'.
Proof.
  intros Hd. apply deleting_quiet_or_drop in Hd as [Hq | (index & q1 & Hq & ->)].
  - eapply quiet_cache_step; [exact Hq | apply cache_step_refl].
  - eapply quiet_cache_step; [exact Hq|]. split_and!; try done.
    left. simpl. apply suffix_drop.
Qed.

Lemma step_cache_step (a : action) (s s' : System) :
  step a s = Some s' -> cache_step (q s) (q s').
Proof.
  intros Hs. pose proof (step_quiet_cases a s s') as Hq.
  destruct a as [p e|p|p i| | |p f now|p f|p f now|clean];
    try (destruct (Hq Hs) as (_ & _ & Q1 & Q2 & Q3 & Q4 & Q5 & Q6 & Q7);
         split_and!; [done | done | left; by rewrite Q3]).
  - simpl in Hs. unfold Push in Hs. destruct p; try done.
    + destruct (room _ _); [|done]. inversion Hs; subst; simpl.
      split_and!; try done. by left.
    + destruct (dying (q s)); [|done]. inversion Hs; subst; simpl.
      apply cache_step_refl.
  - simpl in Hs. destruct (writing p f now (q s) (w s)) as [[q1 w1]|] eqn:Hw; [|done].
    inversion Hs; subst; simpl. by eapply writing_cache_step.
  - simpl in Hs. destruct (reading p f (q s) (r s)) as [[q1 r1]|] eqn:Hr; [|done].
    inversion Hs; subst; simpl. by eapply reading_cache_step.
  - simpl in Hs. destruct (deleting p f now (q s) (d s)) as [[q1 d1]|] eqn:Hd; [|done].
    inversion Hs; subst; simpl. by eapply deleting_cache_step.
Qed.

Lemma exec_cache_step (a : action) (s : System) : cache_step (q s) (q (exec s a)).
Proof.
  unfold exec. destruct (step a s) as [s'|] eqn:Hs; simpl.
  - by apply step_cache_step in Hs.
  - apply cache_step_refl.
Qed.

Lemma run_cache_bounded (acts : list action) : forall s : System,
  Z.of_nat (length (cache (q s))) <= Z.max 0 (MaxBatchCacheSize (cfg (q s))) ->
  cfg (q (run s acts)) = cfg (q s)
  /\ Z.of_nat (length (cache (q (run s acts))))
     <= Z.max 0 (MaxBatchCacheSize (cfg (q s))).
Proof.
  induction acts as [|a acts IH]; intros s Hb; [done|]. simpl.
  destruct (exec_cache_step a s) as (C1 & C2 & C3).
  destruct (IH (exec s a)) as [I1 I2].
  - rewrite C1. destruct C3 as [Hsuf | (_ & Hlt & b & ->)].
    + apply suffix_length in Hsuf. lia.
    + rewrite length_app. simpl. lia.
  - rewrite I1, C1 in *. done.
Qed.

Lemma run_disabled_frozen (acts : list action) : forall s : System,
  disable (q s) = true ->
  disable (q (run s acts)) = true
  /\ cache (q (run s acts)) `suffix_of` cache (q s).
Proof.
  induction acts as [|a acts IH]; intros s Hd; [done|]. simpl.
  destruct (exec_cache_step a s) as (C1 & C2 & C3).
  destruct (IH (exec s a) (C2 Hd)) as [I1 I2]. split; [done|].
  destruct C3 as [Hsuf | (Hf & _)]; [|congruence].
  by etrans.
Qed.

(** in a state of the invariant the sweep finds an event at the end of
    every cached batch: [clean] does not panic *)
Lemma clean_lock_total (now : Z) (q : Persistence) :
  Forall wf_batch (cache q) -> is_Some (clean_lock now q).
Proof.
  intros H. unfold clean_lock.
  assert (Hi : forall th l i, Forall wf_batch l -> is_Some (clean_index th l i)).
  { intros th l. induction l as [|v l IH]; intros i Hl; simpl; [by eexists|].
    inversion Hl as [|? ? (Hne & _) Hl']; subst.
    destruct (last (batchMsgs.data v)) as [e|] eqn:He;
      [|by apply last_None in He].
    destruct (_ <=? _); [by eexists | by apply IH]. }
  destruct (Hi (expire_threshold now q) (cache q) 0%nat H) as [i ->]. by eexists.
Qed.

(** C8: in every state the queue reaches from NewPersistence the cache
    holds at most MaxBatchCacheSize batches; a flush whose put succeeds
    while the cache is full leaves the cache as it is and the bucket as
    the put made it; and from a state with the disable flag set, however
    the queue runs on, the flag stays set and the cache only loses
    batches at its head: none is appended again. *)
Theorem cache_bounded_and_frozen (fault : option error) (c : Config)
    (b : store.BatchBucket) (s0 : System) (acts : list action) :
  start fault c b = Ok s0 ->
  0 <= MaxBatchCacheSize c ->
  Z.of_nat (length (cache (q (run s0 acts)))) <= MaxBatchCacheSize c
  /\ (forall f now q1 buf ds msgs b1,
        buf <> [] ->
        encode (offset q1) buf = Ok (ds, msgs) ->
        store.Put f now (bucket q1) (u64 (offset q1 + 1)) ds = Ok b1 ->
        MaxBatchCacheSize (cfg q1) <= Z.of_nat (length (cache q1)) ->
        cache (add f now q1 buf).1 = cache q1
        /\ bucket (add f now q1 buf).1 = b1)
  /\ (forall s acts',
        disable (q s) = true ->
        disable (q (run s acts')) = true
        /\ cache (q (run s acts')) `suffix_of` cache (q s)).
Proof.
  intros Hs Hmax. split_and!.
  - unfold start, NewPersistence in Hs.
    destruct (store.MaxOffset fault b) as [off|]; [|done].
    inversion Hs; subst; clear Hs.
    match goal with |- context [run ?s _] => set (s1 := s) end.
    destruct (run_cache_bounded acts s1) as [_ H]; [simpl; lia|].
    simpl in H. lia.
  - intros f now q1 buf ds msgs b1 Hne He Hp Hfull.
    rewrite (add_stored f now q1 buf ds msgs b1 Hne He Hp). simpl.
    unfold add_commit. simpl.
    destruct (disable q1); [done|].
    replace (_ <? _) with false by lia. done.
  - intros s acts' Hd. by apply run_disabled_frozen.
Qed.

(** the step that ends a slice: every event of it has been sent, the
    cursor moves past the last one and a pump is posted *)
Lemma slice_end_moves_cursor (p : pick) (fault : option error) (s : System)
    (begin : Z) (buf : list Event) :
  sys_inv 0 s -> r s = RSend begin buf (length buf) ->
  exists e, last buf = Some e
    /\ last (sent_ids (trace (q s))) = Some (EventID e)
    /\ r (exec s (AReading p fault)) = RWait (EventID e + 1)
    /\ eget (q (exec s (AReading p fault))) = true.
Proof.
  unfold sys_inv. intros (_ & _ & _ & _ & _ & _ & Hr) Hs. rewrite Hs in Hr.
  destruct Hr as (H0 & (Hne & Hsort & Hrange) & h & Hh & Hlt).
  destruct (last buf) as [e|] eqn:Hl; [|by apply last_None in Hl].
  exists e. split; [done|].
  assert (Hl' : last (EventID <$> buf) = Some (EventID e))
    by by rewrite fmap_last, Hl.
  assert (Hbe : begin <= EventID e < 2 ^ 64 - 1).
  { apply (proj1 (Forall_forall _ _) Hrange). by apply last_Some_elem_of. }
  rewrite take_ge in Hh by (by rewrite length_fmap).
  split.
  - rewrite Hh. destruct (proj1 (last_Some _ _) Hl') as [l' Hl2].
    by rewrite Hl2, app_assoc, last_snoc.
  - unfold exec. simpl. rewrite Hs. simpl.
    rewrite (proj2 (lookup_ge_None buf (length buf))) by lia.
    rewrite Hl. simpl. by rewrite u64_small by lia.
Qed.

(** C4: take any run of the queue from NewPersistence over a bucket whose
    offsets are unsigned, with fewer pushes than offsets are left below
    the top of uint64.  The offsets of the events sent on the egress
    channel, in the order they were sent, are strictly increasing over
    the whole run, whether a slice came from the batch cache or from the
    bucket; when the last event of a slice has been sent the reader's
    next step sets the cursor to that event's offset plus one; and
    whenever the reader is back at its select with something sent, its
    cursor is the last sent offset plus one. *)
Theorem egress_offsets_increase (fault : option error) (c : Config)
    (b : store.BatchBucket) (s0 : System) (acts : list action) :
  start fault c b = Ok s0 ->
  store.valid b ->
  offset (q s0) + Z.of_nat (pushes acts) < 2 ^ 64 - 1 ->
  StronglySorted Z.lt (sent_ids (trace (q (run s0 acts))))
  /\ (forall begin buf p f,
        r (run s0 acts) = RSend begin buf (length buf) ->
        exists e, last buf = Some e
          /\ last (sent_ids (trace (q (run s0 acts)))) = Some (EventID e)
          /\ r (exec (run s0 acts) (AReading p f)) = RWait (EventID e + 1))
  /\ (forall begin,
        r (run s0 acts) = RWait begin ->
        sent_ids (trace (q (run s0 acts))) <> [] ->
        last (sent_ids (trace (q (run s0 acts)))) = Some (begin - 1)).
Proof.
  intros Hs Hv Hb.
  pose proof (run_inv acts s0 (start_inv fault c b s0 _ Hs Hv Hb)) as Hinv.
  split_and!.
  - by destruct Hinv as (_ & _ & _ & _ & _ & Hsorted & _).
  - intros begin buf p f Hr.
    destruct (slice_end_moves_cursor p f _ begin buf Hinv Hr) as (e & ? & ? & ? & _).
    by exists e.
  - destruct Hinv as (_ & _ & _ & _ & _ & _ & Hr).
    intros begin Hw Hne. rewrite Hw in Hr.
    destruct Hr as (_ & _ & [He|Hl]); done.
Qed.

End Lifetime.

Lemma empty_bucket_valid : store.valid wire.empty_bucket.
Proof. intros k [x Hk]. simpl in Hk. by rewrite lookup_empty in Hk. Qed.

Lemma demo_start_started :
  start None (wire.config 2 1) wire.empty_bucket = Ok demo_start.
Proof. reflexivity. Qed.

(** the run sends offsets 1 and 2, served from the cache, and leaves the
    cursor at 3 *)
Example demo_run_sends :
  sent_ids (trace (q (run demo_start demo_run))) = [1; 2]
  /\ r (run demo_start demo_run) = RWait 3
  /\ offset (q (run demo_start demo_run)) = 2
  /\ cache (q (run demo_start demo_run)) = [].
Proof. vm_compute. repeat split. Qed.

Lemma cache_bounded_and_frozen_witness :
  Z.of_nat (length (cache (q (run demo_start demo_run)))) <= 1.
Proof.
  assert (H0 : 0 <= MaxBatchCacheSize (wire.config 2 1)) by (simpl; lia).
  exact (proj1 (cache_bounded_and_frozen None (wire.config 2 1) wire.empty_bucket
                  demo_start demo_run demo_start_started H0)).
Defined.

Lemma egress_offsets_increase_witness :
  StronglySorted Z.lt (sent_ids (trace (q (run demo_start demo_run)))).
Proof.
  assert (Hb : offset (q demo_start) + Z.of_nat (pushes demo_run) < 2 ^ 64 - 1)
    by (vm_compute; reflexivity).
  exact (proj1 (egress_offsets_increase None (wire.config 2 1) wire.empty_bucket
                  demo_start demo_run demo_start_started empty_bucket_valid Hb)).
Defined.

(** * Further properties of the queue *)

(** ** Batches: add, get, the pump and the sweep *)

Section Batches.

Context `{codec : proto.Codec}.

Lemma encode_stamp_from (buf : list Event) : forall begin ds msgs,
  0 <= begin -> begin + Z.of_nat (length buf) < 2 ^ 64 ->
  encode begin buf = Ok (ds, msgs) ->
  msgs = stamp_from begin buf
  /\ Forall2 (fun ee d => proto.Marshal (Message ee) = Ok d) msgs ds.
Proof.
  induction buf as [|e buf IH]; simpl length; intros begin ds msgs H0 Hb He.
  - simpl in He. inversion He; subst. split; [done | constructor].
  - simpl in He. rewrite (u64_small (begin + 1)) in He by lia.
    destruct (proto.Marshal _) as [data|] eqn:Hm; [|done].
    destruct (encode (begin + 1) buf) as [[ds' msgs']|] eqn:E; [|done].
    inversion He; subst.
    assert (H1 : 0 <= begin + 1) by lia.
    assert (H2 : begin + 1 + Z.of_nat (length buf) < 2 ^ 64) by lia.
    destruct (IH (begin + 1) ds' msgs' H1 H2 E) as [-> HF].
    split.
    + unfold stamp_from. rewrite imap_cons. f_equal.
      * simpl. by rewrite Z.add_0_r.
      * apply imap_ext. intros i x _. simpl.
        replace (begin + 1 + 1 + Z.of_nat i) with (begin + 1 + Z.of_nat (S i)) by lia.
        done.
    + by constructor.
Qed.


(** offsets, headers and payloads of a stamped batch, event by event *)
Lemma encode_lookup (buf : list Event) (begin : Z) ds msgs (i : nat) (e : Event) :
  0 <= begin -> begin + Z.of_nat (length buf) < 2 ^ 64 ->
  encode begin buf = Ok (ds, msgs) -> buf !! i = Some e ->
  msgs !! i = Some (NewEvent (mqtt.with_ID (Message e) (begin + 1 + Z.of_nat i))
                             QueueAcknowledge)
  /\ exists d, ds !! i = Some d
       /\ proto.Marshal (mqtt.with_ID (Message e) (begin + 1 + Z.of_nat i)) = Ok d.
Proof.
  intros H0 Hb He Hi.
  destruct (encode_stamp_from buf begin ds msgs H0 Hb He) as [-> HF].
  assert (Hm : stamp_from begin buf !! i
               = Some (NewEvent (mqtt.with_ID (Message e) (begin + 1 + Z.of_nat i))
                                QueueAcknowledge)).
  { unfold stamp_from. by rewrite list_lookup_imap, Hi. }
  split; [done|].
  destruct (Forall2_lookup_l _ _ _ _ _ HF Hm) as (d & Hd & HM).
  exists d. split; [done|]. exact HM.
Qed.

(** X1: when [add] stamps a buffer (offset not wrapping), the i-th event
    of the batch is the i-th pushed event with its offset set to
    q.offset + 1 + i and nothing else changed (timestamp, qos, flags,
    topic and payload are the producer's), it carries the queue's
    acknowledge capability instead of the producer's, and the i-th record
    handed to the bucket is the serialization of exactly that message. *)
Theorem add_stamps_consecutive_offsets (q : Persistence) (buf : list Event)
    ds msgs (i : nat) (e : Event) :
  0 <= offset q -> offset q + Z.of_nat (length buf) < 2 ^ 64 ->
  encode (offset q) buf = Ok (ds, msgs) -> buf !! i = Some e ->
  exists ee d,
    msgs !! i = Some ee /\ ds !! i = Some d
    /\ EventID ee = offset q + 1 + Z.of_nat i
    /\ EventTS ee = EventTS e
    /\ mqtt.QOS (mqtt.Ctx (Message ee)) = mqtt.QOS (mqtt.Ctx (Message e))
    /\ mqtt.Flags (mqtt.Ctx (Message ee)) = mqtt.Flags (mqtt.Ctx (Message e))
    /\ mqtt.Topic (mqtt.Ctx (Message ee)) = mqtt.Topic (mqtt.Ctx (Message e))
    /\ mqtt.Content (Message ee) = mqtt.Content (Message e)
    /\ Call ee = QueueAcknowledge
    /\ proto.Marshal (Message ee) = Ok d
    /\ length msgs = length buf /\ length ds = length buf.
Proof.
  intros H0 Hb He Hi.
  destruct (encode_lookup buf (offset q) ds msgs i e H0 Hb He Hi) as (Hm & d & Hd & HM).
  destruct (encode_length _ _ _ _ He) as [L1 L2].
  eexists _, d. split; [exact Hm|]. split; [exact Hd|]. by repeat split.
Qed.

(** what a successful put leaves in the bucket *)
Lemma put_rows_lookup_eq (now : Z) (records : list (list byte)) :
  forall begin (m : gmap Z store.Row) k,
  store.put_rows now begin records m !! k =
    match (if bool_decide (begin <= k) then records !! Z.to_nat (k - begin) else None) with
    | Some d => Some {| store.data := d; store.stamp := now |}
    | None => m !! k
    end.
Proof.
  induction records as [|d rest IH]; intros begin m k; simpl.
  - by case_bool_decide.
  - rewrite IH. case_bool_decide as H1; case_bool_decide as H2; try lia.
    + replace (Z.to_nat (k - begin)) with (S (Z.to_nat (k - (begin + 1)))) by lia.
      simpl. destruct (rest !! _); [done|]. rewrite lookup_insert_ne by lia. done.
    + assert (k = begin) as -> by lia. rewrite Z.sub_diag. simpl.
      by rewrite lookup_insert_eq.
    + by rewrite lookup_insert_ne by lia.
Qed.

Lemma scan_put_rows (now : Z) (records : list (list byte)) :
  forall begin (m : gmap Z store.Row),
  store.scan {| store.rows := store.put_rows now begin records m |}
             begin (begin + Z.of_nat (length records))
  = zip (seqZ begin (Z.of_nat (length records))) records.
Proof.
  induction records as [|d rest IH]; intros begin m.
  - simpl. unfold store.scan. by rewrite seqZ_nil by lia.
  - specialize (IH (begin + 1) (<[begin:={| store.data := d; store.stamp := now |}]> m)).
    unfold store.scan in *. simpl store.rows in *.
    replace (begin + Z.of_nat (length (d :: rest)) - begin)
      with (Z.of_nat (length (d :: rest))) by lia.
    replace (begin + 1 + Z.of_nat (length rest) - (begin + 1))
      with (Z.of_nat (length rest)) in IH by lia.
    rewrite seqZ_cons by (simpl length; lia).
    replace (Z.pred (Z.of_nat (length (d :: rest)))) with (Z.of_nat (length rest))
      by (simpl length; lia).
    replace (Z.succ begin) with (begin + 1) by lia.
    cbn [omap list_omap zip zip_with]. fold (@omap list _ Z (Z * list byte)).
    rewrite (put_rows_lookup_eq now rest (begin + 1) _ begin).
    rewrite bool_decide_false by lia. rewrite lookup_insert_eq. simpl.
    f_equal. exact IH.
Qed.

Lemma with_ID_same (m : mqtt.Message) : mqtt.with_ID m (mqtt.ID (mqtt.Ctx m)) = m.
Proof. by destruct m as [[]]. Qed.

Lemma iterate_reads_back (msgs : list Event) : forall (ks : list Z) ds acc,
  Forall2 (fun ee d => d <> [] /\ proto.Unmarshal d = Ok (Message ee)) msgs ds ->
  EventID <$> msgs = ks ->
  store.iterate get_callback (zip ks ds) acc
  = ((acc.1 ++ (Message <$> msgs), acc.2), None).
Proof.
  induction msgs as [|ee msgs IH]; intros ks ds acc HF Hk.
  - inversion HF; subst. simpl. rewrite app_nil_r. by destruct acc.
  - inversion HF as [|? d ? ds' [Hne Hu] HF']; subst. simpl.
    rewrite (get_callback_accepts d (EventID ee) acc (Message ee) Hne Hu).
    rewrite (IH _ ds' _ HF' eq_refl). simpl.
    unfold EventID. rewrite with_ID_same. by rewrite <- app_assoc.
Qed.

(** X2: what [add] persists is what [get] reads back.  After a flush
    whose put succeeds (offset not wrapping), reading the range of the new
    offsets from the bucket returns exactly the batch [add] built, event
    for event, provided the records decode to what was serialized. *)
Theorem add_then_get_reads_batch (now : Z) (q : Persistence) (buf : list Event)
    ds msgs b :
  buf <> [] ->
  0 <= offset q -> offset q + Z.of_nat (length buf) < 2 ^ 64 - 1 ->
  encode (offset q) buf = Ok (ds, msgs) ->
  store.Put None now (bucket q) (u64 (offset q + 1)) ds = Ok b ->
  Forall2 (fun ee d => d <> [] /\ proto.Unmarshal d = Ok (Message ee)) msgs ds ->
  (get None (add None now q buf).1 (offset q + 1)
       (offset q + 1 + Z.of_nat (length buf))).2 = Ok msgs.
Proof.
  intros Hne H0 Hb He Hp Hrt.
  rewrite (add_stored None now q buf ds msgs b Hne He Hp). simpl fst.
  set (q1 := add_commit _ _ _ _).
  assert (Hbq : bucket q1 = b).
  { unfold q1, add_commit. simpl. destruct (disable q); [done|].
    by destruct (_ <? _). }
  destruct (encode_length _ _ _ _ He) as [Ld Lm].
  destruct (encode_stamp_from buf (offset q) ds msgs H0 ltac:(lia) He) as [Hst _].
  pose proof (encode_ids buf (offset q) ds msgs H0 ltac:(lia) He) as Hids.
  rewrite u64_small in Hp by lia.
  unfold store.Put in Hp. destruct (List.find _ _); [done|]. inversion Hp as [Hb'].
  unfold get, store.Get. simpl bucket. rewrite Hbq, <- Hb'.
  rewrite <- Ld. rewrite scan_put_rows.
  rewrite (iterate_reads_back msgs _ ds ([], []) Hrt);
    [|by rewrite Ld; exact Hids].
  simpl. f_equal.
  assert (Hc : Forall (fun ee => Call ee = QueueAcknowledge) msgs).
  { rewrite Hst. unfold stamp_from. apply Forall_forall. intros x Hx.
    apply elem_of_lookup_imap in Hx as (i & e & -> & _). done. }
  clear -Hc. induction msgs as [|ee msgs IH]; [done|].
  inversion Hc as [|? ? Hee Hc']; subst. simpl. f_equal; [|by apply IH].
  destruct ee; simpl in *. by subst.
Qed.


(** X3: a flush of a non-empty buffer whose serialization and put succeed
    while disable is unset (offset not wrapping) makes exactly one bucket
    call, Put(q.offset+1, records) with one record per event, fires the
    done capability of every buffered event once and in order, advances
    q.offset by the number of events, posts a pump, and appends the batch
    to the cache when the cache holds fewer than MaxBatchCacheSize
    batches (otherwise the cache is left alone); the returned buffer is
    empty. *)
Theorem add_success_commits_batch (fault : option error) (now : Z)
    (q : Persistence) (buf : list Event) ds msgs b :
  buf <> [] -> disable q = false ->
  0 <= offset q -> offset q + Z.of_nat (length buf) < 2 ^ 64 ->
  encode (offset q) buf = Ok (ds, msgs) ->
  store.Put fault now (bucket q) (u64 (offset q + 1)) ds = Ok b ->
  let q' := (add fault now q buf).1 in
  (add fault now q buf).2 = []
  /\ offset q' = offset q + Z.of_nat (length buf)
  /\ bucket q' = b
  /\ eget q' = true
  /\ bucket_calls (trace q') = bucket_calls (trace q) ++ [BucketPut (offset q + 1) ds]
  /\ length ds = length buf
  /\ fired (trace q') = fired (trace q) ++ fire_done buf
  /\ cache q' =
       (if Z.of_nat (length (cache q)) <? MaxBatchCacheSize (cfg q)
        then cache q ++ [{| batchMsgs.offset := offset q + 1;
                            batchMsgs.data := msgs |}]
        else cache q)
  /\ input q' = input q /\ output q' = output q /\ dying q' = dying q.
Proof.
  intros Hne Hd H0 Hb He Hp.
  assert (Hn : (1 <= length buf)%nat) by (destruct buf; [done | simpl; lia]).
  rewrite (add_stored fault now q buf ds msgs b Hne He Hp). simpl.
  destruct (encode_length _ _ _ _ He) as [Ld _].
  unfold add_commit. simpl. rewrite Hd.
  rewrite (u64_small (offset q + 1)) by lia.
  assert (Hoff : forall c, offset (if Z.of_nat (length (cache q)) <? MaxBatchCacheSize (cfg q)
                   then with_cache (emit (with_bucket (emit q [BucketPut (offset q + 1) ds]) b)
                                         (fire_done buf)) c
                   else emit (with_bucket (emit q [BucketPut (offset q + 1) ds]) b)
                             (fire_done buf)) = offset q)
    by (intros c; by destruct (_ <? _)).
  rewrite Hoff, u64_small by lia.
  destruct (_ <? _); simpl;
    rewrite !bucket_calls_app, !fired_app, fired_fire_done; simpl;
    rewrite ?app_nil_r;
    (assert (Hbc : bucket_calls (fire_done buf) = [])
       by (clear; induction buf; simpl; done));
    rewrite Hbc, ?app_nil_r; by repeat split.
Qed.

(** the scan ends without error only over records the callback takes *)
Lemma iterate_ok_readable (rs : list (Z * list byte)) : forall acc acc',
  store.iterate get_callback rs acc = (acc', None) -> Forall readable rs.
Proof.
  induction rs as [|[k d] rs IH]; simpl; intros acc acc' H; [constructor|].
  destruct (get_callback d k acc) as [acc1 [e|]] eqn:E; [done|].
  constructor; [|by eapply IH].
  unfold get_callback in E. destruct d as [|x d]; [done|].
  unfold readable. simpl.
  destruct (proto.Unmarshal (x :: d)); [done | by inversion E].
Qed.

(** X4: a read of a range succeeds if and only if every live record of
    the range is non-empty and decodes: one empty or undecodable record
    makes [get] return an error and none of the events of the range, the
    good ones before it included. *)
Theorem get_ok_iff_all_readable (q : Persistence) (begin end_ : Z) :
  is_ok (get None q begin end_).2 = true
  <-> Forall readable (store.scan (bucket q) begin end_).
Proof.
  split.
  - unfold get, store.Get. simpl bucket.
    destruct (store.iterate _ _ _) as [[ms logs] [e|]] eqn:E; [done|].
    intros _. by eapply iterate_ok_readable.
  - intros H. destruct (iterate_accepts _ ([], []) H) as (ms & Hit & _).
    unfold get, store.Get. simpl bucket. by rewrite Hit.
Qed.

Lemma omap_length_le {A B : Type} (f : A -> option B) (l : list A) :
  (length (omap f l) <= length l)%nat.
Proof.
  unfold omap. induction l as [|x l IH]; simpl; [done|].
  destruct (f x); simpl; lia.
Qed.

Lemma scan_length (b : store.BatchBucket) (begin end_ : Z) :
  Z.of_nat (length (store.scan b begin end_)) <= Z.max 0 (end_ - begin).
Proof.
  unfold store.scan.
  pose proof (omap_length_le
                (fun k : Z => (fun r => (k, store.data r)) <$> store.rows b !! k)
                (seqZ begin (end_ - begin))) as H.
  rewrite length_seqZ in H. lia.
Qed.

(** X5: a pump that goes to the bucket never asks for more than BatchSize
    offsets.  With the cursor and the batch size in range, the upper end
    the reader computes under the lock is at most begin + BatchSize, so
    a read of that range returns at most BatchSize events. *)
Theorem store_read_at_most_batch (fault : option error) (q : Persistence)
    (begin : Z) (evs : list Event) :
  0 <= begin -> 0 <= BatchSize (cfg q) ->
  begin + BatchSize (cfg q) < 2 ^ 64 ->
  (get fault (reading_lock q begin).1.1 begin (reading_lock q begin).1.2).2 = Ok evs ->
  (reading_lock q begin).1.2 <= begin + BatchSize (cfg q)
  /\ Z.of_nat (length evs) <= BatchSize (cfg q).
Proof.
  intros H0 Hs Hb Hg.
  assert (Hend : (reading_lock q begin).1.2 <= begin + BatchSize (cfg q)).
  { unfold reading_lock.
    assert (Hcfg : forall (c : bool) (x : list batchMsgs.t),
              cfg (if c then with_cache q x else q) = cfg q) by (by intros []).
    destruct (cache q) as [|c rest]; simpl.
    - rewrite (u64_small (BatchSize (cfg q))), u64_small by lia.
      destruct (_ <? _) eqn:Hlt; lia.
    - destruct (begin =? batchMsgs.offset c); simpl;
        rewrite (u64_small (BatchSize (cfg q))), u64_small by lia;
        destruct (_ =? 0); destruct (_ <? _) eqn:Hlt; lia. }
  split; [done|].
  apply get_ok_ids in Hg.
  assert (Hl : length evs = length (store.scan (bucket (reading_lock q begin).1.1)
                                      begin (reading_lock q begin).1.2)).
  { unfold store.offsets in Hg.
    rewrite <- (length_fmap fst (store.scan _ _ _)), <- Hg.
    by rewrite length_map. }
  pose proof (scan_length (bucket (reading_lock q begin).1.1) begin
                          (reading_lock q begin).1.2). lia.
Qed.

Lemma clean_index_split (threshold : Z) (cache : list batchMsgs.t) :
  forall (i j : nat),
  clean_index threshold cache i = Some j ->
  (exists pre v post, cache = pre ++ v :: post
      /\ Forall (expired threshold) pre /\ unexpired threshold v
      /\ j = (i + length pre)%nat)
  \/ (j = 0%nat /\ Forall (expired threshold) cache).
Proof.
  induction cache as [|v cache IH]; simpl; intros i j H.
  - right. inversion H. by split.
  - destruct (last (batchMsgs.data v)) as [e|] eqn:Hl; [|done].
    destruct (threshold <=? EventTS e) eqn:Hts.
    + inversion H; subst. left. exists [], v, cache.
      split_and!; [done | constructor | exists e; split; [done | lia] | simpl; lia].
    + assert (Hv : expired threshold v) by (exists e; split; [done | lia]).
      destruct (IH _ _ H) as [(pre & v' & post & -> & Hpre & Hv' & ->) | [-> Hall]].
      * left. exists (v :: pre), v', post.
        split_and!; [done | by constructor | done | simpl; lia].
      * right. split; [done | by constructor].
Qed.

(** X6: the sweep of the cache only ever drops expired batches from the
    front: the cache after [clean] is what is left of the old one behind
    a run of batches that are all expired, so a batch whose last event is
    not older than the threshold is never dropped, nor is any batch
    behind it; and when something was dropped the new head is not
    expired.  Nothing but the cache changes under the lock. *)
Theorem clean_drops_only_expired (now : Z) (q q' : Persistence) :
  clean_lock now q = Some q' ->
  exists pre,
    cache q = pre ++ cache q'
    /\ Forall (expired (expire_threshold now q)) pre
    /\ (pre <> [] -> exists v post, cache q' = v :: post
                                    /\ unexpired (expire_threshold now q) v)
    /\ q' = with_cache q (cache q').
Proof.
  unfold clean_lock.
  destruct (clean_index _ _ _) as [j|] eqn:Hj; [|done]. intros [= <-]. simpl.
  apply clean_index_split in Hj
    as [(pre & v & post & Hc & Hpre & Hv & ->) | [-> Hall]].
  - exists pre. rewrite Hc. simpl. rewrite drop_app_length.
    split_and!; try done. intros _. by exists v, post.
  - exists []. simpl. by split_and!.
Qed.

End Batches.

(** ** The dying signal *)

Section Frames.

Context `{codec : proto.Codec}.

(** ** What each piece of the goroutines leaves alone *)

Lemma add_store_frame (fault : option error) (now : Z) (q : Persistence)
    (buf : list Event) :
  match add_store fault now q buf with
  | Stored q' _ _ _ | Dropped q' =>
      with_trace (with_bucket q' (bucket q)) (trace q) = q
  end.
Proof.
  unfold add_store. destruct buf as [|e0 buf]; [by destruct q|].
  destruct (encode _ _) as [[ds msgs]|err]; [|by destruct q].
  simpl bucket. destruct (store.Put _ _ _ _ _); by destruct q.
Qed.

Lemma add_commit_frame (q : Persistence) (begin : Z) (msgs : list Event) (n : nat) :
  with_eget (with_offset (with_cache (add_commit q begin msgs n) (cache q))
                         (offset q)) (eget q) = q.
Proof.
  unfold add_commit. destruct (disable q); [by destruct q|].
  destruct (_ <? _); by destruct q.
Qed.

Lemma reading_lock_frame (q : Persistence) (begin : Z) :
  with_cache (reading_lock q begin).1.1 (cache q) = q.
Proof.
  unfold reading_lock. destruct (cache q) as [|c rest] eqn:Hc; simpl.
  - rewrite <- Hc. by destruct q.
  - destruct (_ =? _); simpl; rewrite <- Hc; by destruct q.
Qed.

Lemma delete_frame (fault : option error) (q : Persistence) (buf : list Z) :
  with_trace (with_bucket (delete fault q buf).1 (bucket q)) (trace q) = q.
Proof.
  unfold delete. destruct (last buf); [|by destruct q].
  destruct fault; simpl; by destruct q.
Qed.

Lemma clean_store_frame (fault : option error) (now : Z) (q : Persistence) :
  with_trace (with_bucket (clean_store fault now q) (bucket q)) (trace q) = q.
Proof. unfold clean_store. destruct fault; simpl; by destruct q. Qed.

Lemma get_dying (fault : option error) (q : Persistence) (begin end_ : Z) :
  dying (get fault q begin end_).1 = dying q.
Proof.
  destruct (get_frame fault q begin end_) as (_ & _ & H).
  by apply (f_equal dying) in H.
Qed.

Lemma writing_dying (p : pick) (fault : option error) (now : Z)
    (q q' : Persistence) (w w' : writer) :
  writing p fault now q w = Some (q', w') -> dying q' = dying q.
Proof.
  unfold writing.
  assert (Hadd : forall q0 buf closing,
            writing_add fault now q0 buf closing = (q', w') -> dying q' = dying q0).
  { intros q0 buf closing H. unfold writing_add in H.
    pose proof (add_store_frame fault now q0 buf) as Hf.
    destruct (add_store fault now q0 buf); inversion H; subst;
      by apply (f_equal dying) in Hf. }
  destruct w as [buf|begin msgs n closing|]; [| |done].
  - destruct p; try done.
    + destruct (input q) as [|e rest]; [done|]. simpl cfg. destruct (_ =? _).
      * intros [= H]. by apply Hadd in H.
      * by intros [= <- <-].
    + intros [= H]. by apply Hadd in H.
    + destruct (dying q) eqn:Hd; [|done]. intros [= H]. apply Hadd in H. congruence.
  - intros [= <- <-]. pose proof (add_commit_frame q begin msgs n) as Hf.
    by apply (f_equal dying) in Hf.
Qed.

Lemma reading_dying (p : pick) (fault : option error)
    (q q' : Persistence) (r r' : reader) :
  reading p fault q r = Some (q', r') -> dying q = true -> dying q' = true.
Proof.
  unfold reading. destruct r as [|begin|begin end_ buf|begin buf i|err]; [| | | |done].
  - simpl bucket. destruct (store.MinOffset _ _); intros [= <- <-]; simpl; done.
  - destruct p; try done.
    + destruct (eget q); [|done].
      pose proof (reading_lock_frame (with_eget q false) begin) as Hf.
      destruct (reading_lock _ _) as [[q1 e1] b1]. intros [= <- <-].
      simpl in Hf. apply (f_equal dying) in Hf. simpl in Hf. congruence.
    + destruct (dying q) eqn:Hdq; [|done]. by intros [= <- <-].
  - pose proof (get_dying fault q begin end_) as Hq.
    destruct ((length buf =? 0)%nat && negb (begin =? end_)).
    + destruct (get fault q begin end_) as [q1 got]. simpl in Hq.
      destruct got as [[|e1 evs]|err]; intros [= <- <-]; simpl; congruence.
    + by destruct buf; intros [= <- <-].
  - destruct (buf !! i).
    + destruct p; try done.
      * simpl cfg. destruct (room _ _); [|done]. by intros [= <- <-].
      * destruct (dying q) eqn:Hdq; [|done]. by intros [= <- <-].
    + destruct (last buf); [|done]. by intros [= <- <-].
Qed.

Lemma deleting_dying (p : pick) (fault : option error) (now : Z)
    (q q' : Persistence) (d d' : deleter) :
  deleting p fault now q d = Some (q', d') -> dying q' = dying q.
Proof.
  unfold deleting. destruct d as [buf|buf|]; [| |done].
  - destruct p; try done.
    + destruct (edel q) as [|e rest]; [done|]. simpl cfg. destruct (_ =? _).
      * pose proof (delete_frame fault (with_edel q rest) (buf ++ [e])) as Hf.
        destruct (delete _ _ _) as [q1 b1]. intros [= <- <-].
        by apply (f_equal dying) in Hf.
      * by intros [= <- <-].
    + pose proof (delete_frame fault q buf) as Hf.
      destruct (delete _ _ _) as [q1 b1]. intros [= <- <-].
      by apply (f_equal dying) in Hf.
    + unfold clean_lock. destruct (clean_index _ _ _); [|done]. by intros [= <- <-].
    + destruct (dying q) eqn:Hd; [|done].
      pose proof (delete_frame fault q buf) as Hf.
      destruct (delete _ _ _) as [q1 b1]. intros [= <- <-].
      apply (f_equal dying) in Hf. simpl in Hf. congruence.
  - intros [= <- <-]. pose proof (clean_store_frame fault now q) as Hf.
    by apply (f_equal dying) in Hf.
Qed.

Lemma step_dying (a : action) (s s' : System) :
  step a s = Some s' -> dying (q s) = true -> dying (q s') = true.
Proof.
  destruct a as [p e|p|p i| | |p f now|p f|p f now|clean]; simpl.
  - unfold Push. destruct p; try done.
    + destruct (room _ _); [|done]. by intros [= <-].
    + destruct (dying (q s)) eqn:Hdq; [|done]. by intros [= <-].
  - unfold Pop. destruct p; try done.
    + destruct (output (q s)); [done|]. by intros [= <-].
    + destruct (dying (q s)) eqn:Hdq; [|done]. by intros [= <-].
  - unfold acknowledge. destruct p; try done.
    + destruct (room _ _); [|done]. by intros [= <-].
    + destruct (dying (q s)) eqn:Hdq; [|done]. by intros [= <-].
  - by intros [= <-].
  - by intros [= <-].
  - destruct (writing p f now (q s) (w s)) as [[q1 w1]|] eqn:Hw; [|done].
    intros [= <-]. simpl. apply writing_dying in Hw. congruence.
  - destruct (reading p f (q s) (r s)) as [[q1 r1]|] eqn:Hr; [|done].
    intros [= <-]. simpl. by eapply reading_dying.
  - destruct (deleting p f now (q s) (d s)) as [[q1 d1]|] eqn:Hd; [|done].
    intros [= <-]. simpl. apply deleting_dying in Hd. congruence.
  - destruct (_ && _); [|done]. by intros [= <-].
Qed.

Lemma exec_dying (a : action) (s : System) :
  dying (q s) = true -> dying (q (exec s a)) = true.
Proof.
  intros Hd. unfold exec. destruct (step a s) as [s'|] eqn:Hs; simpl; [|done].
  by eapply step_dying.
Qed.

(** X7: the dying signal is permanent.  Once the queue has been killed
    (by Close, or by the reader failing to read the first offset), no
    push, pop, acknowledgement or goroutine step brings it back: it is
    dying in every later state, so that a Push or a Pop can fail with the
    closed-queue error from then on. *)
Theorem dying_is_permanent (s : System) (acts : list action) (e : Event) :
  dying (q s) = true ->
  dying (q (run s acts)) = true
  /\ Push PickDying (q (run s acts)) e = Some (q (run s acts), Some ErrQueueClosed)
  /\ Pop PickDying (q (run s acts)) = Some (q (run s acts), None, Some ErrQueueClosed).
Proof.
  intros Hd.
  assert (H : dying (q (run s acts)) = true).
  { revert s Hd. induction acts as [|a acts IH]; intros s Hd; [done|].
    simpl. apply IH. by apply exec_dying. }
  split; [done|]. unfold Push, Pop. by rewrite H.
Qed.


(** ** Shutdown *)

Lemma wsteps_le (w : writer) : (wsteps w <= 2)%nat.
Proof. destruct w as [[|]| ? ? ? []|]; simpl; lia. Qed.

Lemma rsteps_le (r : reader) : (rsteps r <= 2)%nat.
Proof. destruct r; simpl; try lia. destruct (_ !! _); lia. Qed.

Lemma dsteps_le (d : deleter) : (dsteps d <= 2)%nat.
Proof. destruct d; simpl; lia. Qed.

Lemma wsteps_0 (w : writer) : wsteps w = 0%nat -> w = WExit.
Proof. by destruct w as [[|]| ? ? ? []|]. Qed.

Lemma rsteps_0 (r : reader) : rsteps r = 0%nat -> exists err, r = RExit err.
Proof. destruct r as [| | |? buf i|err]; simpl; try done; [|by eexists]. by destruct (buf !! i). Qed.

Lemma dsteps_0 (d : deleter) : dsteps d = 0%nat -> d = DExit.
Proof. by destruct d. Qed.


Lemma reading_reader_ok (p : pick) (fault : option error)
    (q q' : Persistence) (r r' : reader) :
  reader_ok r -> reading p fault q r = Some (q', r') -> reader_ok r'.
Proof.
  intros Hok. unfold reading.
  destruct r as [|begin|begin end_ buf|begin buf i|err]; [| | | |done].
  - simpl bucket. by destruct (store.MinOffset _ _); intros [= <- <-].
  - destruct p; try done.
    + destruct (eget q); [|done]. destruct (reading_lock _ _) as [[q1 e1] b1].
      by intros [= <- <-].
    + destruct (dying q); [|done]. by intros [= <- <-].
  - destruct ((length buf =? 0)%nat && negb (begin =? end_)).
    + destruct (get fault q begin end_) as [q1 [[|e1 evs]|err]]; by intros [= <- <-].
    + by destruct buf; intros [= <- <-].
  - destruct (buf !! i).
    + destruct p; try done.
      * simpl cfg. destruct (room _ _); [|done]. by intros [= <- <-].
      * destruct (dying q); [|done]. by intros [= <- <-].
    + destruct (last buf); [|done]. by intros [= <- <-].
Qed.

Lemma exec_reader_ok (a : action) (s : System) :
  reader_ok (r s) -> reader_ok (r (exec s a)).
Proof.
  intros Hok. unfold exec. destruct (step a s) as [s'|] eqn:Hs; simpl; [|done].
  destruct a as [p e|p|p i| | |p f now|p f|p f now|clean]; simpl in Hs.
  - destruct (Push _ _ _); by inversion Hs.
  - destruct (Pop _ _); by inversion Hs.
  - destruct (acknowledge _ _ _); by inversion Hs.
  - by inversion Hs.
  - by inversion Hs.
  - destruct (writing _ _ _ _ _); by inversion Hs.
  - destruct (reading p f (q s) (r s)) as [[q1 r1]|] eqn:Hr; [|done].
    inversion Hs; subst; simpl. by eapply reading_reader_ok.
  - destruct (deleting _ _ _ _ _); by inversion Hs.
  - destruct (_ && _); by inversion Hs.
Qed.

Lemma run_reader_ok (acts : list action) : forall s : System,
  reader_ok (r s) -> reader_ok (r (run s acts)).
Proof.
  induction acts as [|a acts IH]; intros s Hok; [done|].
  simpl. apply IH. by apply exec_reader_ok.
Qed.

Lemma exec_writing_others (p : pick) (f : option error) (now : Z) (s : System) :
  r (exec s (AWriting p f now)) = r s /\ d (exec s (AWriting p f now)) = d s.
Proof. unfold exec. simpl. by destruct (writing _ _ _ _ _) as [[]|]. Qed.

Lemma exec_reading_others (p : pick) (f : option error) (s : System) :
  w (exec s (AReading p f)) = w s /\ d (exec s (AReading p f)) = d s.
Proof. unfold exec. simpl. by destruct (reading _ _ _ _) as [[]|]. Qed.

Lemma exec_deleting_others (p : pick) (f : option error) (now : Z) (s : System) :
  w (exec s (ADeleting p f now)) = w s /\ r (exec s (ADeleting p f now)) = r s.
Proof. unfold exec. simpl. by destruct (deleting _ _ _ _ _) as [[]|]. Qed.

Lemma writer_exec (f : option error) (now : Z) (s : System) :
  dying (q s) = true ->
  (wsteps (w (exec s (AWriting PickDying f now))) <= pred (wsteps (w s)))%nat.
Proof.
  intros Hd. unfold exec. simpl. unfold writing.
  destruct (w s) as [buf|begin msgs n closing|] eqn:Hw.
  - rewrite Hd. unfold writing_add, add_store. destruct buf as [|e0 buf]; [simpl; lia|].
    destruct (encode (offset (q s)) (e0 :: buf)) as [[ds ms]|]; [|simpl; lia].
    destruct (store.Put _ _ _ _ _); simpl; lia.
  - destruct closing; simpl; lia.
  - simpl. rewrite Hw. simpl. lia.
Qed.

Lemma deleter_exec (f : option error) (now : Z) (s : System) :
  dying (q s) = true ->
  (dsteps (d (exec s (ADeleting PickDying f now))) <= pred (dsteps (d s)))%nat.
Proof.
  intros Hd. unfold exec. simpl. unfold deleting.
  destruct (d s) as [buf|buf|] eqn:Hds.
  - rewrite Hd. destruct (delete f (q s) buf) as [q1 b1]. simpl. lia.
  - simpl. lia.
  - simpl. rewrite Hds. simpl. lia.
Qed.

Lemma reader_exec (f : option error) (s : System) :
  dying (q s) = true -> reader_ok (r s) ->
  (rsteps (r (exec s (AReading PickDying f))) <= pred (rsteps (r s)))%nat.
Proof.
  intros Hd Hok. unfold exec. simpl. unfold reading.
  destruct (r s) as [|begin|begin end_ buf|begin buf i|err] eqn:Hr.
  - simpl bucket. destruct (store.MinOffset _ _); simpl; lia.
  - rewrite Hd. simpl. lia.
  - destruct ((length buf =? 0)%nat && negb (begin =? end_)).
    + destruct (get f (q s) begin end_) as [q1 [[|e1 evs]|err]]; simpl; lia.
    + destruct buf as [|e0 buf]; simpl; lia.
  - simpl in Hok. simpl rsteps. destruct (buf !! i) as [e|] eqn:Hi.
    + rewrite Hd. simpl. lia.
    + destruct (last buf) as [e|] eqn:Hl; [|by apply last_None in Hl].
      simpl. lia.
  - simpl. rewrite Hr. simpl. lia.
Qed.

(** X8: Close does not hang on the goroutines.  In any state the queue
    reaches from NewPersistence and in which it is dying, two steps of
    each goroutine on the dying signal are enough for all three to have
    returned, whatever the bucket does (any call may fail) and however
    full the channels are; the queue is still dying, so the bucket can be
    closed. *)
Theorem dying_queue_shuts_down (fault : option error) (c : Config)
    (b : store.BatchBucket) (s0 : System) (acts : list action)
    (fw1 fw2 fr1 fr2 fd1 fd2 : option error) (now : Z) (clean : bool) :
  start fault c b = Ok s0 ->
  dying (q (run s0 acts)) = true ->
  let s' := run (run s0 acts) (shutdown fw1 fw2 fr1 fr2 fd1 fd2 now) in
  exited s' = true /\ dying (q s') = true
  /\ is_Some (step (ACloseBucket clean) s').
Proof.
  intros Hs Hd s'.
  assert (Hok : reader_ok (r (run s0 acts))).
  { apply run_reader_ok. unfold start in Hs.
    destruct (NewPersistence fault c b); by inversion Hs. }
  set (s := run s0 acts) in *.
  set (s1 := exec s (AWriting PickDying fw1 now)).
  set (s2 := exec s1 (AWriting PickDying fw2 now)).
  set (s3 := exec s2 (AReading PickDying fr1)).
  set (s4 := exec s3 (AReading PickDying fr2)).
  set (s5 := exec s4 (ADeleting PickDying fd1 now)).
  assert (Hs' : s' = exec s5 (ADeleting PickDying fd2 now)) by reflexivity.
  assert (D1 : dying (q s1) = true) by by apply exec_dying.
  assert (D2 : dying (q s2) = true) by by apply exec_dying.
  assert (D3 : dying (q s3) = true) by by apply exec_dying.
  assert (D4 : dying (q s4) = true) by by apply exec_dying.
  assert (D5 : dying (q s5) = true) by by apply exec_dying.
  assert (D6 : dying (q s') = true) by (rewrite Hs'; by apply exec_dying).
  assert (O2 : reader_ok (r s2)) by (by do 2 apply exec_reader_ok).
  assert (O3 : reader_ok (r s3)) by by apply exec_reader_ok.
  pose proof (writer_exec fw1 now s Hd) as W1.
  pose proof (writer_exec fw2 now s1 D1) as W2.
  pose proof (reader_exec fr1 s2 D2 O2) as R1.
  pose proof (reader_exec fr2 s3 D3 O3) as R2.
  pose proof (deleter_exec fd1 now s4 D4) as L1.
  pose proof (deleter_exec fd2 now s5 D5) as L2.
  fold s1 in W1. fold s2 in W2. fold s3 in R1. fold s4 in R2. fold s5 in L1.
  rewrite <- Hs' in L2.
  assert (Hw : w s' = w s2).
  { rewrite Hs'. rewrite (proj1 (exec_deleting_others _ _ _ _)).
    unfold s5. rewrite (proj1 (exec_deleting_others _ _ _ _)).
    unfold s4. rewrite (proj1 (exec_reading_others _ _ _)).
    unfold s3. by rewrite (proj1 (exec_reading_others _ _ _)). }
  assert (Hr : r s' = r s4).
  { rewrite Hs'. rewrite (proj2 (exec_deleting_others _ _ _ _)).
    unfold s5. by rewrite (proj2 (exec_deleting_others _ _ _ _)). }
  pose proof (wsteps_le (w s)) as B1. pose proof (rsteps_le (r s2)) as B2.
  pose proof (dsteps_le (d s4)) as B3.
  assert (Hw0 : w s' = WExit) by (rewrite Hw; apply wsteps_0; lia).
  assert (Hr0 : exists err, r s' = RExit err) by (rewrite Hr; apply rsteps_0; lia).
  assert (Hd0 : d s' = DExit) by (apply dsteps_0; lia).
  destruct Hr0 as [err Hr0].
  assert (He : exited s' = true) by (unfold exited; by rewrite Hw0, Hr0, Hd0).
  split; [done|]. split; [done|].
  unfold step. rewrite He, D6. by eexists.
Qed.

End Frames.

(** ** The offset over a run *)

Section Offsets.

Context `{codec : proto.Codec}.

Lemma reading_offset_input (p : pick) (fault : option error)
    (q q' : Persistence) (r r' : reader) :
  reading p fault q r = Some (q', r') ->
  offset q' = offset q /\ input q' = input q.
Proof.
  unfold reading. destruct r as [|begin|begin end_ buf|begin buf i|err]; [| | | |done].
  - simpl bucket. by destruct (store.MinOffset _ _); intros [= <- <-].
  - destruct p; try done.
    + destruct (eget q); [|done].
      pose proof (reading_lock_frame (with_eget q false) begin) as Hf.
      destruct (reading_lock _ _) as [[q1 e1] b1]. intros [= <- <-]. simpl in Hf.
      split; [by apply (f_equal offset) in Hf | by apply (f_equal input) in Hf].
    + destruct (dying q); [|done]. by intros [= <- <-].
  - destruct (get_frame fault q begin end_) as (_ & _ & Hf).
    destruct ((length buf =? 0)%nat && negb (begin =? end_)).
    + destruct (get fault q begin end_) as [q1 got]. simpl in Hf.
      assert (offset q1 = offset q /\ input q1 = input q) as [H1 H2]
        by (split; [by apply (f_equal offset) in Hf | by apply (f_equal input) in Hf]).
      by destruct got as [[|e1 evs]|err]; intros [= <- <-].
    + by destruct buf; intros [= <- <-].
  - destruct (buf !! i).
    + destruct p; try done.
      * simpl cfg. destruct (room _ _); [|done]. by intros [= <- <-].
      * destruct (dying q); [|done]. by intros [= <- <-].
    + destruct (last buf); [|done]. by intros [= <- <-].
Qed.

Lemma writing_budget (bound : Z) (p : pick) (fault : option error) (now : Z)
    (s : System) (q' : Persistence) (w' : writer) :
  bound < 2 ^ 64 -> budget bound s ->
  writing p fault now (q s) (w s) = Some (q', w') ->
  budget bound {| q := q'; w := w'; r := r s; d := d s |}
  /\ offset (q s) <= offset q'.
Proof.
  intros Hb [B1 B2]. unfold budget. simpl. unfold writing.
  assert (Hadd : forall q0 buf closing,
            0 <= offset q0 ->
            offset q0 + Z.of_nat (length buf + length (input q0)) <= bound ->
            writing_add fault now q0 buf closing = (q', w') ->
            (0 <= offset q'
             /\ offset q' + Z.of_nat (pending w' + length (input q')) <= bound)
            /\ offset q0 <= offset q').
  { intros q0 buf closing H0 H1 H. unfold writing_add in H.
    pose proof (add_store_frame fault now q0 buf) as Hf.
    assert (Hn : match add_store fault now q0 buf with
                 | Stored _ _ _ n => n = length buf | Dropped _ => True end).
    { unfold add_store. destruct buf; [done|]. destruct (encode _ _) as [[]|]; [|done].
      by destruct (store.Put _ _ _ _ _). }
    destruct (add_store fault now q0 buf) as [q1 b1 m1 n1|q1]; inversion H; subst;
      apply (f_equal offset) in Hf as Ho; apply (f_equal input) in Hf as Hi;
      simpl in Ho, Hi; rewrite Ho, Hi.
    - simpl. split; [split|]; lia.
    - destruct closing; simpl; (split; [split|]; lia). }
  destruct (w s) as [buf|begin msgs n closing|]; [| |done].
  - simpl in B2. destruct p; try done.
    + destruct (input (q s)) as [|e rest] eqn:Hin; [done|]. simpl cfg.
      simpl in B2. destruct (_ =? _).
      * intros [= H]. apply Hadd in H; [done | done |].
        simpl. rewrite length_app. simpl. lia.
      * intros [= <- <-]. simpl. rewrite length_app. simpl. split; [split|]; lia.
    + intros [= H]. apply Hadd in H; done.
    + destruct (dying (q s)); [|done]. intros [= H]. apply Hadd in H; done.
  - simpl in B2. intros [= <- <-].
    assert (Hp : pending (if closing then WExit else WLoop []) = 0%nat)
      by by destruct closing.
    rewrite Hp. unfold add_commit. destruct (disable (q s)); [split; [split|]; lia|].
    assert (Hoff : forall c, offset (if Z.of_nat (length (cache (q s))) <? MaxBatchCacheSize (cfg (q s))
                     then with_cache (q s) c else q s) = offset (q s))
      by (intros c; by destruct (_ <? _)).
    assert (Hinp : forall c, input (if Z.of_nat (length (cache (q s))) <? MaxBatchCacheSize (cfg (q s))
                     then with_cache (q s) c else q s) = input (q s))
      by (intros c; by destruct (_ <? _)).
    simpl. rewrite Hoff, Hinp, u64_small by lia. split; [split|]; lia.
Qed.

Lemma step_budget (bound : Z) (a : action) (s s' : System) :
  bound + push1 a < 2 ^ 64 -> budget bound s -> step a s = Some s' ->
  budget (bound + push1 a) s' /\ offset (q s) <= offset (q s').
Proof.
  intros Hb [B1 B2] Hs.
  pose proof (step_quiet_cases a s s') as Hq.
  destruct a as [p e|p|p i| | |p f now|p f|p f now|clean];
    try (destruct (Hq Hs) as (Hw & _ & Q1 & Q2 & _);
         unfold budget; rewrite Hw, Q1, Q2; simpl; split; [split|]; lia).
  - simpl in Hs. unfold Push in Hs. destruct p; try done.
    + destruct (room _ _); [|done]. inversion Hs; subst; simpl.
      unfold budget. simpl. rewrite length_app. simpl. split; [split|]; lia.
    + destruct (dying (q s)); [|done]. inversion Hs; subst; simpl.
      unfold budget. simpl. split; [split|]; lia.
  - simpl in Hs. destruct (writing p f now (q s) (w s)) as [[q1 w1]|] eqn:Hw; [|done].
    inversion Hs; subst. simpl push1. rewrite Z.add_0_r in *.
    by apply (writing_budget bound p f now s q1 w1).
  - simpl in Hs. destruct (reading p f (q s) (r s)) as [[q1 r1]|] eqn:Hr; [|done].
    inversion Hs; subst. apply reading_offset_input in Hr as [H1 H2].
    unfold budget. simpl. rewrite H1, H2. split; [split|]; lia.
  - simpl in Hs. destruct (deleting p f now (q s) (d s)) as [[q1 d1]|] eqn:Hd; [|done].
    inversion Hs; subst.
    apply deleting_quiet_or_drop in Hd
      as [(H1 & H2 & _) | (index & q2 & (H1 & H2 & _) & ->)].
    + unfold budget. simpl. rewrite H1, H2. split; [split|]; lia.
    + unfold budget. simpl. rewrite H1, H2. split; [split|]; lia.
Qed.

Lemma pushes_cons (a : action) (acts : list action) :
  Z.of_nat (pushes (a :: acts)) = push1 a + Z.of_nat (pushes acts).
Proof. unfold pushes. destruct a; simpl; lia. Qed.

Lemma pushes_app (acts1 acts2 : list action) :
  pushes (acts1 ++ acts2) = (pushes acts1 + pushes acts2)%nat.
Proof. unfold pushes. by rewrite List.filter_app, length_app. Qed.

Lemma run_budget (acts : list action) : forall (bound : Z) (s : System),
  bound + Z.of_nat (pushes acts) < 2 ^ 64 -> budget bound s ->
  budget (bound + Z.of_nat (pushes acts)) (run s acts)
  /\ offset (q s) <= offset (q (run s acts)).
Proof.
  induction acts as [|a acts IH]; intros bound s Hb Hbud.
  - simpl. replace (bound + Z.of_nat (pushes [])) with bound by (unfold pushes; simpl; lia).
    split; [done | lia].
  - rewrite pushes_cons in *. simpl.
    assert (Hex : budget (bound + push1 a) (exec s a)
                  /\ offset (q s) <= offset (q (exec s a))).
    { unfold exec. destruct (step a s) as [s'|] eqn:Hs; simpl.
      - apply (step_budget bound a s s'); [|done|done].
        pose proof (Nat2Z.is_nonneg (pushes acts)). lia.
      - destruct Hbud as [B1 B2]. split; [split|]; try lia.
        destruct a; simpl; lia. }
    destruct Hex as [Hbud' Hle].
    destruct (IH (bound + push1 a) (exec s a)) as [I1 I2]; [lia | done |].
    rewrite Z.add_assoc. split; [done | lia].
Qed.

(** X9: q.offset only grows, and never past the pushes.  Over any run
    from NewPersistence in which the offset cannot wrap, the offset at
    any point is at least what it was earlier in the run and at most the
    offset the queue started from plus the number of pushes made so
    far. *)
Theorem offset_grows_with_pushes (fault : option error) (c : Config)
    (b : store.BatchBucket) (s0 : System) (acts1 acts2 : list action) :
  start fault c b = Ok s0 ->
  offset (q s0) + Z.of_nat (pushes (acts1 ++ acts2)) < 2 ^ 64 ->
  offset (q s0) <= offset (q (run s0 acts1))
  /\ offset (q (run s0 acts1)) <= offset (q (run s0 (acts1 ++ acts2)))
  /\ offset (q (run s0 (acts1 ++ acts2)))
     <= offset (q s0) + Z.of_nat (pushes (acts1 ++ acts2)).
Proof.
  intros Hs Hb. rewrite pushes_app, Nat2Z.inj_add in Hb.
  assert (H0 : budget (offset (q s0)) s0).
  { unfold start, NewPersistence in Hs.
    destruct (store.MaxOffset fault b) as [off|] eqn:Hm; [|done].
    inversion Hs; subst. unfold budget. simpl. split; [|lia].
    destruct fault; [done|]. by eapply MaxOffset_nonneg. }
  destruct (run_budget acts1 (offset (q s0)) s0) as [H1 L1]; [lia | done |].
  destruct (run_budget acts2 (offset (q s0) + Z.of_nat (pushes acts1)) (run s0 acts1))
    as [[_ H2] L2]; [lia | done |].
  unfold run in *. rewrite fold_left_app.
  rewrite pushes_app, Nat2Z.inj_add. split_and!; try done. lia.
Qed.

End Offsets.

(** ** Delivery after commit *)

Section Durability.

Context `{codec : proto.Codec}.

Lemma committed_quiet (q q' : Persistence) (w : writer) (r : reader) :
  quiet q q' -> committed q w r -> committed q' w r.
Proof.
  intros (A1 & A2 & A3 & A4 & _) (C1 & C2 & C3 & C4).
  unfold committed, sent_ids in *. rewrite A1, A3, A4. done.
Qed.

Lemma committed_writer_idle (q : Persistence) (w w' : writer) (r : reader) :
  match w' with WCommit _ _ _ _ => False | _ => True end ->
  committed q w r -> committed q w' r.
Proof.
  intros Hw (C1 & C2 & C3 & C4). unfold committed. split_and!; try done.
  by destruct w'.
Qed.

Lemma writing_committed (rem : nat) (p : pick) (fault : option error) (now : Z)
    (q q' : Persistence) (w w' : writer) (r : reader) :
  inv rem q w r -> committed q w r ->
  writing p fault now q w = Some (q', w') -> committed q' w' r.
Proof.
  intros Hinv Hc. unfold writing.
  assert (Hadd : forall q0 buf closing,
            0 <= offset q0 ->
            offset q0 + Z.of_nat (length buf) < 2 ^ 64 - 1 ->
            committed q0 (WLoop buf) r ->
            writing_add fault now q0 buf closing = (q', w') ->
            committed q' w' r).
  { intros q0 buf closing H0 Hb Hc0 H. unfold writing_add in H.
    pose proof (add_store_quiet fault now q0 buf) as Hq.
    destruct (add_store fault now q0 buf) as [q1 b1 m1 n1|q1] eqn:Ha;
      inversion H; subst.
    - apply (committed_quiet _ _ _ _ Hq) in Hc0.
      destruct Hc0 as (C1 & _ & C3 & C4). unfold committed. split_and!; try done.
      + destruct Hq as (-> & _). unfold add_store in Ha.
        destruct buf as [|e0 buf]; [done|].
        destruct (encode _ _) as [[ds ms]|]; [|done]. simpl bucket in Ha.
        destruct (store.Put _ _ _ _ _); [|done]. inversion Ha; subst.
        apply u64_small. simpl length in Hb. lia.
      + unfold add_store in Ha. destruct buf as [|e0 buf]; [done|].
        destruct (encode _ _) as [[ds ms]|] eqn:He; [|done]. simpl bucket in Ha.
        destruct (store.Put _ _ _ _ _); [|done]. inversion Ha; subst.
        by destruct (encode_length _ _ _ _ He).
    - apply (committed_quiet _ _ _ _ Hq) in Hc0.
      eapply committed_writer_idle; [|exact Hc0]. by destruct closing. }
  destruct Hinv as (B1 & B2 & B3 & B4 & B5 & B6 & B7).
  destruct w as [buf|begin msgs n closing|]; [| |done].
  - simpl in B2. destruct p; try done.
    + destruct (input q) as [|e rest] eqn:Hin; [done|]. simpl cfg.
      simpl in B2.
      assert (Hc1 : committed (with_input q rest) (WLoop (buf ++ [e])) r).
      { destruct Hc as (C1 & C2 & C3 & C4). by unfold committed. }
      destruct (_ =? _).
      * intros [= H]. eapply Hadd; [| |exact Hc1|exact H]; simpl; [done|].
        rewrite length_app. simpl. lia.
      * by intros [= <- <-].
    + intros [= H]. eapply Hadd; [| |exact Hc|exact H]; [done | lia].
    + destruct (dying q); [|done]. intros [= H].
      eapply Hadd; [| |exact Hc|exact H]; [done | lia].
  - intros [= <- <-]. destruct Hc as (C1 & [-> Hn] & C3 & C4).
    simpl in B2.
    assert (Hidle : match (if closing then WExit else WLoop [])
                    with WCommit _ _ _ _ => False | _ => True end)
      by by destruct closing.
    unfold add_commit. destruct (disable q).
    { unfold committed. split_and!; try done. by destruct closing. }
    assert (Hoff : forall c, offset (if Z.of_nat (length (cache q)) <? MaxBatchCacheSize (cfg q)
                     then with_cache q c else q) = offset q)
      by (intros c; by destruct (_ <? _)).
    assert (Htr : forall c, trace (if Z.of_nat (length (cache q)) <? MaxBatchCacheSize (cfg q)
                     then with_cache q c else q) = trace q)
      by (intros c; by destruct (_ <? _)).
    unfold committed. simpl. rewrite Hoff, Htr, u64_small by lia.
    split_and!.
    + destruct (_ <? _); simpl.
      * apply Forall_app. split.
        -- eapply Forall_impl; [exact C1|]. simpl. intros; lia.
        -- constructor; [|constructor]. simpl. lia.
      * eapply Forall_impl; [exact C1|]. simpl. intros; lia.
    + by destruct closing.
    + eapply Forall_impl; [exact C3|]. simpl. intros; lia.
    + destruct r; try done.
      * destruct C4 as [C4 C5]. split; [lia|].
        eapply Forall_impl; [exact C5|]. simpl. intros; lia.
      * eapply Forall_impl; [exact C4|]. simpl. intros; lia.
Qed.

Lemma reading_lock_committed (q : Persistence) (begin : Z) :
  Forall wf_batch (cache q) ->
  Forall (fun b => batchMsgs.offset b + Z.of_nat (length (batchMsgs.data b))
                   <= offset q + 1) (cache q) ->
  0 <= offset q -> offset q + 1 < 2 ^ 64 ->
  (reading_lock q begin).1.2 <= offset q + 1
  /\ Forall (fun k => k <= offset q) (EventID <$> (reading_lock q begin).2).
Proof.
  intros Hwf Hc H0 Hb. unfold reading_lock.
  pose proof (u64_small (offset q + 1) ltac:(lia)) as Hu.
  destruct (cache q) as [|c rest] eqn:Hcq; simpl.
  - rewrite Hu. split; [destruct (_ <? _) eqn:Hlt; lia | constructor].
  - inversion Hwf as [|? ? (Hne & Hids & Hc0 & Hlt) _]; subst.
    inversion Hc as [|? ? Hle _]; subst.
    destruct (begin =? batchMsgs.offset c) eqn:Hbe; simpl.
    + split.
      * destruct (_ =? 0); destruct (_ <? _) eqn:Hl; lia.
      * rewrite Hids. apply Forall_forall. intros k Hk.
        apply elem_of_seqZ in Hk. lia.
    + split; [|constructor].
      destruct (_ =? 0); destruct (_ <? _) eqn:Hl; lia.
Qed.

Lemma reading_committed (rem : nat) (p : pick) (fault : option error)
    (q q' : Persistence) (w : writer) (r r' : reader) :
  inv rem q w r -> committed q w r ->
  reading p fault q r = Some (q', r') -> committed q' w r'.
Proof.
  intros (B1 & B2 & B3 & B4 & B5 & B6 & B7) Hc. unfold reading.
  destruct r as [|begin|begin end_ buf|begin buf i|err]; [| | | |done].
  - simpl bucket.
    assert (Hq : quiet q (emit q [BucketMinOffset])) by by apply quiet_emit.
    apply (committed_quiet _ _ _ _ Hq) in Hc. destruct Hc as (C1 & C2 & C3 & _).
    by destruct (store.MinOffset _ _); intros [= <- <-].
  - destruct p; try done.
    + destruct (eget q); [|done].
      pose proof (reading_lock_spec (with_eget q false) begin) as Hl.
      pose proof (reading_lock_committed (with_eget q false) begin) as Hlc.
      destruct (reading_lock (with_eget q false) begin) as [[q1 e1] b1].
      intros [= <- <-]. simpl in Hl, Hlc.
      destruct Hl as (L1 & L2 & L3 & L4 & L5 & L6 & [k L7] & L8).
      destruct Hc as (C1 & C2 & C3 & _).
      destruct (Hlc B3 C1 B1 ltac:(lia)) as [E1 E2].
      unfold committed. rewrite L1, L3. split_and!; try done.
      rewrite L7 in C1. by apply Forall_app in C1 as [_ C1].
    + destruct (dying q); [|done]. intros [= <- <-].
      destruct Hc as (C1 & C2 & C3 & _). by unfold committed.
  - destruct Hc as (C1 & C2 & C3 & C4 & C5).
    destruct buf as [|e0 buf]; simpl length; simpl andb; cbv iota.
    + destruct (begin =? end_) eqn:Hbe; simpl negb; cbv iota.
      * by intros [= <- <-].
      * pose proof (get_quiet fault q begin end_) as Hq.
        pose proof (get_ok_ids fault q begin end_) as Hids.
        destruct (get fault q begin end_) as [q1 got]. simpl in Hq, Hids.
        assert (Hc1 : committed q1 w (RWait begin))
          by (by apply (committed_quiet _ _ _ _ Hq)).
        destruct Hc1 as (D1 & D2 & D3 & _).
        destruct Hq as (Ho & _).
        destruct got as [[|e1 evs]|err]; intros [= <- <-].
        -- by unfold committed.
        -- specialize (Hids _ eq_refl).
           destruct (scan_keys (bucket q) begin end_) as [_ S2].
           rewrite <- Hids in S2.
           unfold committed. split_and!; try done.
           eapply Forall_impl; [exact S2|]. simpl. intros; lia.
        -- assert (Hq' : quiet q1 (emit q1
                      [LogError "failed to get message from backend database" err]))
             by by apply quiet_emit.
           apply (committed_quiet _ _ _ _ Hq'). by unfold committed.
    + intros [= <- <-]. by unfold committed.
  - destruct Hc as (C1 & C2 & C3 & C4).
    destruct (buf !! i) as [e|] eqn:Hi.
    + destruct p; try done.
      * simpl cfg. destruct (room _ _); [|done]. intros [= <- <-].
        unfold committed. simpl. rewrite sent_ids_snoc. split_and!; try done.
        apply Forall_app. split; [done|]. constructor; [|constructor].
        apply (proj1 (Forall_forall _ _) C4).
        apply list_elem_of_fmap_2. by eapply list_elem_of_lookup_2.
      * destruct (dying q); [|done]. intros [= <- <-]. by unfold committed.
    + destruct (last buf); [|done]. intros [= <- <-]. by unfold committed.
Qed.

Lemma deleting_committed (p : pick) (fault : option error) (now : Z)
    (q q' : Persistence) (w : writer) (r : reader) (d d' : deleter) :
  committed q w r -> deleting p fault now q d = Some (q', d') -> committed q' w r.
Proof.
  intros Hc Hd.
  apply deleting_quiet_or_drop in Hd as [Hq | (index & q1 & Hq & ->)].
  - by eapply committed_quiet.
  - apply (committed_quiet _ _ _ _ Hq) in Hc. destruct Hc as (C1 & C2 & C3 & C4).
    unfold committed. simpl. split_and!; try done. by apply Forall_drop.
Qed.

Lemma step_committed (a : action) (acts : list action) (s s' : System) :
  sys_inv (pushes (a :: acts)) s -> committed (q s) (w s) (r s) ->
  step a s = Some s' -> committed (q s') (w s') (r s').
Proof.
  unfold sys_inv. intros Hinv Hc Hs.
  pose proof (step_quiet_cases a s s') as Hq.
  destruct a as [p e|p|p i| | |p f now|p f|p f now|clean];
    try (destruct (Hq Hs) as (-> & -> & Q1 & Q2 & Q3 & Q4 & _);
         destruct Hc as (C1 & C2 & C3 & C4);
         unfold committed, sent_ids in *; by rewrite Q1, Q3, Q4).
  - simpl in Hs. unfold Push in Hs. destruct p; try done.
    + destruct (room _ _); [|done]. by inversion Hs; subst.
    + destruct (dying (q s)); [|done]. by inversion Hs; subst.
  - simpl in Hs. destruct (writing p f now (q s) (w s)) as [[q1 w1]|] eqn:Hw; [|done].
    inversion Hs; subst; simpl. by eapply writing_committed.
  - simpl in Hs. destruct (reading p f (q s) (r s)) as [[q1 r1]|] eqn:Hr; [|done].
    inversion Hs; subst; simpl. by eapply reading_committed.
  - simpl in Hs. destruct (deleting p f now (q s) (d s)) as [[q1 d1]|] eqn:Hd; [|done].
    inversion Hs; subst; simpl. by eapply deleting_committed.
Qed.

Lemma run_committed (acts : list action) : forall s : System,
  sys_inv (pushes acts) s -> committed (q s) (w s) (r s) ->
  committed (q (run s acts)) (w (run s acts)) (r (run s acts)).
Proof.
  induction acts as [|a acts IH]; intros s Hinv Hc; [done|].
  simpl. apply IH; [by apply exec_inv|].
  unfold exec. destruct (step a s) as [s'|] eqn:Hs; simpl; [|done].
  by eapply step_committed.
Qed.

(** X10: nothing is delivered before it is committed.  Over any run from
    NewPersistence (bucket offsets unsigned, no wrap-around), every event
    sent on the egress channel has an offset at or below q.offset at that
    time and ever after: it belongs to a batch whose put had succeeded
    and whose producers' done had been fired before the reader could see
    it. *)
Theorem sent_offsets_are_committed (fault : option error) (c : Config)
    (b : store.BatchBucket) (s0 : System) (acts : list action) :
  start fault c b = Ok s0 ->
  store.valid b ->
  offset (q s0) + Z.of_nat (pushes acts) < 2 ^ 64 - 1 ->
  Forall (fun k => k <= offset (q (run s0 acts)))
         (sent_ids (trace (q (run s0 acts)))).
Proof.
  intros Hs Hv Hb.
  pose proof (start_inv fault c b s0 _ Hs Hv Hb) as Hinv.
  assert (Hc : committed (q s0) (w s0) (r s0)).
  { unfold start, NewPersistence in Hs.
    destruct (store.MaxOffset fault b); [|done]. inversion Hs; subst.
    unfold committed. simpl. split_and!; try done; constructor. }
  by destruct (run_committed acts s0 Hinv Hc) as (_ & _ & H & _).
Qed.

End Durability.

(** ** Capacity *)

Section Capacity.

Context `{codec : proto.Codec}.

Lemma room_bound {A : Type} (ch : list A) (n : Z) (x : A) :
  1 <= n -> room ch n = true -> Z.of_nat (length (ch ++ [x])) <= n.
Proof.
  unfold room. intros Hn H. apply Z.ltb_lt in H. rewrite length_app. simpl. lia.
Qed.

Lemma writing_add_bounded (fault : option error) (now : Z) (q0 q' : Persistence)
    (buf : list Event) (closing : bool) (w' : writer) :
  Z.of_nat (length buf) <= BatchSize (cfg q0) -> 1 <= BatchSize (cfg q0) ->
  writing_add fault now q0 buf closing = (q', w') ->
  with_trace (with_bucket q' (bucket q0)) (trace q0) = q0
  /\ match w' with
     | WLoop buf' => Z.of_nat (length buf') < BatchSize (cfg q0)
     | WCommit _ msgs k _ => 1 <= Z.of_nat (length msgs) <= BatchSize (cfg q0)
     | WExit => True
     end.
Proof.
  intros Hl Hn H. unfold writing_add in H.
  pose proof (add_store_frame fault now q0 buf) as Hf.
  unfold add_store in *. destruct buf as [|e0 buf].
  { inversion H; subst. split; [done|]. destruct closing; simpl; lia. }
  destruct (encode (offset q0) (e0 :: buf)) as [[ds ms]|err] eqn:He.
  - simpl bucket in *. destruct (store.Put _ _ _ _ _).
    + inversion H; subst. split; [done|].
      destruct (encode_length _ _ _ _ He) as [_ ->]. simpl length in *. lia.
    + inversion H; subst. split; [done|]. destruct closing; simpl; lia.
  - inversion H; subst. split; [done|]. destruct closing; simpl; lia.
Qed.

Lemma delete_buffer (fault : option error) (q0 : Persistence) (buf : list Z) :
  (delete fault q0 buf).2 = [].
Proof.
  unfold delete. destruct (last buf) eqn:Hl.
  - by destruct (store.DelBeforeID _ _ _).
  - by apply last_None in Hl as ->.
Qed.

Lemma step_bounded (n : Z) (a : action) (s s' : System) :
  1 <= n -> bounded n s -> step a s = Some s' -> bounded n s'.
Proof.
  intros Hn (<- & B1 & B2 & B3 & B4 & B5 & B6) Hs.
  destruct a as [p e|p|p i| | |p f now|p f|p f now|clean]; simpl in Hs.
  - unfold Push in Hs. destruct p; try done.
    + destruct (room _ _) eqn:Hr; [|done]. inversion Hs; subst.
      unfold bounded; simpl. split_and!; try done. by apply room_bound.
    + destruct (dying (q s)); [|done]. by inversion Hs; subst.
  - unfold Pop in Hs. destruct p; try done.
    + destruct (output (q s)) as [|e rest] eqn:Ho; [done|]. inversion Hs; subst.
      unfold bounded; simpl. split_and!; try done. simpl in B2. lia.
    + destruct (dying (q s)); [|done]. by inversion Hs; subst.
  - unfold acknowledge in Hs. destruct p; try done.
    + destruct (room _ _) eqn:Hr; [|done]. inversion Hs; subst.
      unfold bounded; simpl. split_and!; try done. by apply room_bound.
    + destruct (dying (q s)); [|done]. by inversion Hs; subst.
  - by inversion Hs; subst.
  - by inversion Hs; subst.
  - destruct (writing p f now (q s) (w s)) as [[q1 w1]|] eqn:Hw; [|done].
    inversion Hs; subst. unfold bounded; simpl. unfold writing in Hw.
    assert (Hadd : forall q0 buf closing,
              Z.of_nat (length buf) <= BatchSize (cfg q0) -> 1 <= BatchSize (cfg q0) ->
              writing_add f now q0 buf closing = (q1, w1) ->
              cfg q1 = cfg q0 /\ input q1 = input q0 /\ output q1 = output q0
              /\ edel q1 = edel q0 /\ cache q1 = cache q0
              /\ match w1 with
                 | WLoop buf' => Z.of_nat (length buf') < BatchSize (cfg q0)
                 | WCommit _ msgs k _ => 1 <= Z.of_nat (length msgs) <= BatchSize (cfg q0)
                 | WExit => True
                 end).
    { intros q0 buf closing H1 H2 H.
      destruct (writing_add_bounded _ _ _ _ _ _ _ H1 H2 H) as [Hf Hw1].
      split_and!; try done.
      - by apply (f_equal cfg) in Hf.
      - by apply (f_equal input) in Hf.
      - by apply (f_equal output) in Hf.
      - by apply (f_equal edel) in Hf.
      - by apply (f_equal cache) in Hf. }
    destruct (w s) as [buf|begin msgs k closing|]; [| |done].
    + destruct p; try done.
      * destruct (input (q s)) as [|e rest] eqn:Hi; [done|]. simpl cfg in Hw.
        destruct (_ =? _) eqn:Hfull.
        -- inversion Hw as [Hw']. apply Hadd in Hw'; simpl.
           ++ destruct Hw' as (-> & -> & -> & -> & -> & Hw1). simpl.
              split_and!; try done; try (simpl in B1; lia); try done.
           ++ apply Z.eqb_eq in Hfull. simpl cfg. lia.
           ++ simpl. lia.
        -- inversion Hw; subst. simpl. split_and!; try done; [simpl in B1; lia|].
           apply Z.eqb_neq in Hfull. rewrite length_app in *. simpl in *. lia.
      * inversion Hw as [Hw']. apply Hadd in Hw'; [|lia..].
        destruct Hw' as (-> & -> & -> & -> & -> & Hw1). by split_and!.
      * destruct (dying (q s)); [|done].
        inversion Hw as [Hw']. apply Hadd in Hw'; [|lia..].
        destruct Hw' as (-> & -> & -> & -> & -> & Hw1). by split_and!.
    + inversion Hw; subst.
      pose proof (add_commit_frame (q s) begin msgs k) as Hf.
      split_and!.
      * apply (f_equal cfg) in Hf. simpl in Hf. by rewrite Hf.
      * apply (f_equal input) in Hf. simpl in Hf. by rewrite Hf.
      * apply (f_equal output) in Hf. simpl in Hf. by rewrite Hf.
      * apply (f_equal edel) in Hf. simpl in Hf. by rewrite Hf.
      * destruct closing; simpl; lia.
      * done.
      * unfold add_commit. destruct (disable (q s)); [done|].
        destruct (_ <? _); simpl; [|done].
        apply Forall_app. split; [done|]. by constructor.
  - destruct (reading p f (q s) (r s)) as [[q1 r1]|] eqn:Hr; [|done].
    inversion Hs; subst. unfold bounded; simpl. unfold reading in Hr.
    destruct (r s) as [|begin|begin end_ buf|begin buf i|err]; [| | | |done].
    + simpl bucket in Hr. by destruct (store.MinOffset _ _); inversion Hr; subst.
    + destruct p; try done.
      * destruct (eget (q s)); [|done].
        pose proof (reading_lock_frame (with_eget (q s) false) begin) as Hf.
        pose proof (reading_lock_spec (with_eget (q s) false) begin) as Hl.
        destruct (reading_lock _ _) as [[q2 e2] b2]. inversion Hr; subst.
        simpl in Hf, Hl. destruct Hl as (_ & _ & _ & _ & _ & _ & [k Hk] & _).
        simpl in Hk. split_and!; try done.
        -- apply (f_equal cfg) in Hf. simpl in Hf. by rewrite Hf.
        -- apply (f_equal input) in Hf. simpl in Hf. by rewrite Hf.
        -- apply (f_equal output) in Hf. simpl in Hf. by rewrite Hf.
        -- apply (f_equal edel) in Hf. simpl in Hf. by rewrite Hf.
        -- rewrite Hk in B6. by apply Forall_app in B6 as [_ B6].
      * destruct (dying (q s)); [|done]. by inversion Hr; subst.
    + destruct (get_frame f (q s) begin end_) as (_ & _ & Hf).
      destruct ((length buf =? 0)%nat && negb (begin =? end_)).
      * destruct (get f (q s) begin end_) as [q2 got]. simpl in Hf.
        assert (H : BatchSize (cfg q2) = BatchSize (cfg (q s)) /\ input q2 = input (q s)
                    /\ output q2 = output (q s) /\ edel q2 = edel (q s)
                    /\ cache q2 = cache (q s)).
        { split_and!.
          - apply (f_equal cfg) in Hf. simpl in Hf. by rewrite Hf.
          - by apply (f_equal input) in Hf.
          - by apply (f_equal output) in Hf.
          - by apply (f_equal edel) in Hf.
          - by apply (f_equal cache) in Hf. }
        destruct H as (H0 & H1 & H2 & H3 & H4).
        destruct got as [[|e1 evs]|err]; inversion Hr; subst; simpl;
          rewrite ?H1, ?H2, ?H3, ?H4; by split_and!.
      * by destruct buf; inversion Hr; subst.
    + destruct (buf !! i).
      * destruct p; try done.
        -- simpl cfg in Hr. destruct (room _ _) eqn:Hroom; [|done].
           inversion Hr; subst. simpl. split_and!; try done.
           by apply room_bound.
        -- destruct (dying (q s)); [|done]. by inversion Hr; subst.
      * destruct (last buf); [|done]. by inversion Hr; subst.
  - destruct (deleting p f now (q s) (d s)) as [[q1 d1]|] eqn:Hd; [|done].
    inversion Hs; subst. unfold bounded; simpl. unfold deleting in Hd.
    assert (Hdel : forall q0 buf q2 b2,
              delete f q0 buf = (q2, b2) ->
              cfg q2 = cfg q0 /\ input q2 = input q0 /\ output q2 = output q0
              /\ edel q2 = edel q0 /\ cache q2 = cache q0 /\ b2 = []).
    { intros q0 buf q2 b2 H.
      pose proof (delete_frame f q0 buf) as Hf.
      pose proof (delete_buffer f q0 buf) as Hb. rewrite H in Hf, Hb. simpl in *.
      split_and!; try done.
      - by apply (f_equal cfg) in Hf.
      - by apply (f_equal input) in Hf.
      - by apply (f_equal output) in Hf.
      - by apply (f_equal edel) in Hf.
      - by apply (f_equal cache) in Hf. }
    destruct (d s) as [buf|buf|]; [| |done].
    + destruct p; try done.
      * destruct (edel (q s)) as [|e rest] eqn:He; [done|]. simpl cfg in Hd.
        destruct (_ =? _) eqn:Hfull.
        -- destruct (delete _ _ _) as [q2 b2] eqn:Hdd. inversion Hd; subst.
           apply Hdel in Hdd as (-> & -> & -> & -> & -> & ->). simpl.
           split_and!; try done; simpl in B3; lia.
        -- inversion Hd; subst. simpl. split_and!; try done; [simpl in B3; lia|].
           apply Z.eqb_neq in Hfull. rewrite length_app in *. simpl in *. lia.
      * destruct (delete _ _ _) as [q2 b2] eqn:Hdd. inversion Hd; subst.
        apply Hdel in Hdd as (-> & -> & -> & -> & -> & ->). simpl.
        split_and!; try done; lia.
      * unfold clean_lock in Hd. destruct (clean_index _ _ _); [|done].
        inversion Hd; subst. simpl. split_and!; try done. by apply Forall_drop.
      * destruct (dying (q s)); [|done].
        destruct (delete _ _ _) as [q2 b2] eqn:Hdd. inversion Hd; subst.
        apply Hdel in Hdd as (-> & -> & -> & -> & -> & ->). by split_and!.
    + inversion Hd; subst. pose proof (clean_store_frame f now (q s)) as Hf.
      split_and!; try done.
      * apply (f_equal cfg) in Hf. simpl in Hf. by rewrite Hf.
      * apply (f_equal input) in Hf. simpl in Hf. by rewrite Hf.
      * apply (f_equal output) in Hf. simpl in Hf. by rewrite Hf.
      * apply (f_equal edel) in Hf. simpl in Hf. by rewrite Hf.
      * apply (f_equal cache) in Hf. simpl in Hf. by rewrite Hf.
  - destruct (_ && _); [|done]. by inversion Hs; subst.
Qed.

Lemma run_bounded (n : Z) (acts : list action) : forall s : System,
  1 <= n -> bounded n s -> bounded n (run s acts).
Proof.
  induction acts as [|a acts IH]; intros s Hn Hb; [done|].
  simpl. apply IH; [done|]. unfold exec.
  destruct (step a s) as [s'|] eqn:Hs; simpl; [|done]. by eapply step_bounded.
Qed.

(** X11: the queue holds a bounded number of events in memory.  With a
    batch size of at least one, in every state reached from
    NewPersistence each of the three channels holds at most BatchSize
    entries, the writer's and the deleter's buffers hold fewer than
    BatchSize (they are flushed on reaching it), a batch waiting for the
    lock and every cached batch holds between one and BatchSize
    events. *)
Theorem buffers_stay_within_batch_size (fault : option error) (c : Config)
    (b : store.BatchBucket) (s0 : System) (acts : list action) :
  start fault c b = Ok s0 ->
  1 <= BatchSize c ->
  bounded (BatchSize c) (run s0 acts).
Proof.
  intros Hs Hn. apply run_bounded; [done|].
  unfold start, NewPersistence in Hs.
  destruct (store.MaxOffset fault b); [|done]. inversion Hs; subst.
  unfold bounded. simpl. split_and!; try done; lia.
Qed.

End Capacity.

(** * The session and the publisher *)

(** ** Routing of a session *)

Lemma any_qos1_Exists (qs : list Z) :
  session.any_qos1 qs = true <-> Exists (fun q => 0 < q) qs.
Proof.
  induction qs as [|q qs IH]; simpl.
  - split; [done|]. by intros H%Exists_nil.
  - destruct (0 <? q) eqn:Hq.
    + split; [|done]. intros _. left. lia.
    + rewrite IH. split; [by right|]. intros H. inversion H; subst; [lia|done].
Qed.

Lemma any_qos1_none (qs : list Z) :
  session.any_qos1 qs = false <-> Forall (fun q => q <= 0) qs.
Proof.
  induction qs as [|q qs IH]; simpl; [done|].
  destruct (0 <? q) eqn:Hq.
  - split; [done|]. intros H. inversion H; subst. lia.
  - rewrite IH. split.
    + intros H. constructor; [lia | done].
    + intros H. by inversion H.
Qed.

(** X12: a session routes an event to exactly one of its two queues.
    Session.Push is the Push of the QoS-0 queue when the event's QoS is
    0, or when subscriptions match its topic and none of them is above
    QoS 0; it is the Push of the QoS-1 queue when the QoS is not 0 and
    some matching subscription is above QoS 0; it panics exactly when
    the QoS is not 0 and no subscription matches.  Whatever the chosen
    queue's Push returns is returned, and the other queue, the clients
    and the subscriptions are as before.  This holds for any
    implementation of the two queues. *)
Theorem session_push_routes_to_one_queue (p : pick) (s : session.Session)
    (e : Event) :
  let qos := mqtt.QOS (mqtt.Ctx (Message e)) in
  let qs := session.subs s (mqtt.Topic (mqtt.Ctx (Message e))) in
  ((exists msg, session.Push p s e = Some (session.Panic msg))
   <-> qos <> 0 /\ qs = [])
  /\ (qos = 0 \/ (qs <> [] /\ Forall (fun q => q <= 0) qs) ->
      session.Push p s e
      = (fun x => session.Pushed (session.with_qos0 s x.1) x.2)
          <$> session.QPush p (session.qos0 s) e)
  /\ (qos <> 0 /\ Exists (fun q => 0 < q) qs ->
      session.Push p s e
      = (fun x => session.Pushed (session.with_qos1 s x.1) x.2)
          <$> session.QPush p (session.qos1 s) e)
  /\ (forall s' err,
        session.Push p s e = Some (session.Pushed s' err) ->
        session.clis s' = session.clis s /\ session.subs s' = session.subs s
        /\ session.SID s' = session.SID s
        /\ session.CleanSession s' = session.CleanSession s
        /\ (session.qos0 s' = session.qos0 s \/ session.qos1 s' = session.qos1 s)).
Proof.
  intros qos qs. unfold session.Push. fold qos. fold qs.
  destruct (qos =? 0) eqn:Hq.
  - apply Z.eqb_eq in Hq. split_and!.
    + split.
      * intros [msg H]. by destruct (session.QPush p (session.qos0 s) e).
      * by intros [? _].
    + done.
    + by intros [? _].
    + intros s' err H.
      destruct (session.QPush p (session.qos0 s) e) as [[q' err']|]; [|done].
      inversion H; subst. simpl. split_and!; try done. by right.
  - apply Z.eqb_neq in Hq. destruct qs as [|q0 qs'] eqn:Hqs.
    + split_and!.
      * split; [done|]. intros _. by eexists.
      * intros [?|[? _]]; done.
      * intros [_ H]. by apply Exists_nil in H.
      * done.
    + destruct (session.any_qos1 (q0 :: qs')) eqn:Ha.
      * pose proof (proj1 (any_qos1_Exists _) Ha) as Hex. split_and!.
        -- split; [|by intros [_ ?]].
           intros [msg H]. by destruct (session.QPush p (session.qos1 s) e).
        -- intros [?|[_ Hall]]; [done|].
           apply any_qos1_none in Hall. congruence.
        -- done.
        -- intros s' err H.
           destruct (session.QPush p (session.qos1 s) e) as [[q' err']|]; [|done].
           inversion H; subst. simpl. split_and!; try done. by left.
      * split_and!.
        -- split; [|by intros [_ ?]].
           intros [msg H]. by destruct (session.QPush p (session.qos0 s) e).
        -- done.
        -- intros [_ Hex]. apply any_qos1_Exists in Hex. congruence.
        -- intros s' err H.
           destruct (session.QPush p (session.qos0 s) e) as [[q' err']|]; [|done].
           inversion H; subst. simpl. split_and!; try done. by right.
Qed.

(** ** The clients of a session *)

(** X13: taking a session over and leaving it.  addClient with exclusive
    set hands back the clients the session had and leaves the new client
    as the only one, handed the session; when that client is deleted
    again the session has no client left and delClient returns the
    session's CleanSession flag. *)
Theorem exclusive_client_owns_session (s : session.Session) (c : session.client) :
  let s1 := (session.addClient s c true).1 in
  (session.addClient s c true).2 = Some (session.clis s)
  /\ session.clientCount s1 = 1%nat
  /\ session.clis s1 !! session.getID c
     = Some (session.setSession c (session.SID s))
  /\ session.clientCount (session.delClient s1 c).1 = 0%nat
  /\ (session.delClient s1 c).2 = session.CleanSession s.
Proof.
  unfold session.addClient, session.delClient, session.clientCount. simpl.
  rewrite lookup_insert_eq, delete_insert_eq, delete_empty.
  rewrite insert_empty, map_size_singleton, map_size_empty.
  split_and!; try done. by rewrite andb_true_r.
Qed.

(** X14: joining and leaving a shared session.  addClient without
    exclusive hands back nothing, keeps every client of another id and
    stores the new one under its id, so that the count grows by one when
    the id is new and stays when a client of that id is replaced;
    delClient says the session should be cleaned exactly when
    CleanSession is set and no client of another id is left. *)
Theorem shared_session_clients (s : session.Session) (c : session.client) :
  let s1 := (session.addClient s c false).1 in
  (session.addClient s c false).2 = None
  /\ (forall k, k <> session.getID c ->
        session.clis s1 !! k = session.clis s !! k)
  /\ session.clis s1 !! session.getID c
     = Some (session.setSession c (session.SID s))
  /\ session.clientCount s1
     = match session.clis s !! session.getID c with
       | Some _ => session.clientCount s
       | None => S (session.clientCount s)
       end
  /\ ((session.delClient s c).2 = true
      <-> session.CleanSession s = true
          /\ forall k, k <> session.getID c -> session.clis s !! k = None).
Proof.
  unfold session.addClient, session.delClient, session.clientCount. simpl.
  split_and!; try done.
  - intros k Hk. by rewrite lookup_insert_ne.
  - by rewrite lookup_insert_eq.
  - destruct (session.clis s !! session.getID c) eqn:Hc.
    + rewrite <- (insert_delete_id (session.clis s) _ _ Hc) at 2.
      rewrite <- insert_delete_eq.
      by rewrite !map_size_insert_None by apply lookup_delete_eq.
    + by rewrite map_size_insert_None.
  - rewrite andb_true_iff, Nat.eqb_eq, map_size_empty_iff. split.
    + intros [Hcs He]. split; [done|]. intros k Hk.
      apply (f_equal (fun mm => mm !! k)) in He.
      by rewrite lookup_delete_ne, lookup_empty in He.
    + intros [Hcs He]. split; [done|]. apply map_eq. intros k.
      rewrite lookup_empty. destruct (decide (k = session.getID c)) as [->|Hk].
      * apply lookup_delete_eq.
      * rewrite lookup_delete_ne by done. by apply He.
Qed.

(** ** The publisher *)

Lemma dones_app (t1 t2 : list session.obs) :
  session.dones (t1 ++ t2) = session.dones t1 ++ session.dones t2.
Proof. unfold session.dones. apply omap_app. Qed.

Lemma acknowledge_found (cl : session.ClientMQTT) (id : Z) (o : session.pm) :
  session.m cl !! id = Some o ->
  session.m (session.acknowledge cl id) = base.delete id (session.m cl)
  /\ session.dones (session.trace (session.acknowledge cl id))
     = session.dones (session.trace cl) ++ [session.e o].
Proof.
  intros H. unfold session.acknowledge. rewrite H. simpl.
  by rewrite dones_app.
Qed.

Lemma acknowledge_missing (cl : session.ClientMQTT) (id : Z) :
  session.m cl !! id = None ->
  session.m (session.acknowledge cl id) = session.m cl
  /\ session.dones (session.trace (session.acknowledge cl id))
     = session.dones (session.trace cl).
Proof.
  intros H. unfold session.acknowledge. rewrite H. simpl.
  rewrite dones_app. simpl. by rewrite app_nil_r.
Qed.

(** X15: a publish and its puback.  When the packet id is free and the
    packet is sent, publish records the event under the id and queues it
    for the republisher; the puback of that id acknowledges the event
    once (Done) and frees the id, the map being as it was before the
    publish; a second puback of the id finds nothing and acknowledges
    nothing. *)
Theorem publish_then_puback_acknowledges_once (id now : Z)
    (cl : session.ClientMQTT) (ev : Event) :
  session.m cl !! id = None ->
  room (session.c cl) (session.cap cl) = true ->
  exists cl1,
    session.publish id now None PickSend cl ev = Some (cl1, None)
    /\ session.e <$> (session.m cl1 !! id) = Some ev
    /\ session.e <$> last (session.c cl1) = Some ev
    /\ session.dones (session.trace cl1) = session.dones (session.trace cl)
    /\ let cl2 := session.acknowledge cl1 id in
       session.m cl2 = session.m cl
       /\ session.dones (session.trace cl2)
          = session.dones (session.trace cl) ++ [ev]
       /\ let cl3 := session.acknowledge cl2 id in
          session.m cl3 = session.m cl
          /\ session.dones (session.trace cl3)
             = session.dones (session.trace cl) ++ [ev].
Proof.
  intros Hm Hr. unfold session.publish. rewrite Hm. simpl. rewrite Hr.
  eexists. split; [reflexivity|].
  match goal with |- context [session.acknowledge ?x id] => set (cl1 := x) end.
  assert (M1 : session.m cl1 !! id
               = Some {| session.e := ev;
                         session.p := {| session.PID := id; session.Dup := false;
                                         session.Of := ev |};
                         session.l := now |})
    by (simpl; apply lookup_insert_eq).
  assert (D1 : session.dones (session.trace cl1) = session.dones (session.trace cl))
    by (simpl; rewrite dones_app; simpl; by rewrite app_nil_r).
  destruct (acknowledge_found cl1 id _ M1) as [M2 D2].
  assert (M2' : session.m (session.acknowledge cl1 id) = session.m cl).
  { rewrite M2. simpl. by rewrite delete_insert_eq, (delete_id _ _ Hm). }
  assert (M3 : session.m (session.acknowledge cl1 id) !! id = None)
    by by rewrite M2'.
  destruct (acknowledge_missing _ _ M3) as [M4 D4].
  split_and!.
  - by rewrite M1.
  - subst cl1. simpl. by rewrite last_snoc.
  - done.
  - done.
  - by rewrite D2, D1.
  - by rewrite M4.
  - by rewrite D4, D2, D1.
Qed.

(** X16: a packet id that is still in flight.  When publish draws an id
    under which an unacknowledged event is recorded, it acknowledges that
    older event at once and leaves it recorded: the new event is not
    stored under the id, whatever becomes of the send.  The puback of the
    id then acknowledges the older event a second time and frees the id,
    and the new event is never acknowledged by a puback. *)
Theorem publish_on_used_id_keeps_old_entry (id now : Z)
    (fault : option session.failure) (pk : pick) (cl cl1 : session.ClientMQTT)
    (ev : Event) (old : session.pm) (err : option session.failure) :
  session.m cl !! id = Some old ->
  session.publish id now fault pk cl ev = Some (cl1, err) ->
  session.m cl1 = session.m cl
  /\ session.dones (session.trace cl1)
     = session.dones (session.trace cl) ++ [session.e old]
  /\ let cl2 := session.acknowledge cl1 id in
     session.m cl2 = base.delete id (session.m cl)
     /\ session.dones (session.trace cl2)
        = session.dones (session.trace cl) ++ [session.e old; session.e old]
     /\ forall k, session.dones (session.trace (session.acknowledge cl2 k))
                  = session.dones (session.trace cl2)
                  \/ exists o, session.m cl !! k = Some o /\ k <> id
                     /\ session.dones (session.trace (session.acknowledge cl2 k))
                        = session.dones (session.trace cl2) ++ [session.e o].
Proof.
  intros Hm Hp. unfold session.publish in Hp. rewrite Hm in Hp.
  assert (H1 : session.m cl1 = session.m cl
               /\ session.dones (session.trace cl1)
                  = session.dones (session.trace cl) ++ [session.e old]).
  { destruct fault as [f|]; simpl in Hp.
    - inversion Hp; subst. simpl. rewrite !dones_app. simpl.
      by rewrite app_nil_r.
    - destruct pk; try done.
      + destruct (room _ _); [|done]. inversion Hp; subst. simpl.
        rewrite !dones_app. simpl. by rewrite app_nil_r.
      + destruct (session.dying cl); [|done]. inversion Hp; subst. simpl.
        rewrite !dones_app. simpl. by rewrite app_nil_r. }
  destruct H1 as [M1 D1]. split; [done|]. split; [done|].
  assert (H2 : session.m (session.acknowledge cl1 id) = base.delete id (session.m cl)
               /\ session.dones (session.trace (session.acknowledge cl1 id))
                  = session.dones (session.trace cl) ++ [session.e old; session.e old]).
  { unfold session.acknowledge. rewrite M1, Hm. simpl.
    rewrite dones_app, D1, <- app_assoc. done. }
  destruct H2 as [M2 D2]. simpl. split; [done|]. split; [done|].
  intros k.
  destruct (session.m (session.acknowledge cl1 id) !! k) as [o|] eqn:Hk.
  - right. exists o. destruct (acknowledge_found _ _ _ Hk) as [_ D3].
    rewrite M2 in Hk. destruct (decide (k = id)) as [->|Hne].
    + by rewrite lookup_delete_eq in Hk.
    + rewrite lookup_delete_ne in Hk by done. by split_and!.
  - left. by destruct (acknowledge_missing _ _ Hk).
Qed.

(** * The further properties at concrete inputs *)

Lemma two_pushed_encode :
  encode (offset (wire.fresh 10 5 wire.empty_bucket)) two_pushed
  = Ok (two_records, two_stamped).
Proof. vm_compute. reflexivity. Qed.

Lemma two_pushed_put :
  store.Put None 0 (bucket (wire.fresh 10 5 wire.empty_bucket))
            (u64 (offset (wire.fresh 10 5 wire.empty_bucket) + 1)) two_records
  = Ok two_stored.
Proof. vm_compute. reflexivity. Qed.

Lemma add_stamps_consecutive_offsets_witness :
  exists ee d,
    two_stamped !! 1%nat = Some ee /\ two_records !! 1%nat = Some d
    /\ EventID ee = 2 /\ proto.Marshal (Message ee) = Ok d.
Proof.
  assert (H0 : 0 <= offset (wire.fresh 10 5 wire.empty_bucket)) by (vm_compute; discriminate).
  assert (Hb : offset (wire.fresh 10 5 wire.empty_bucket)
               + Z.of_nat (length two_pushed) < 2 ^ 64) by (vm_compute; reflexivity).
  assert (Hi : two_pushed !! 1%nat = Some (wire.produced 2 6)) by reflexivity.
  destruct (add_stamps_consecutive_offsets (wire.fresh 10 5 wire.empty_bucket)
              two_pushed two_records two_stamped 1 (wire.produced 2 6)
              H0 Hb two_pushed_encode Hi)
    as (ee & d & H1 & H2 & H3 & _ & _ & _ & _ & _ & _ & H4 & _).
  exists ee, d. split_and!; [exact H1 | exact H2 | exact H3 | exact H4].
Defined.

Lemma add_success_commits_batch_witness :
  offset (add None 0 (wire.fresh 10 5 wire.empty_bucket) two_pushed).1 = 2
  /\ bucket (add None 0 (wire.fresh 10 5 wire.empty_bucket) two_pushed).1 = two_stored.
Proof.
  assert (Hne : two_pushed <> []) by discriminate.
  assert (Hd : disable (wire.fresh 10 5 wire.empty_bucket) = false) by reflexivity.
  assert (H0 : 0 <= offset (wire.fresh 10 5 wire.empty_bucket)) by (vm_compute; discriminate).
  assert (Hb : offset (wire.fresh 10 5 wire.empty_bucket)
               + Z.of_nat (length two_pushed) < 2 ^ 64) by (vm_compute; reflexivity).
  destruct (add_success_commits_batch None 0 (wire.fresh 10 5 wire.empty_bucket)
              two_pushed two_records two_stamped two_stored
              Hne Hd H0 Hb two_pushed_encode two_pushed_put)
    as (_ & H1 & H2 & _).
  split; [exact H1 | exact H2].
Defined.

Lemma add_then_get_reads_batch_witness :
  (get None (add None 0 (wire.fresh 10 5 wire.empty_bucket) two_pushed).1 1 3).2
  = Ok two_stamped.
Proof.
  assert (Hne : two_pushed <> []) by discriminate.
  assert (H0 : 0 <= offset (wire.fresh 10 5 wire.empty_bucket)) by (vm_compute; discriminate).
  assert (Hb : offset (wire.fresh 10 5 wire.empty_bucket)
               + Z.of_nat (length two_pushed) < 2 ^ 64 - 1) by (vm_compute; reflexivity).
  assert (Hrt : Forall2 (fun ee d => d <> [] /\ proto.Unmarshal d = Ok (Message ee))
                        two_stamped two_records).
  { repeat constructor; try discriminate; vm_compute; reflexivity. }
  exact (add_then_get_reads_batch 0 (wire.fresh 10 5 wire.empty_bucket) two_pushed
           two_records two_stamped two_stored Hne H0 Hb
           two_pushed_encode two_pushed_put Hrt).
Defined.

Lemma store_read_at_most_batch_witness :
  (reading_lock (wire.fresh 4 5 six_records) 1).1.2 <= 5
  /\ Z.of_nat (length [wire.stamped 1 0; wire.stamped 2 0; wire.stamped 3 0;
                       wire.stamped 4 0]) <= 4.
Proof.
  assert (H0 : 0 <= 1) by lia.
  assert (Hs : 0 <= BatchSize (cfg (wire.fresh 4 5 six_records))) by (vm_compute; discriminate).
  assert (Hb : 1 + BatchSize (cfg (wire.fresh 4 5 six_records)) < 2 ^ 64)
    by (vm_compute; reflexivity).
  assert (Hg : (get None (reading_lock (wire.fresh 4 5 six_records) 1).1.1 1
                    (reading_lock (wire.fresh 4 5 six_records) 1).1.2).2
               = Ok [wire.stamped 1 0; wire.stamped 2 0; wire.stamped 3 0;
                     wire.stamped 4 0]) by (vm_compute; reflexivity).
  exact (store_read_at_most_batch None (wire.fresh 4 5 six_records) 1 _ H0 Hs Hb Hg).
Defined.

Lemma clean_drops_only_expired_witness :
  exists pre,
    aged_cache = pre ++ drop 1 aged_cache
    /\ Forall (expired 100) pre.
Proof.
  assert (H : clean_lock 200000000000
                (with_cache (wire.fresh 10 5 wire.empty_bucket) aged_cache)
              = Some (with_cache (wire.fresh 10 5 wire.empty_bucket)
                                 (drop 1 aged_cache)))
    by (vm_compute; reflexivity).
  destruct (clean_drops_only_expired 200000000000 _ _ H) as (pre & H1 & H2 & _).
  exists pre. split; [exact H1 | exact H2].
Defined.

Lemma dying_is_permanent_witness :
  dying (q (run (exec demo_start AKill) demo_run)) = true.
Proof.
  assert (H : dying (q (exec demo_start AKill)) = true) by reflexivity.
  exact (proj1 (dying_is_permanent (exec demo_start AKill) demo_run
                  (wire.produced 1 5) H)).
Defined.

Lemma dying_queue_shuts_down_witness :
  exited (run (run demo_start (demo_run ++ [AKill]))
              (shutdown None None None None None None 0)) = true.
Proof.
  assert (H : dying (q (run demo_start (demo_run ++ [AKill]))) = true)
    by (vm_compute; reflexivity).
  exact (proj1 (dying_queue_shuts_down None (wire.config 2 1) wire.empty_bucket
                  demo_start (demo_run ++ [AKill]) None None None None None None
                  0 false demo_start_started H)).
Defined.

Lemma offset_grows_with_pushes_witness :
  offset (q (run demo_start (take 4 demo_run)))
  <= offset (q (run demo_start (take 4 demo_run ++ drop 4 demo_run))).
Proof.
  assert (Hb : offset (q demo_start)
               + Z.of_nat (pushes (take 4 demo_run ++ drop 4 demo_run)) < 2 ^ 64)
    by (vm_compute; reflexivity).
  destruct (offset_grows_with_pushes None (wire.config 2 1) wire.empty_bucket
              demo_start (take 4 demo_run) (drop 4 demo_run)
              demo_start_started Hb) as (_ & H & _).
  exact H.
Defined.

Lemma buffers_stay_within_batch_size_witness :
  bounded 2 (run demo_start demo_run).
Proof.
  assert (Hn : 1 <= BatchSize (wire.config 2 1)) by (vm_compute; discriminate).
  exact (buffers_stay_within_batch_size None (wire.config 2 1) wire.empty_bucket
           demo_start demo_run demo_start_started Hn).
Defined.

Lemma sent_offsets_are_committed_witness :
  Forall (fun k => k <= offset (q (run demo_start demo_run)))
         (sent_ids (trace (q (run demo_start demo_run)))).
Proof.
  assert (Hb : offset (q demo_start) + Z.of_nat (pushes demo_run) < 2 ^ 64 - 1)
    by (vm_compute; reflexivity).
  exact (sent_offsets_are_committed None (wire.config 2 1) wire.empty_bucket
           demo_start demo_run demo_start_started empty_bucket_valid Hb).
Defined.

Lemma session_push_routes_to_one_queue_witness :
  session.Push PickSend demo_session (wire.stamped 0 5)
  = Some (session.Pushed
            (session.with_qos1 demo_session
               (session.of_persistence
                  (with_input (wire.fresh 2 1 wire.empty_bucket) [wire.stamped 0 5])))
            None).
Proof.
  destruct (session_push_routes_to_one_queue PickSend demo_session
              (wire.stamped 0 5)) as (_ & _ & H & _).
  rewrite H; [reflexivity|].
  split; [discriminate|]. constructor. reflexivity.
Defined.

Lemma publish_then_puback_acknowledges_once_witness :
  exists cl1,
    session.publish 1 0 None PickSend idle_client (wire.stamped 1 5) = Some (cl1, None)
    /\ session.dones (session.trace (session.acknowledge cl1 1)) = [wire.stamped 1 5].
Proof.
  assert (Hm : session.m idle_client !! 1 = None) by reflexivity.
  assert (Hr : room (session.c idle_client) (session.cap idle_client) = true)
    by reflexivity.
  destruct (publish_then_puback_acknowledges_once 1 0 idle_client
              (wire.stamped 1 5) Hm Hr) as (cl1 & H1 & _ & _ & _ & _ & H2 & _).
  exists cl1. split; [exact H1 | exact H2].
Defined.

Lemma publish_on_used_id_keeps_old_entry_witness :
  exists cl1,
    session.publish 1 0 None PickSend busy_client (wire.stamped 2 6) = Some (cl1, None)
    /\ session.m cl1 = session.m busy_client
    /\ session.dones (session.trace cl1) = [wire.stamped 1 5].
Proof.
  eexists. split; [reflexivity|].
  destruct (publish_on_used_id_keeps_old_entry 1 0 None PickSend busy_client _
              (wire.stamped 2 6) in_flight None eq_refl eq_refl) as (H1 & H2 & _).
  split; [exact H1 | exact H2].
Defined.
